(** * knowledge-hub: the data-access layer ([src/lib/db-service.ts]) over
      the relational schema of [src/lib/db.ts], and the HTTP handlers that
      call it.

    The SQLite tables are lists of rows in rowid order; every statement the
    services issue is a function on the tables that either changes them or
    raises the engine's error, leaving them as they were.  Services run in a
    state-and-exception monad over the tables, the clock and the uuid
    source, so that a statement that throws in the middle of a service call
    leaves the effects of the statements before it in place, as in the
    source, which opens no transaction.

    A text is the sequence of its bytes in UTF-8, the encoding in which the
    engine receives, stores and compares it; a number is a JavaScript
    number, of which the engine takes as an integer only what has an
    integer value. *)

From Stdlib Require Import ZArith NArith Ascii String List Lia Bool.
From stdpp Require Import base tactics option list strings sorting.

Local Open Scope Z_scope.
Local Open Scope string_scope.
Local Open Scope list_scope.

(** ** Numbers

    A JavaScript [number], as far as the services and the engine tell
    numbers apart: a finite value, written as a fraction, an infinity, or
    [NaN].  The engine receives every number as a double and hands it back
    as it stored it. *)
Inductive Number :=
  | Ratio (numerator : Z) (denominator : positive)
  | Infinite (negative : bool)
  | NaN.

(** The number with the integer value [z]. *)
Definition integer (z : Z) : Number := Ratio z 1.

(** The integer value of a number that has one. *)
Definition integer_value (n : Number) : option Z :=
  match n with
  | Ratio a b => if (a mod Z.pos b =? 0)%Z then Some (a / Z.pos b) else None
  | _ => None
  end.

(** ** Rows ([src/lib/types.ts]) *)

Record User := mkUser {
  u_id : string;
  u_email : string;
  u_name : option string;
  u_password : string;
  u_role : string;
  u_created_at : string;
  u_updated_at : string }.

Record Post := mkPost {
  p_id : string;
  p_title : string;
  p_slug : string;
  p_content : string;
  p_excerpt : option string;
  p_cover_image : option string;
  p_published : Z;
  p_featured : Z;
  p_reading_time : Number;
  p_views : Z;
  p_created_at : string;
  p_updated_at : string;
  p_published_at : option string;
  p_author_id : string }.

Record Category := mkCategory {
  c_id : string;
  c_name : string;
  c_slug : string;
  c_description : option string;
  c_color : option string;
  c_created_at : string;
  c_updated_at : string }.

Record Tag := mkTag {
  t_id : string;
  t_name : string;
  t_slug : string;
  t_created_at : string;
  t_updated_at : string }.

Record PostWithRelations := mkPostWithRelations {
  post : Post;
  pr_categories : list Category;
  pr_tags : list Tag;
  pr_author : option User }.

Record CreatePostInput := mkCreatePostInput {
  in_title : string;
  in_slug : string;
  in_content : string;
  in_excerpt : option string;
  in_cover_image : option string;
  in_published : option bool;
  in_featured : option bool;
  in_reading_time : option Number;
  in_author_id : string;
  in_categories : option (list string);
  in_tags : option (list string) }.

(** [UpdatePostInput extends Partial<CreatePostInput>]: every field but the
    id may be absent ([undefined]). *)
Record UpdatePostInput := mkUpdatePostInput {
  up_id : string;
  up_title : option string;
  up_slug : option string;
  up_content : option string;
  up_excerpt : option string;
  up_cover_image : option string;
  up_published : option bool;
  up_featured : option bool;
  up_reading_time : option Number;
  up_author_id : option string;
  up_categories : option (list string);
  up_tags : option (list string) }.

(** ** The database and its environment *)

Record Db := mkDb {
  users : list User;
  posts : list Post;
  categories : list Category;
  tags : list Tag;
  post_categories : list (string * string);
  post_tags : list (string * string) }.

(** [uuid_source n] is the n-th identifier [uuidv4()] hands out,
    [date_now n] the n-th reading of [new Date().toISOString()] and
    [current_timestamp n] the engine's [CURRENT_TIMESTAMP] at that reading. *)
Record World := mkWorld {
  db : Db;
  uuid_source : nat -> string;
  draws : nat;
  date_now : nat -> string;
  current_timestamp : nat -> string;
  ticks : nat }.

Definition with_db (f : Db -> Db) (w : World) : World :=
  mkWorld (f (db w)) (uuid_source w) (draws w) (date_now w)
          (current_timestamp w) (ticks w).

Definition set_users (v : list User) (d : Db) : Db :=
  mkDb v (posts d) (categories d) (tags d) (post_categories d) (post_tags d).
Definition set_posts (v : list Post) (d : Db) : Db :=
  mkDb (users d) v (categories d) (tags d) (post_categories d) (post_tags d).
Definition set_categories (v : list Category) (d : Db) : Db :=
  mkDb (users d) (posts d) v (tags d) (post_categories d) (post_tags d).
Definition set_tags (v : list Tag) (d : Db) : Db :=
  mkDb (users d) (posts d) (categories d) v (post_categories d) (post_tags d).
Definition set_post_categories (v : list (string * string)) (d : Db) : Db :=
  mkDb (users d) (posts d) (categories d) (tags d) v (post_tags d).
Definition set_post_tags (v : list (string * string)) (d : Db) : Db :=
  mkDb (users d) (posts d) (categories d) (tags d) (post_categories d) v.

(** ** Exceptions and the service monad *)

Inductive SqliteCode :=
  | SQLITE_CONSTRAINT_PRIMARYKEY
  | SQLITE_CONSTRAINT_UNIQUE
  | SQLITE_CONSTRAINT_FOREIGNKEY
  | SQLITE_ERROR
  | SQLITE_MISMATCH
  | SQLITE_IOERR.

(** What the services and the handlers can see thrown: an error of the
    engine, or the [TypeError] of [Response.json] on a value that has no
    JSON text. *)
Inductive Exn :=
  | SqliteError (code : SqliteCode)
  | TypeError.

Inductive Outcome (A : Type) :=
  | Returned (a : A)
  | Thrown (e : Exn).
Arguments Returned {A} a.
Arguments Thrown {A} e.

Definition M (A : Type) : Type := World -> Outcome A * World.

Definition ret {A} (a : A) : M A := fun w => (Returned a, w).
Definition throw {A} (e : Exn) : M A := fun w => (Thrown e, w).
Definition bind {A B} (m : M A) (k : A -> M B) : M B :=
  fun w => match m w with
           | (Returned a, w') => k a w'
           | (Thrown e, w') => (Thrown e, w')
           end.
Definition try_catch {A} (m : M A) (handler : Exn -> M A) : M A :=
  fun w => match m w with
           | (Returned a, w') => (Returned a, w')
           | (Thrown e, w') => handler e w'
           end.
Definition get_db : M Db := fun w => (Returned (db w), w).
Definition modify_db (f : Db -> Db) : M unit :=
  fun w => (Returned tt, with_db f w).

Declare Scope service_scope.
Delimit Scope service_scope with service.
Notation "x <- m ;; k" := (bind m (fun x => k))
  (at level 100, m at next level, right associativity) : service_scope.
Notation "m ;;; k" := (bind m (fun _ => k))
  (at level 100, right associativity) : service_scope.
Local Open Scope service_scope.

(** [for (const x of xs) body(x)] *)
Fixpoint for_of {A} (xs : list A) (body : A -> M unit) : M unit :=
  match xs with
  | [] => ret tt
  | x :: rest => body x ;;; for_of rest body
  end.

(** [uuidv4()] *)
Definition uuidv4 : M string :=
  fun w => (Returned (uuid_source w (draws w)),
            mkWorld (db w) (uuid_source w) (S (draws w)) (date_now w)
                    (current_timestamp w) (ticks w)).

(** [new Date().toISOString()] *)
Definition new_Date_toISOString : M string :=
  fun w => (Returned (date_now w (ticks w)),
            mkWorld (db w) (uuid_source w) (draws w) (date_now w)
                    (current_timestamp w) (S (ticks w))).

(** The engine's [CURRENT_TIMESTAMP], the default of the [created_at] and
    [updated_at] columns. *)
Definition CURRENT_TIMESTAMP : M string :=
  fun w => (Returned (current_timestamp w (ticks w)),
            mkWorld (db w) (uuid_source w) (draws w) (date_now w)
                    (current_timestamp w) (S (ticks w))).

(** ** JavaScript truthiness, where the services rely on it *)

(** [s || null] for an optional string: the empty string is falsy. *)
Definition or_null (s : option string) : option string :=
  match s with
  | Some "" => None
  | other => other
  end.

(** [b ? 1 : 0] for an optional boolean: [undefined] is falsy. *)
Definition flag (b : option bool) : Z :=
  match b with
  | Some true => 1
  | _ => 0
  end.

(** Truthiness of an optional number: [undefined], [0] and [NaN] are
    falsy. *)
Definition truthy_num (n : option Number) : bool :=
  match n with
  | Some (Ratio a _) => negb (a =? 0)%Z
  | Some (Infinite _) => true
  | Some NaN => false
  | None => false
  end.

(** [s.repeat(n)] *)
Fixpoint repeat_text (n : nat) (s : string) : string :=
  match n with
  | O => ""
  | S n' => (s ++ repeat_text n' s)%string
  end.

(** ** Helpers of [src/lib/utils] *)

Definition is_upper (c : ascii) : bool :=
  (65 <=? nat_of_ascii c)%nat && (nat_of_ascii c <=? 90)%nat.
Definition is_lower (c : ascii) : bool :=
  (97 <=? nat_of_ascii c)%nat && (nat_of_ascii c <=? 122)%nat.
Definition is_digit (c : ascii) : bool :=
  (48 <=? nat_of_ascii c)%nat && (nat_of_ascii c <=? 57)%nat.

(** Lower-casing of one character; only the letters A-Z change. *)
Definition lower (c : ascii) : ascii :=
  if is_upper c then ascii_of_nat (nat_of_ascii c + 32) else c.

Definition hyphen : ascii := "-"%char.

(** [a-z0-9] *)
Definition is_alnum (c : ascii) : bool := is_lower c || is_digit c.

(** Every maximal run of characters outside [a-z0-9] becomes one hyphen;
    [in_run] tells that the run's hyphen is already written. *)
Fixpoint collapse (in_run : bool) (s : list ascii) : list ascii :=
  match s with
  | [] => []
  | c :: r =>
      if is_alnum c then c :: collapse false r
      else if in_run then collapse true r
      else hyphen :: collapse true r
  end.

Fixpoint strip_leading (s : list ascii) : list ascii :=
  match s with
  | [] => []
  | c :: r => if Ascii.eqb c hyphen then strip_leading r else c :: r
  end.

Definition strip_trailing (s : list ascii) : list ascii :=
  rev (strip_leading (rev s)).

Definition slugify (s : list ascii) : list ascii :=
  strip_trailing (strip_leading (collapse false (map lower s))).

(** Modelled from the spec: [generateSlug] of [src/lib/utils], which is
    imported by the services but is not among the sources.  The spec gives
    it as: the text lowercased, every run of non-alphanumeric characters
    collapsed to a single hyphen, leading and trailing hyphens trimmed.
    Alphanumeric are the characters [a-z0-9] of the lowercased text, where
    only the letters A-Z change; every other byte, those of a character
    outside ASCII included, belongs to a run. *)
Definition generateSlug (text : string) : string :=
  string_of_list_ascii (slugify (list_ascii_of_string text)).

Definition is_space (c : ascii) : bool :=
  match nat_of_ascii c with
  | 32%nat | 9%nat | 10%nat | 11%nat | 12%nat | 13%nat => true
  | _ => false
  end.

(** Number of maximal runs of non-blank characters; [in_word] tells that
    the current word is already counted. *)
Fixpoint count_words (in_word : bool) (s : list ascii) : Z :=
  match s with
  | [] => 0
  | c :: r =>
      if is_space c then count_words false r
      else if in_word then count_words true r
      else 1 + count_words true r
  end.

Definition words_per_minute : Z := 200.

(** Modelled from the spec: [calculateReadingTime] of [src/lib/utils],
    which is imported by the services but is not among the sources.  The
    spec gives it as: a word count divided by an assumed reading speed
    (about 200 words per minute in its example), with a floor of one
    minute; the quotient is rounded up to whole minutes. *)
Definition calculateReadingTime (content : string) : Z :=
  let words := count_words false (list_ascii_of_string content) in
  Z.max 1 ((words + words_per_minute - 1) / words_per_minute).

(** ** The storage engine: the statements the services prepare

    Constraints are those of the [CREATE TABLE] statements of
    [src/lib/db.ts], with [foreign_keys = ON].  A statement that violates
    one raises [SqliteError] and changes no table. *)

Definition has_user (id : string) (d : Db) : bool :=
  existsb (fun u => u_id u =? id) (users d).
Definition has_post (id : string) (d : Db) : bool :=
  existsb (fun p => p_id p =? id) (posts d).
Definition has_category (id : string) (d : Db) : bool :=
  existsb (fun c => c_id c =? id) (categories d).
Definition has_tag (id : string) (d : Db) : bool :=
  existsb (fun t => t_id t =? id) (tags d).

Definition pair_eqb (a b : string * string) : bool :=
  (fst a =? fst b) && (snd a =? snd b).

(** [INSERT INTO users (id, email, name, password) VALUES (?, ?, ?, ?)] *)
Definition insert_user (id email : string) (name : option string)
    (password : string) : M unit :=
  now <- CURRENT_TIMESTAMP ;;
  d <- get_db ;;
  if has_user id d then throw (SqliteError SQLITE_CONSTRAINT_PRIMARYKEY)
  else if existsb (fun u => u_email u =? email) (users d)
  then throw (SqliteError SQLITE_CONSTRAINT_UNIQUE)
  else modify_db (set_users
         (users d ++ [mkUser id email name password "admin" now now])).

(** [INSERT INTO posts (id, title, slug, content, excerpt, cover_image,
    published, featured, reading_time, author_id, published_at)
    VALUES (...)]; [views], [created_at] and [updated_at] take their
    defaults. *)
Definition insert_post (id title slug content : string)
    (excerpt cover_image : option string) (published featured : Z)
    (reading_time : Number) (author_id : string)
    (published_at : option string) : M unit :=
  now <- CURRENT_TIMESTAMP ;;
  d <- get_db ;;
  if has_post id d then throw (SqliteError SQLITE_CONSTRAINT_PRIMARYKEY)
  else if existsb (fun p => p_slug p =? slug) (posts d)
  then throw (SqliteError SQLITE_CONSTRAINT_UNIQUE)
  else if negb (has_user author_id d)
  then throw (SqliteError SQLITE_CONSTRAINT_FOREIGNKEY)
  else modify_db (set_posts
         (posts d ++ [mkPost id title slug content excerpt cover_image
                        published featured reading_time 0 now now
                        published_at author_id])).

(** [INSERT INTO categories (id, name, slug, description, color)
    VALUES (?, ?, ?, ?, ?)] *)
Definition insert_category (id name slug : string)
    (description color : option string) : M unit :=
  now <- CURRENT_TIMESTAMP ;;
  d <- get_db ;;
  if has_category id d then throw (SqliteError SQLITE_CONSTRAINT_PRIMARYKEY)
  else if existsb (fun c => (c_name c =? name) || (c_slug c =? slug))
                  (categories d)
  then throw (SqliteError SQLITE_CONSTRAINT_UNIQUE)
  else modify_db (set_categories
         (categories d ++ [mkCategory id name slug description color now now])).

(** [INSERT INTO tags (id, name, slug) VALUES (?, ?, ?)] *)
Definition insert_tag (id name slug : string) : M unit :=
  now <- CURRENT_TIMESTAMP ;;
  d <- get_db ;;
  if has_tag id d then throw (SqliteError SQLITE_CONSTRAINT_PRIMARYKEY)
  else if existsb (fun t => (t_name t =? name) || (t_slug t =? slug)) (tags d)
  then throw (SqliteError SQLITE_CONSTRAINT_UNIQUE)
  else modify_db (set_tags (tags d ++ [mkTag id name slug now now])).

(** [INSERT INTO post_categories (post_id, category_id) VALUES (?, ?)] *)
Definition insert_post_category (post_id category_id : string) : M unit :=
  d <- get_db ;;
  if existsb (pair_eqb (post_id, category_id)) (post_categories d)
  then throw (SqliteError SQLITE_CONSTRAINT_PRIMARYKEY)
  else if negb (has_post post_id d && has_category category_id d)
  then throw (SqliteError SQLITE_CONSTRAINT_FOREIGNKEY)
  else modify_db (set_post_categories
         (post_categories d ++ [(post_id, category_id)])).

(** [INSERT INTO post_tags (post_id, tag_id) VALUES (?, ?)] *)
Definition insert_post_tag (post_id tag_id : string) : M unit :=
  d <- get_db ;;
  if existsb (pair_eqb (post_id, tag_id)) (post_tags d)
  then throw (SqliteError SQLITE_CONSTRAINT_PRIMARYKEY)
  else if negb (has_post post_id d && has_tag tag_id d)
  then throw (SqliteError SQLITE_CONSTRAINT_FOREIGNKEY)
  else modify_db (set_post_tags (post_tags d ++ [(post_id, tag_id)])).

(** [DELETE FROM post_categories WHERE post_id = ?] *)
Definition delete_post_categories (post_id : string) : M unit :=
  d <- get_db ;;
  modify_db (set_post_categories
    (List.filter (fun pc => negb (fst pc =? post_id)) (post_categories d))).

(** [DELETE FROM post_tags WHERE post_id = ?] *)
Definition delete_post_tags (post_id : string) : M unit :=
  d <- get_db ;;
  modify_db (set_post_tags
    (List.filter (fun pt => negb (fst pt =? post_id)) (post_tags d))).

(** One [column = ?] of the [SET] list that [postService.update] builds,
    with the value pushed for it. *)
Inductive Assignment :=
  | Set_title (v : string)
  | Set_slug (v : string)
  | Set_content (v : string)
  | Set_reading_time (v : Number)
  | Set_excerpt (v : string)
  | Set_cover_image (v : string)
  | Set_published (v : Z)
  | Set_published_at (v : string)
  | Set_featured (v : Z)
  | Set_updated_at (v : string).

Definition assign (p : Post) (a : Assignment) : Post :=
  match p with
  | mkPost id title slug content excerpt cover published featured reading
           views created updated published_at author =>
      match a with
      | Set_title v =>
          mkPost id v slug content excerpt cover published featured reading
                 views created updated published_at author
      | Set_slug v =>
          mkPost id title v content excerpt cover published featured reading
                 views created updated published_at author
      | Set_content v =>
          mkPost id title slug v excerpt cover published featured reading
                 views created updated published_at author
      | Set_reading_time v =>
          mkPost id title slug content excerpt cover published featured v
                 views created updated published_at author
      | Set_excerpt v =>
          mkPost id title slug content (Some v) cover published featured
                 reading views created updated published_at author
      | Set_cover_image v =>
          mkPost id title slug content excerpt (Some v) published featured
                 reading views created updated published_at author
      | Set_published v =>
          mkPost id title slug content excerpt cover v featured reading
                 views created updated published_at author
      | Set_published_at v =>
          mkPost id title slug content excerpt cover published featured
                 reading views created updated (Some v) author
      | Set_featured v =>
          mkPost id title slug content excerpt cover published v reading
                 views created updated published_at author
      | Set_updated_at v =>
          mkPost id title slug content excerpt cover published featured
                 reading views created v published_at author
      end
  end.

Definition select_post_by_id (id : string) (d : Db) : option Post :=
  List.find (fun p => p_id p =? id) (posts d).

(** Some row other than [id]'s holds [slug]. *)
Definition slug_taken (id slug : string) (d : Db) : bool :=
  existsb (fun o => negb (p_id o =? id) && (p_slug o =? slug)) (posts d).

(** [UPDATE posts SET <updates> WHERE id = ?].  No row with that id: the
    statement changes nothing and succeeds.  Otherwise the new row must keep
    [slug] unique among the other rows. *)
Definition update_posts (updates : list Assignment) (id : string) : M unit :=
  d <- get_db ;;
  match select_post_by_id id d with
  | None => ret tt
  | Some old =>
      if slug_taken id (p_slug (fold_left assign updates old)) d
      then throw (SqliteError SQLITE_CONSTRAINT_UNIQUE)
      else modify_db (set_posts
             (map (fun o => if p_id o =? id then fold_left assign updates o
                            else o) (posts d)))
  end.

(** [DELETE FROM posts WHERE id = ?], with the cascade to both junction
    tables. *)
Definition delete_posts (id : string) : M unit :=
  modify_db (fun d =>
    mkDb (users d)
         (List.filter (fun p => negb (p_id p =? id)) (posts d))
         (categories d) (tags d)
         (List.filter (fun pc => negb (fst pc =? id)) (post_categories d))
         (List.filter (fun pt => negb (fst pt =? id)) (post_tags d))).

(** [UPDATE posts SET views = views + 1 WHERE id = ?] *)
Definition increment_views (id : string) : M unit :=
  modify_db (fun d => set_posts
    (map (fun o =>
            if p_id o =? id then
              mkPost (p_id o) (p_title o) (p_slug o) (p_content o)
                     (p_excerpt o) (p_cover_image o) (p_published o)
                     (p_featured o) (p_reading_time o) (p_views o + 1)
                     (p_created_at o) (p_updated_at o) (p_published_at o)
                     (p_author_id o)
            else o) (posts d)) d).

(** [ORDER BY created_at DESC]: the column is text, compared bytewise. *)
Definition created_desc (a b : Post) : Prop :=
  String.leb (p_created_at b) (p_created_at a) = true.

#[global] Instance created_desc_dec : RelDecision created_desc.
Proof. intros a b. unfold created_desc. apply _. Defined.

Definition order_by_created_at_desc (rows : list Post) : list Post :=
  merge_sort created_desc rows.

(** The engine's [OP_MustBeInt], through which the parameters of [LIMIT ?]
    and [OFFSET ?] go: a number stands as an integer when it has an integer
    value strictly between the least and the largest 64-bit integer; for
    any other number ([2.5], [1e19], an infinity) the statement fails with
    "datatype mismatch", which is [None] here. *)
Definition must_be_int (n : Number) : option Z :=
  match integer_value n with
  | Some z =>
      if ((- 2 ^ 63 <? z) && (z <? 2 ^ 63 - 1))%Z then Some z else None
  | None => None
  end.

(** [LIMIT n]: a negative [n] is no limit. *)
Definition sql_limit {A} (n : Number) (rows : list A) : option (list A) :=
  match must_be_int n with
  | Some z => Some (if (z <? 0)%Z then rows else take (Z.to_nat z) rows)
  | None => None
  end.

(** [OFFSET m]: a negative [m] skips nothing. *)
Definition sql_offset {A} (m : Number) (rows : list A) : option (list A) :=
  match must_be_int m with
  | Some z => Some (drop (Z.to_nat z) rows)
  | None => None
  end.

(** The pieces [postService.findAll] appends to
    [SELECT * FROM posts WHERE 1=1], each with the parameter pushed for it. *)
Inductive Fragment :=
  | AND_published_eq (v : Z)
  | AND_featured_eq (v : Z)
  | ORDER_BY_created_at_DESC
  | LIMIT (n : Number)
  | OFFSET (m : Number).

Definition is_condition (f : Fragment) : bool :=
  match f with
  | AND_published_eq _ | AND_featured_eq _ => true
  | _ => false
  end.

Definition condition_holds (p : Post) (f : Fragment) : bool :=
  match f with
  | AND_published_eq v => (p_published p =? v)%Z
  | AND_featured_eq v => (p_featured p =? v)%Z
  | _ => true
  end.

Fixpoint where_conditions (query : list Fragment) : list Fragment :=
  match query with
  | f :: rest => if is_condition f then f :: where_conditions rest else []
  | [] => []
  end.

Fixpoint after_conditions (query : list Fragment) : list Fragment :=
  match query with
  | f :: rest => if is_condition f then after_conditions rest else query
  | [] => []
  end.

Definition or_mismatch {A} (result : option A) : Outcome A :=
  match result with
  | Some a => Returned a
  | None => Thrown (SqliteError SQLITE_MISMATCH)
  end.

(** What follows the [WHERE] conditions must be an [ORDER BY], then nothing,
    a [LIMIT], or a [LIMIT] followed by an [OFFSET]: SQLite's grammar has no
    [OFFSET] without a [LIMIT], and [prepare] fails with a syntax error.  A
    prepared statement then fails in [all] when a parameter of [LIMIT] or
    [OFFSET] is no integer. *)
Definition run_tail (tail : list Fragment) (rows : list Post)
    : Outcome (list Post) :=
  match tail with
  | [ORDER_BY_created_at_DESC] => Returned (order_by_created_at_desc rows)
  | [ORDER_BY_created_at_DESC; LIMIT n] =>
      or_mismatch (sql_limit n (order_by_created_at_desc rows))
  | [ORDER_BY_created_at_DESC; LIMIT n; OFFSET m] =>
      or_mismatch
        (match sql_offset m (order_by_created_at_desc rows) with
         | Some skipped => sql_limit n skipped
         | None => None
         end)
  | _ => Thrown (SqliteError SQLITE_ERROR)
  end.

(** [db.prepare(query).all(...params)] *)
Definition select_posts (query : list Fragment) : M (list Post) :=
  d <- get_db ;;
  let conditions := where_conditions query in
  let tail := after_conditions query in
  let rows :=
    List.filter (fun p => forallb (condition_holds p) conditions) (posts d) in
  match run_tail tail rows with
  | Returned result => ret result
  | Thrown e => throw e
  end.

(** *** [LIKE]

    Text is stored in UTF-8, and a [string] here is that byte sequence.
    The engine's [LIKE] reads pattern and text as zero-terminated UTF-8:
    each ends at its first NUL byte, and the two are compared character by
    character, as [sqlite3Utf8Read] decodes them. *)

(** The text up to its first NUL byte. *)
Fixpoint c_string (s : string) : string :=
  match s with
  | EmptyString => EmptyString
  | String b rest =>
      if Ascii.eqb b "000" then EmptyString else String b (c_string rest)
  end.

(** A continuation byte, [10xxxxxx]. *)
Definition is_continuation (b : ascii) : bool :=
  (N.land (N_of_ascii b) 192 =? 128)%N.

(** A byte from [0xC0] on starts a multi-byte character. *)
Definition is_lead (b : ascii) : bool := (192 <=? N_of_ascii b)%N.

(** [sqlite3Utf8Trans1]: the payload bits of a lead byte. *)
Definition lead_payload (b : ascii) : N :=
  let n := N_of_ascii b in
  if (n <? 224)%N then N.land n 31
  else if (n <? 240)%N then N.land n 15
  else if (n <? 248)%N then N.land n 7
  else if (n <? 252)%N then N.land n 3
  else if (n <? 254)%N then N.land n 1
  else 0%N.

(** [c = (c << 6) + (0x3f & b)], in 32-bit arithmetic. *)
Definition push_continuation (c : N) (b : ascii) : N :=
  ((c * 64 + N.land (N_of_ascii b) 63) mod 2 ^ 32)%N.

(** A multi-byte sequence that decodes below [0x80], to a surrogate, or to
    [0xFFFE] or [0xFFFF] reads as [0xFFFD]. *)
Definition replace_invalid (c : N) : N :=
  if ((c <? 128) || (N.land c 4294965248 =? 55296)
      || (N.land c 4294967294 =? 65534))%N
  then 65533%N else c.

(** The characters of a text, as repeated [sqlite3Utf8Read] gives them: a
    byte below [0xC0] is a character of its own; a byte from [0xC0] on takes
    every continuation byte that follows it.  [pending] is the multi-byte
    character being read. *)
Fixpoint utf8_chars (pending : option N) (s : string) : list N :=
  match s with
  | EmptyString =>
      match pending with
      | Some c => [replace_invalid c]
      | None => []
      end
  | String b rest =>
      let start :=
        if is_lead b then utf8_chars (Some (lead_payload b)) rest
        else N_of_ascii b :: utf8_chars None rest in
      match pending with
      | Some c =>
          if is_continuation b
          then utf8_chars (Some (push_continuation c b)) rest
          else replace_invalid c :: start
      | None => start
      end
  end.

(** The characters [LIKE] sees of a value. *)
Definition characters (s : string) : list N := utf8_chars None (c_string s).

(** Lower-casing as [LIKE] does it: only the letters A-Z change. *)
Definition fold_case (c : N) : N :=
  if ((65 <=? c) && (c <=? 90))%N then (c + 32)%N else c.

(** [c == c2 || (tolower(c) == tolower(c2) && c < 0x80 && c2 < 0x80)] *)
Definition same_character (c d : N) : bool :=
  ((c =? d) || ((c <? 128) && (d <? 128) && (fold_case c =? fold_case d)))%N.

(** [patternCompare] without an [ESCAPE] character: [%] (37) matches any
    run of characters, [_] (95) exactly one character, and any other
    character matches itself up to the case of the letters A-Z. *)
Fixpoint like_chars (pattern text : list N) {struct pattern} : bool :=
  match pattern with
  | [] =>
      match text with
      | [] => true
      | _ :: _ => false
      end
  | c :: rest =>
      if (c =? 37)%N then
        (fix any_run (t : list N) : bool :=
           like_chars rest t ||
           match t with
           | [] => false
           | _ :: t' => any_run t'
           end) text
      else
        match text with
        | [] => false
        | d :: t' => ((c =? 95)%N || same_character c d) && like_chars rest t'
        end
  end.

(** [text LIKE pattern] on two text values. *)
Definition like (pattern text : string) : bool :=
  like_chars (characters pattern) (characters text).

(** The engine refuses a pattern of more than 50000 bytes
    ([SQLITE_MAX_LIKE_PATTERN_LENGTH]) when it evaluates the [LIKE], with
    the error "LIKE or GLOB pattern too complex". *)
Definition pattern_too_complex (pattern : string) : bool :=
  (50000 <? N.of_nat (String.length pattern))%N.

(** [column LIKE ?] on one row: [None] is the engine's error; a [NULL]
    column makes the comparison unknown, which selects nothing. *)
Definition like_column (pattern : string) (text : option string)
    : option bool :=
  if pattern_too_complex pattern then None
  else Some (match text with
             | Some t => like pattern t
             | None => false
             end).

(** [published = 1 AND (title LIKE ? OR content LIKE ? OR excerpt LIKE ?)]
    on one row, evaluated left to right: a row that is not published
    evaluates no [LIKE], and a [LIKE] that holds spares the ones after
    it. *)
Definition search_matches (t1 t2 t3 : string) (p : Post) : option bool :=
  if (p_published p =? 1)%Z then
    match like_column t1 (Some (p_title p)) with
    | None => None
    | Some true => Some true
    | Some false =>
        match like_column t2 (Some (p_content p)) with
        | None => None
        | Some true => Some true
        | Some false => like_column t3 (p_excerpt p)
        end
    end
  else Some false.

(** The rows a [WHERE] condition selects, in rowid order; the first row
    whose condition raises an error ends the statement. *)
Fixpoint select_where {A} (condition : A -> option bool) (rows : list A)
    : option (list A) :=
  match rows with
  | [] => Some []
  | row :: rest =>
      match condition row with
      | None => None
      | Some holds =>
          match select_where condition rest with
          | None => None
          | Some selected => Some (if holds then row :: selected else selected)
          end
      end
  end.

(** [SELECT * FROM posts WHERE published = 1 AND (title LIKE ? OR content
    LIKE ? OR excerpt LIKE ?) ORDER BY created_at DESC] *)
Definition select_posts_like (t1 t2 t3 : string) : M (list Post) :=
  d <- get_db ;;
  match select_where (search_matches t1 t2 t3) (posts d) with
  | Some rows => ret (order_by_created_at_desc rows)
  | None => throw (SqliteError SQLITE_ERROR)
  end.

(** *** The joins

    Neither join has an [ORDER BY]: the engine scans the junction table by
    its primary-key index [(post_id, category_id)], resp.
    [(post_id, tag_id)], so the rows of one post come in ascending bytewise
    order of the second column, and looks each category, resp. tag, up by
    its identifier. *)
Definition by_second (a b : string * string) : Prop :=
  String.leb (snd a) (snd b) = true.

#[global] Instance by_second_dec : RelDecision by_second.
Proof. intros a b. unfold by_second. apply _. Defined.

Definition index_scan (post_id : string) (rows : list (string * string))
    : list (string * string) :=
  merge_sort by_second (List.filter (fun r => fst r =? post_id) rows).

(** [SELECT c.* FROM categories c INNER JOIN post_categories pc
    ON c.id = pc.category_id WHERE pc.post_id = ?] *)
Definition select_categories_of_post (post_id : string) (d : Db)
    : list Category :=
  flat_map (fun pc => List.filter (fun c => c_id c =? snd pc) (categories d))
    (index_scan post_id (post_categories d)).

(** [SELECT t.* FROM tags t INNER JOIN post_tags pt ON t.id = pt.tag_id
    WHERE pt.post_id = ?] *)
Definition select_tags_of_post (post_id : string) (d : Db) : list Tag :=
  flat_map (fun pt => List.filter (fun t => t_id t =? snd pt) (tags d))
    (index_scan post_id (post_tags d)).

(** [DELETE FROM categories WHERE id = ?], with the cascade to the junction
    rows of the category. *)
Definition delete_categories (id : string) : M unit :=
  modify_db (fun d =>
    mkDb (users d) (posts d)
         (List.filter (fun c => negb (c_id c =? id)) (categories d))
         (tags d)
         (List.filter (fun pc => negb (snd pc =? id)) (post_categories d))
         (post_tags d)).

(** [DELETE FROM tags WHERE id = ?], with the cascade to the junction rows
    of the tag. *)
Definition delete_tags (id : string) : M unit :=
  modify_db (fun d =>
    mkDb (users d) (posts d) (categories d)
         (List.filter (fun t => negb (t_id t =? id)) (tags d))
         (post_categories d)
         (List.filter (fun pt => negb (snd pt =? id)) (post_tags d))).

(** [ORDER BY name]: text compared bytewise, so capitals sort first. *)
Definition category_name_asc (a b : Category) : Prop :=
  String.leb (c_name a) (c_name b) = true.

#[global] Instance category_name_asc_dec : RelDecision category_name_asc.
Proof. intros a b. unfold category_name_asc. apply _. Defined.

Definition tag_name_asc (a b : Tag) : Prop :=
  String.leb (t_name a) (t_name b) = true.

#[global] Instance tag_name_asc_dec : RelDecision tag_name_asc.
Proof. intros a b. unfold tag_name_asc. apply _. Defined.

(** ** The services ([src/lib/db-service.ts]) *)

Module userService.

Definition findById (id : string) : M (option User) :=
  d <- get_db ;; ret (List.find (fun u => u_id u =? id) (users d)).

Definition findByEmail (email : string) : M (option User) :=
  d <- get_db ;; ret (List.find (fun u => u_email u =? email) (users d)).

Definition create (email name password : string) : M (option User) :=
  id <- uuidv4 ;;
  insert_user id email (Some name) password ;;;
  findById id.

End userService.

Module categoryService.

Definition findById (id : string) : M (option Category) :=
  d <- get_db ;; ret (List.find (fun c => c_id c =? id) (categories d)).

Definition findBySlug (slug : string) : M (option Category) :=
  d <- get_db ;; ret (List.find (fun c => c_slug c =? slug) (categories d)).

Definition findByPostId (postId : string) : M (list Category) :=
  d <- get_db ;; ret (select_categories_of_post postId d).

Definition create (name : string) (description color : option string)
    : M (option Category) :=
  id <- uuidv4 ;;
  let slug := generateSlug name in
  insert_category id name slug (or_null description) (or_null color) ;;;
  findById id.

Definition findAll : M (list Category) :=
  d <- get_db ;; ret (merge_sort category_name_asc (categories d)).

Definition delete (id : string) : M unit := delete_categories id.

End categoryService.

Module tagService.

Definition findById (id : string) : M (option Tag) :=
  d <- get_db ;; ret (List.find (fun t => t_id t =? id) (tags d)).

Definition findBySlug (slug : string) : M (option Tag) :=
  d <- get_db ;; ret (List.find (fun t => t_slug t =? slug) (tags d)).

Definition findByPostId (postId : string) : M (list Tag) :=
  d <- get_db ;; ret (select_tags_of_post postId d).

Definition create (name : string) : M (option Tag) :=
  id <- uuidv4 ;;
  let slug := generateSlug name in
  insert_tag id name slug ;;;
  findById id.

Definition findAll : M (list Tag) :=
  d <- get_db ;; ret (merge_sort tag_name_asc (tags d)).

Definition delete (id : string) : M unit := delete_tags id.

End tagService.

Module postService.

(** [{...post, categories: ..., tags: ..., author: ...}] *)
Definition with_relations (p : Post) : M PostWithRelations :=
  cats <- categoryService.findByPostId (p_id p) ;;
  tgs <- tagService.findByPostId (p_id p) ;;
  author <- userService.findById (p_author_id p) ;;
  ret (mkPostWithRelations p cats tgs author).

Fixpoint map_with_relations (ps : list Post) : M (list PostWithRelations) :=
  match ps with
  | [] => ret []
  | p :: rest =>
      r <- with_relations p ;;
      rs <- map_with_relations rest ;;
      ret (r :: rs)
  end.

Definition findById (id : string) : M (option PostWithRelations) :=
  d <- get_db ;;
  match select_post_by_id id d with
  | None => ret None
  | Some p => r <- with_relations p ;; ret (Some r)
  end.

Definition findBySlug (slug : string) : M (option PostWithRelations) :=
  d <- get_db ;;
  match List.find (fun p => p_slug p =? slug) (posts d) with
  | None => ret None
  | Some p => r <- with_relations p ;; ret (Some r)
  end.

(** [create]: the row is inserted first, then one junction row per supplied
    category and tag, each in a statement of its own. *)
Definition create (input : CreatePostInput) : M (option PostWithRelations) :=
  id <- uuidv4 ;;
  let readingTime :=
    if truthy_num (in_reading_time input)
    then default NaN (in_reading_time input)
    else integer (calculateReadingTime (in_content input)) in
  let published := flag (in_published input) in
  let featured := flag (in_featured input) in
  publishedAt <-
    (if (published =? 1)%Z
     then now <- new_Date_toISOString ;; ret (Some now)
     else ret None) ;;
  insert_post id (in_title input) (in_slug input) (in_content input)
    (or_null (in_excerpt input)) (or_null (in_cover_image input))
    published featured readingTime (in_author_id input) publishedAt ;;;
  (match in_categories input with
   | Some (c :: cs) =>
       for_of (c :: cs) (fun categoryId => insert_post_category id categoryId)
   | _ => ret tt
   end) ;;;
  (match in_tags input with
   | Some (t :: ts) =>
       for_of (t :: ts) (fun tagId => insert_post_tag id tagId)
   | _ => ret tt
   end) ;;;
  findById id.

(** The [updates]/[values] arrays built from the fields that are not
    [undefined]; [published_at] and [updated_at] are the two clock
    readings the call makes. *)
Definition set_list (input : UpdatePostInput) (published_at updated_at : string)
    : list Assignment :=
  (match up_title input with Some v => [Set_title v] | None => [] end) ++
  (match up_slug input with Some v => [Set_slug v] | None => [] end) ++
  (match up_content input with
   | Some v =>
       [Set_content v; Set_reading_time (integer (calculateReadingTime v))]
   | None => []
   end) ++
  (match up_excerpt input with Some v => [Set_excerpt v] | None => [] end) ++
  (match up_cover_image input with
   | Some v => [Set_cover_image v]
   | None => []
   end) ++
  (match up_published input with
   | Some true => [Set_published 1; Set_published_at published_at]
   | Some false => [Set_published 0]
   | None => []
   end) ++
  (match up_featured input with
   | Some b => [Set_featured (if b then 1 else 0)]
   | None => []
   end) ++
  [Set_updated_at updated_at].

(** "Update categories if provided" *)
Definition update_categories (input : UpdatePostInput) : M unit :=
  match up_categories input with
  | Some cs =>
      delete_post_categories (up_id input) ;;;
      match cs with
      | _ :: _ =>
          for_of cs (fun categoryId =>
            insert_post_category (up_id input) categoryId)
      | [] => ret tt
      end
  | None => ret tt
  end.

(** "Update tags if provided" *)
Definition update_tags (input : UpdatePostInput) : M unit :=
  match up_tags input with
  | Some ts =>
      delete_post_tags (up_id input) ;;;
      match ts with
      | _ :: _ =>
          for_of ts (fun tagId => insert_post_tag (up_id input) tagId)
      | [] => ret tt
      end
  | None => ret tt
  end.

(** The clock readings of one call: one for [published_at] when
    [published] is [true], then one for [updated_at]. *)
Definition read_clock (input : UpdatePostInput) : M (string * string) :=
  published_at <-
    (match up_published input with
     | Some true => new_Date_toISOString
     | _ => ret ""
     end) ;;
  updated_at <- new_Date_toISOString ;;
  ret (published_at, updated_at).

(** [update]: the [SET] list is built from the supplied fields, with the
    clock read where the source reads it; the [UPDATE] runs; then the two
    association blocks; the result is [findById(input.id)]. *)
Definition update (input : UpdatePostInput) : M (option PostWithRelations) :=
  stamps <- read_clock input ;;
  update_posts (set_list input (fst stamps) (snd stamps)) (up_id input) ;;;
  update_categories input ;;;
  update_tags input ;;;
  findById (up_id input).

Record FindAllOptions := mkFindAllOptions {
  opt_published : option bool;
  opt_featured : option bool;
  opt_limit : option Number;
  opt_offset : option Number }.

(** [options?.field]: an absent [options] has every field absent. *)
Definition field {A} (options : option FindAllOptions)
    (f : FindAllOptions -> option A) : option A :=
  match options with
  | Some o => f o
  | None => None
  end.

(** The query text and parameters of [findAll]: a limit or offset of [0],
    like an absent one, appends nothing. *)
Definition build_query (options : option FindAllOptions) : list Fragment :=
  (match field options opt_published with
   | Some b => [AND_published_eq (if b then 1 else 0)]
   | None => []
   end) ++
  (match field options opt_featured with
   | Some b => [AND_featured_eq (if b then 1 else 0)]
   | None => []
   end) ++
  [ORDER_BY_created_at_DESC] ++
  (if truthy_num (field options opt_limit)
   then [LIMIT (default NaN (field options opt_limit))]
   else []) ++
  (if truthy_num (field options opt_offset)
   then [OFFSET (default NaN (field options opt_offset))]
   else []).

Definition findAll (options : option FindAllOptions)
    : M (list PostWithRelations) :=
  rows <- select_posts (build_query options) ;;
  map_with_relations rows.

Definition search (query : string) : M (list PostWithRelations) :=
  let searchTerm := ("%" ++ query ++ "%")%string in
  rows <- select_posts_like searchTerm searchTerm searchTerm ;;
  map_with_relations rows.

Definition delete (id : string) : M unit := delete_posts id.

Definition incrementViews (id : string) : M unit := increment_views id.

End postService.

(** ** The HTTP handlers ([src/app/api/categories/route.ts] and the tags
    route) *)

Inductive Json :=
  | Json_category (category : option Category)
  | Json_tag (tag : option Tag)
  | Json_error (error : string).

Record Response := mkResponse {
  body : Json;
  status : Z }.

Module categories_route.

Record Body := mkBody {
  name : option string;
  description : option string;
  color : option string }.

Definition on_error (error : Exn) : Response :=
  mkResponse (Json_error "Failed to create category") 500.

Definition POST (request : Body) : M Response :=
  try_catch
    (match or_null (name request) with
     | None => ret (mkResponse (Json_error "Name is required") 400)
     | Some name =>
         category <- categoryService.create name (description request)
                       (color request) ;;
         ret (mkResponse (Json_category category) 201)
     end)
    (fun error => ret (on_error error)).

End categories_route.

Module tags_route.

Definition on_error (error : Exn) : Response :=
  mkResponse (Json_error "Failed to create tag") 500.

Definition POST (name : option string) : M Response :=
  try_catch
    (match or_null name with
     | None => ret (mkResponse (Json_error "Name is required") 400)
     | Some name =>
         tag <- tagService.create name ;;
         ret (mkResponse (Json_tag tag) 201)
     end)
    (fun error => ret (on_error error)).

End tags_route.

(** ** The post handlers ([src/app/api/posts/[slug]/route.ts] and
    [src/app/api/posts/route.ts])

    A reply records the value and the status handed to [NextResponse.json].
    [NextResponse.json(undefined)] answers nothing: [undefined] has no JSON
    text and the call throws a [TypeError], inside the handler's [try]. *)

Inductive Payload :=
  | Payload_post (p : option PostWithRelations)
  | Payload_posts (ps : list PostWithRelations)
  | Payload_message (message : string)
  | Payload_error (error : string).

Record Reply := mkReply {
  payload : Payload;
  code : Z }.

(** The JSON body of a [PUT]: any field may be absent, an [id] included. *)
Record UpdateBody := mkUpdateBody {
  body_id : option string;
  body_title : option string;
  body_slug : option string;
  body_content : option string;
  body_excerpt : option string;
  body_cover_image : option string;
  body_published : option bool;
  body_featured : option bool;
  body_reading_time : option Number;
  body_author_id : option string;
  body_categories : option (list string);
  body_tags : option (list string) }.

(** [{ id: post.id, ...body }]: a field of the body replaces the one written
    before the spread, so an [id] in the body replaces [post.id]. *)
Definition spread (post_id : string) (b : UpdateBody) : UpdatePostInput :=
  mkUpdatePostInput (default post_id (body_id b)) (body_title b) (body_slug b)
    (body_content b) (body_excerpt b) (body_cover_image b) (body_published b)
    (body_featured b) (body_reading_time b) (body_author_id b)
    (body_categories b) (body_tags b).

Module post_route.

Definition GET (slug : string) : M Reply :=
  try_catch
    (found <- postService.findBySlug slug ;;
     match found with
     | None => ret (mkReply (Payload_error "Post not found") 404)
     | Some p =>
         postService.incrementViews (p_id (post p)) ;;;
         ret (mkReply (Payload_post (Some p)) 200)
     end)
    (fun error => ret (mkReply (Payload_error "Failed to fetch post") 500)).

Definition PUT (slug : string) (request : UpdateBody) : M Reply :=
  try_catch
    (found <- postService.findBySlug slug ;;
     match found with
     | None => ret (mkReply (Payload_error "Post not found") 404)
     | Some p =>
         updatedPost <- postService.update (spread (p_id (post p)) request) ;;
         match updatedPost with
         | Some _ => ret (mkReply (Payload_post updatedPost) 200)
         | None => throw TypeError
         end
     end)
    (fun error => ret (mkReply (Payload_error "Failed to update post") 500)).

Definition DELETE (slug : string) : M Reply :=
  try_catch
    (found <- postService.findBySlug slug ;;
     match found with
     | None => ret (mkReply (Payload_error "Post not found") 404)
     | Some p =>
         postService.delete (p_id (post p)) ;;;
         ret (mkReply (Payload_message "Post deleted successfully") 200)
     end)
    (fun error => ret (mkReply (Payload_error "Failed to delete post") 500)).

End post_route.

Module posts_route.

(** The query parameters, each [null] when absent from the URL. *)
Record Params := mkParams {
  published : option string;
  featured : option string;
  search : option string;
  limit : option string;
  offset : option string }.

(** [v === 'true' ? true : v === 'false' ? false : undefined] *)
Definition flag_param (v : option string) : option bool :=
  match v with
  | Some "true" => Some true
  | Some "false" => Some false
  | _ => None
  end.

(** [v ? parseInt(v) : undefined]; [parseInt] is the JavaScript built-in,
    which gives a number with an integer value, an infinity for a digit
    string beyond the doubles, or [NaN]. *)
Definition number_param (parseInt : string -> Number) (v : option string)
    : option Number :=
  match or_null v with
  | Some text => Some (parseInt text)
  | None => None
  end.

Definition GET (parseInt : string -> Number) (params : Params) : M Reply :=
  try_catch
    (posts <-
       (match or_null (search params) with
        | Some query => postService.search query
        | None =>
            postService.findAll
              (Some (postService.mkFindAllOptions
                       (flag_param (published params))
                       (flag_param (featured params))
                       (number_param parseInt (limit params))
                       (number_param parseInt (offset params))))
        end) ;;
     ret (mkReply (Payload_posts posts) 200))
    (fun error => ret (mkReply (Payload_error "Failed to fetch posts") 500)).

End posts_route.

(** ** A small database to run the services on *)

Module Sample.

Definition alice : User :=
  mkUser "u1" "alice@example.com" (Some "Alice") "hash" "admin"
         "2024-01-01 09:00:00" "2024-01-01 09:00:00".

Definition tech : Category :=
  mkCategory "c1" "Tech" "tech" None None
             "2024-01-01 09:00:00" "2024-01-01 09:00:00".

Definition life : Category :=
  mkCategory "c2" "Life" "life" None None
             "2024-01-01 09:00:00" "2024-01-01 09:00:00".

Definition rocq : Tag :=
  mkTag "t1" "rocq" "rocq" "2024-01-01 09:00:00" "2024-01-01 09:00:00".

Definition hello : Post :=
  mkPost "p1" "Hello World" "hello-world" "word word word" None None
         1 0 (integer 1) 0 "2024-01-02 10:00:00" "2024-01-02 10:00:00"
         (Some "2024-01-02T10:00:00.000Z") "u1".

Definition draft : Post :=
  mkPost "p2" "What comes Next" "next-steps" "notes" (Some "a plan") None
         0 0 (integer 1) 0 "2024-01-03 10:00:00" "2024-01-03 10:00:00" None "u1".

Definition tables : Db :=
  mkDb [alice] [hello; draft] [tech; life] [rocq]
       [("p1", "c1")] [("p1", "t1")].

Definition world : World :=
  mkWorld tables
    (fun n => match n with
              | O => "fresh-1"
              | _ => "fresh-2"
              end)
    0
    (fun n => match n with
              | O => "2024-06-01T12:00:00.000Z"
              | _ => "2024-06-01T12:00:00.001Z"
              end)
    (fun _ => "2024-06-01 12:00:00")
    0.

End Sample.

(** ** Notions used in the statements *)

(** A service call leaves a part of the tables as it was, whether it
    returns or throws. *)
Definition keeps {X A} (view : Db -> X) (m : M A) : Prop :=
  forall w, view (db (snd (m w))) = view (db w).

(** The two clock readings of [postService.update] on [w]. *)
Definition publish_stamp (w : World) : string := date_now w (ticks w).

Definition update_stamp (input : UpdatePostInput) (w : World) : string :=
  match up_published input with
  | Some true => date_now w (S (ticks w))
  | _ => date_now w (ticks w)
  end.

Definition stamps (input : UpdatePostInput) (w : World) : string * string :=
  (match up_published input with
   | Some true => publish_stamp w
   | _ => ""
   end,
   update_stamp input w).

(** The row an accepted [UPDATE] of [postService.update] leaves in place of
    [old], column by column. *)
Definition updated_row (input : UpdatePostInput)
    (published_at updated_at : string) (old : Post) : Post :=
  mkPost (p_id old)
    (default (p_title old) (up_title input))
    (default (p_slug old) (up_slug input))
    (default (p_content old) (up_content input))
    (match up_excerpt input with Some v => Some v | None => p_excerpt old end)
    (match up_cover_image input with
     | Some v => Some v
     | None => p_cover_image old
     end)
    (match up_published input with
     | Some b => if b then 1 else 0
     | None => p_published old
     end)
    (match up_featured input with
     | Some b => if b then 1 else 0
     | None => p_featured old
     end)
    (match up_content input with
     | Some v => integer (calculateReadingTime v)
     | None => p_reading_time old
     end)
    (p_views old) (p_created_at old) updated_at
    (match up_published input with
     | Some true => Some published_at
     | _ => p_published_at old
     end)
    (p_author_id old).

(** The engine accepts the row [UPDATE] of [postService.update]: the slug
    the row ends with is held by no other post. *)
Definition update_accepted (input : UpdatePostInput) (old : Post) (d : Db)
    : bool :=
  negb (slug_taken (up_id input) (default (p_slug old) (up_slug input)) d).

(** The [posts] table after [postService.update input] on a world whose row
    for the post is [old]. *)
Definition posts_after_update (input : UpdatePostInput) (w : World)
    : list Post :=
  match select_post_by_id (up_id input) (db w) with
  | None => posts (db w)
  | Some old =>
      if update_accepted input old (db w)
      then map (fun o =>
                  if p_id o =? up_id input
                  then updated_row input (fst (stamps input w))
                         (snd (stamps input w)) o
                  else o) (posts (db w))
      else posts (db w)
  end.

(** The row of post [id] in the tables after a service call. *)
Definition row_after {A} (m : M A) (w : World) (id : string) : option Post :=
  select_post_by_id id (db (snd (m w))).

(** The category (resp. tag) identifiers associated with post [id]. *)
Definition categories_of (id : string) (d : Db) : list string :=
  map snd (List.filter (fun pc => fst pc =? id) (post_categories d)).

Definition tags_of (id : string) (d : Db) : list string :=
  map snd (List.filter (fun pt => fst pt =? id) (post_tags d)).

Fixpoint all_distinct (ids : list string) : bool :=
  match ids with
  | [] => true
  | x :: rest => negb (existsb (String.eqb x) rest) && all_distinct rest
  end.

(** The engine accepts the inserts of an association array: every
    identifier references a stored row and none occurs twice.  An absent
    array causes no insert. *)
Definition insertable (known : string -> bool) (ids : option (list string))
    : bool :=
  match ids with
  | Some l => forallb known l && all_distinct l
  | None => true
  end.

(** The association claim on one call: afterwards the post's stored
    category (resp. tag) identifiers are those of the supplied array. *)
Definition replaces_associations (input : UpdatePostInput) (w : World)
    : Prop :=
  let w' := snd (postService.update input w) in
  (forall cs, up_categories input = Some cs ->
     forall c, In c (categories_of (up_id input) (db w')) <-> In c cs) /\
  (forall ts, up_tags input = Some ts ->
     forall t, In t (tags_of (up_id input) (db w')) <-> In t ts).

(** The call returns the post, the post's association rows are the supplied
    arrays in order, and no other post's associations change. *)
Definition associations_replaced (input : UpdatePostInput) (w : World)
    : Prop :=
  exists r w',
    postService.update input w = (Returned (Some r), w') /\
    (forall cs, up_categories input = Some cs ->
       categories_of (up_id input) (db w') = cs) /\
    (up_categories input = Some [] ->
       categories_of (up_id input) (db w') = []) /\
    (forall ts, up_tags input = Some ts ->
       tags_of (up_id input) (db w') = ts) /\
    (up_tags input = Some [] -> tags_of (up_id input) (db w') = []) /\
    (forall other, other <> up_id input ->
       categories_of other (db w') = categories_of other (db w) /\
       tags_of other (db w') = tags_of other (db w)).

Module Inputs.

(** [{id: "p1", categories: ["c2", "c1"], tags: []}] *)
Definition recategorise : UpdatePostInput :=
  mkUpdatePostInput "p1" None None None None None None None None None
    (Some ["c2"; "c1"]) (Some []).

(** [{id: "p1", categories: ["c2", "c2", "c1"]}] *)
Definition repeated : UpdatePostInput :=
  mkUpdatePostInput "p1" None None None None None None None None None
    (Some ["c2"; "c2"; "c1"]) None.

(** [{id: "p1", categories: ["c9"]}]: no category has the id ["c9"] *)
Definition dangling : UpdatePostInput :=
  mkUpdatePostInput "p1" None None None None None None None None None
    (Some ["c9"]) None.

(** [{id: "p1", slug: "next-steps", categories: []}], the slug of ["p2"] *)
Definition reslug_uncategorise : UpdatePostInput :=
  mkUpdatePostInput "p1" None (Some "next-steps") None None None None None
    None None (Some []) None.

(** [{id: "p1", published: true}] *)
Definition republish : UpdatePostInput :=
  mkUpdatePostInput "p1" None None None None None (Some true) None None None
    None None.

(** [{id: "p1", slug: "next-steps"}], the slug of post ["p2"] *)
Definition reslug : UpdatePostInput :=
  mkUpdatePostInput "p1" None (Some "next-steps") None None None None None
    None None None None.

(** [{id: "p1", title: "Hello again"}] *)
Definition retitle : UpdatePostInput :=
  mkUpdatePostInput "p1" (Some "Hello again") None None None None None None
    None None None None.

(** [{id: "missing", categories: ["c1"]}]: no post has this id *)
Definition orphan : UpdatePostInput :=
  mkUpdatePostInput "missing" None None None None None None None None None
    (Some ["c1"]) None.

(** [findAll({offset: 1})] *)
Definition offset_only : option postService.FindAllOptions :=
  Some (postService.mkFindAllOptions None None None (Some (integer 1))).

(** [findAll({published: true, limit: 1, offset: 1})] *)
Definition second_page : option postService.FindAllOptions :=
  Some (postService.mkFindAllOptions (Some true) None (Some (integer 1))
          (Some (integer 1))).

(** [create({title: "Third", slug: "third", content: "one two",
    reading_time: -5, author_id: "u1"})] *)
Definition negative_estimate : CreatePostInput :=
  mkCreatePostInput "Third" "third" "one two" None None None None
    (Some (integer (-5)))
    "u1" None None.

(** [{id: "p1", content: "one two three"}] *)
Definition rewrite_content : UpdatePostInput :=
  mkUpdatePostInput "p1" None None (Some "one two three") None None None None
    None None None None.

End Inputs.

(** An update input with every optional field absent. *)
Definition no_fields (id : string) : UpdatePostInput :=
  mkUpdatePostInput id None None None None None None None None None None None.

(** The publish rule as the specification words it, on one call: the stamp
    is set on the transition to published, and kept both when an already
    published post is published again and when the field is absent. *)
Definition stamps_only_on_transition (input : UpdatePostInput) (w : World)
    : Prop :=
  forall old new,
    select_post_by_id (up_id input) (db w) = Some old ->
    row_after (postService.update input) w (up_id input) = Some new ->
    (p_published old <> 1 -> up_published input = Some true ->
       update_accepted input old (db w) = true ->
       p_published_at new = Some (publish_stamp w)) /\
    (p_published old = 1 -> up_published input = Some true ->
       p_published_at new = p_published_at old) /\
    (up_published input = None -> p_published_at new = p_published_at old).

(** The publish rule of the code: an update that supplies
    [published = true] and whose row [UPDATE] is accepted stamps the clock
    reading, whatever the row held and whatever the statements after the
    [UPDATE] do; any other call keeps the stored stamp. *)
Definition publish_rule (input : UpdatePostInput) (w : World) (old : Post)
    : Prop :=
  exists new,
    row_after (postService.update input) w (up_id input) = Some new /\
    (up_published input = Some true ->
       update_accepted input old (db w) = true ->
       p_published_at new = Some (publish_stamp w)) /\
    (up_published input = Some true ->
       update_accepted input old (db w) = false ->
       p_published_at new = p_published_at old) /\
    (up_published input <> Some true ->
       p_published_at new = p_published_at old).

(** Every column whose input field is absent, and every column that has no
    input field other than [updated_at], holds what it held. *)
Definition keeps_absent_columns (input : UpdatePostInput) (old new : Post)
    : Prop :=
  (up_title input = None -> p_title new = p_title old) /\
  (up_slug input = None -> p_slug new = p_slug old) /\
  (up_content input = None ->
     p_content new = p_content old /\
     p_reading_time new = p_reading_time old) /\
  (up_excerpt input = None -> p_excerpt new = p_excerpt old) /\
  (up_cover_image input = None -> p_cover_image new = p_cover_image old) /\
  (up_published input = None ->
     p_published new = p_published old /\
     p_published_at new = p_published_at old) /\
  (up_featured input = None -> p_featured new = p_featured old) /\
  p_id new = p_id old /\
  p_views new = p_views old /\
  p_created_at new = p_created_at old /\
  p_author_id new = p_author_id old.

Definition keeps_absent_associations (input : UpdatePostInput) (w : World)
    : Prop :=
  let w' := snd (postService.update input w) in
  (up_categories input = None ->
     post_categories (db w') = post_categories (db w)) /\
  (up_tags input = None -> post_tags (db w') = post_tags (db w)).

(** The frame claim on one call, [updated_at] being a stored column that no
    input field names. *)
Definition frame_as_claimed (input : UpdatePostInput) (w : World) : Prop :=
  forall old new,
    select_post_by_id (up_id input) (db w) = Some old ->
    row_after (postService.update input) w (up_id input) = Some new ->
    keeps_absent_columns input old new /\
    p_updated_at new = p_updated_at old /\
    keeps_absent_associations input w.

Definition update_frame (input : UpdatePostInput) (w : World) (old : Post)
    : Prop :=
  exists new,
    row_after (postService.update input) w (up_id input) = Some new /\
    keeps_absent_columns input old new /\
    keeps_absent_associations input w.

(** The [updated_at] claim on one call. *)
Definition sets_updated_at (input : UpdatePostInput) (w : World) : Prop :=
  forall old,
    select_post_by_id (up_id input) (db w) = Some old ->
    exists new,
      row_after (postService.update input) w (up_id input) = Some new /\
      p_updated_at new = update_stamp input w.

(** The stored row carries the call's clock reading in [updated_at]; with no
    field supplied that is the row's only change, and it is a change
    whenever the reading differs from the stored value. *)
Definition updated_at_set (input : UpdatePostInput) (w : World) (old : Post)
    : Prop :=
  exists new,
    row_after (postService.update input) w (up_id input) = Some new /\
    p_updated_at new = update_stamp input w /\
    (input = no_fields (up_id input) ->
       new = assign old (Set_updated_at (date_now w (ticks w)))) /\
    (update_stamp input w <> p_updated_at old -> new <> old).




(** [needle] is a prefix of [text], character by character, up to the case
    of the letters A-Z. *)
Fixpoint ci_prefix (needle text : list N) : bool :=
  match needle with
  | [] => true
  | c :: needle' =>
      match text with
      | [] => false
      | d :: text' => same_character c d && ci_prefix needle' text'
      end
  end.

(** The characters of [needle] occur in [text] one after the other, up to
    the case of the letters A-Z. *)
Fixpoint ci_contains (needle text : list N) : bool :=
  ci_prefix needle text ||
  match text with
  | [] => false
  | _ :: text' => ci_contains needle text'
  end.

(** [text], read up to its first NUL character, contains the query as a
    case-insensitive substring. *)
Definition contains (query text : string) : bool :=
  ci_contains (utf8_chars None query) (characters text).

(** The post is published and its title, content or excerpt contains the
    query. *)
Definition mentions (query : string) (p : Post) : bool :=
  (p_published p =? 1)%Z &&
  (contains query (p_title p) || contains query (p_content p)
   || match p_excerpt p with
      | Some e => contains query e
      | None => false
      end).


(** The query holds no NUL character. *)
Fixpoint nul_free (query : string) : bool :=
  match query with
  | EmptyString => true
  | String c rest => negb (Ascii.eqb c "000") && nul_free rest
  end.

(** The pattern [%query%] stays within the 50000 bytes the engine accepts:
    the query has at most 49998 bytes. *)
Definition within_pattern_limit (query : string) : bool :=
  (N.of_nat (String.length query) <=? 49998)%N.


(** The rows the search condition selects when the engine accepts the
    pattern. *)
Definition selected_by (pattern : string) (p : Post) : bool :=
  (p_published p =? 1)%Z &&
  (like pattern (p_title p) || like pattern (p_content p)
   || match p_excerpt p with
      | Some e => like pattern e
      | None => false
      end).

(** The rows of the posts a service call returned. *)
Definition found (result : Outcome (list PostWithRelations) * World)
    : list Post :=
  match fst result with
  | Returned rs => map post rs
  | Thrown _ => []
  end.



(** A create of a user, category, tag or post. *)
Inductive CreateRequest :=
  | Create_user (email name password : string)
  | Create_category (name : string) (description color : option string)
  | Create_tag (name : string)
  | Create_post (input : CreatePostInput).

(** The service call that serves the request, its result dropped. *)
Definition serve (r : CreateRequest) : M unit :=
  match r with
  | Create_user email name password =>
      userService.create email name password ;;; ret tt
  | Create_category name description color =>
      categoryService.create name description color ;;; ret tt
  | Create_tag name => tagService.create name ;;; ret tt
  | Create_post input => postService.create input ;;; ret tt
  end.

(** The request repeats a stored email, name or slug. *)
Definition violates_unique (r : CreateRequest) (d : Db) : bool :=
  match r with
  | Create_user email _ _ => existsb (fun u => u_email u =? email) (users d)
  | Create_category name _ _ =>
      existsb (fun c => (c_name c =? name) || (c_slug c =? generateSlug name))
              (categories d)
  | Create_tag name =>
      existsb (fun t => (t_name t =? name) || (t_slug t =? generateSlug name))
              (tags d)
  | Create_post input => existsb (fun p => p_slug p =? in_slug input) (posts d)
  end.

(** The identifier [uuidv4()] hands out next is not in use. *)
Definition fresh_id (r : CreateRequest) (w : World) : bool :=
  let id := uuid_source w (draws w) in
  match r with
  | Create_user _ _ _ => negb (has_user id (db w))
  | Create_category _ _ _ => negb (has_category id (db w))
  | Create_tag _ => negb (has_tag id (db w))
  | Create_post _ => negb (has_post id (db w))
  end.

(** The HTTP handler that serves the request, for the routes among the
    sources. *)
Definition handler (r : CreateRequest) : option (M Response) :=
  match r with
  | Create_category name description color =>
      Some (categories_route.POST
              (categories_route.mkBody (Some name) description color))
  | Create_tag name => Some (tags_route.POST (Some name))
  | _ => None
  end.

(** The one response each route has for a failed create. *)
Definition generic_failure (r : CreateRequest) : Response :=
  match r with
  | Create_tag _ => mkResponse (Json_error "Failed to create tag") 500
  | _ => mkResponse (Json_error "Failed to create category") 500
  end.

Definition required_name (r : CreateRequest) : string :=
  match r with
  | Create_category name _ _ => name
  | Create_tag name => name
  | _ => "-"
  end.

Definition is_conflict (e : Exn) : bool :=
  match e with
  | SqliteError SQLITE_CONSTRAINT_UNIQUE => true
  | _ => false
  end.

(** The conflict claim at the boundary: the response to a uniqueness
    violation differs from the response to any other failure. *)
Definition distinguishes_conflict (on_error : Exn -> Response) : Prop :=
  forall e e', is_conflict e = true -> is_conflict e' = false ->
               on_error e <> on_error e'.

(** What a create that violates uniqueness does: the service throws the
    engine's constraint error and stores nothing, and the route answers as
    it answers every failure. *)
Definition conflict_outcome (r : CreateRequest) (w : World) : Prop :=
  fst (serve r w) = Thrown (SqliteError SQLITE_CONSTRAINT_UNIQUE) /\
  db (snd (serve r w)) = db w /\
  (forall route, handler r = Some route -> required_name r <> "" ->
     fst (route w) = Returned (generic_failure r) /\
     db (snd (route w)) = db w) /\
  (forall e, categories_route.on_error e =
             mkResponse (Json_error "Failed to create category") 500) /\
  (forall e, tags_route.on_error e =
             mkResponse (Json_error "Failed to create tag") 500).

(** A call of the post service that writes to the [posts] table. *)
Inductive PostCall :=
  | Call_create (input : CreatePostInput)
  | Call_update (input : UpdatePostInput)
  | Call_delete (id : string)
  | Call_incrementViews (id : string).

Definition invoke (call : PostCall) : M unit :=
  match call with
  | Call_create input => postService.create input ;;; ret tt
  | Call_update input => postService.update input ;;; ret tt
  | Call_delete id => postService.delete id
  | Call_incrementViews id => postService.incrementViews id
  end.

(** The number is a positive integer: [2.5], [-5], an infinity and [NaN]
    are not. *)
Definition positive_integer (n : Number) : bool :=
  match integer_value n with
  | Some z => (0 <? z)%Z
  | None => false
  end.

Definition reading_times_positive (d : Db) : Prop :=
  forall p, In p (posts d) -> positive_integer (p_reading_time p) = true.

(** The reading-time claim on one call: the stored reading times stay
    positive. *)
Definition reading_time_stays_positive (call : PostCall) (w : World) : Prop :=
  reading_times_positive (db w) ->
  reading_times_positive (db (snd (invoke call w))).

(** A reading time supplied to [create] is a positive integer or falsy
    ([0] or [NaN]). *)
Definition supplied_reading_time_ok (call : PostCall) : bool :=
  match call with
  | Call_create input =>
      match in_reading_time input with
      | Some n => negb (truthy_num (Some n)) || positive_integer n
      | None => true
      end
  | _ => true
  end.

(** What the call stores as reading time: [create] stores a supplied value
    that is truthy and the estimate of the content otherwise; an accepted
    [update] stores the estimate of the new content exactly when content is
    supplied; the other calls store none. *)
Definition reading_time_recomputed (call : PostCall) (w : World) : Prop :=
  match call with
  | Call_create input =>
      posts (db (snd (invoke call w))) = posts (db w) \/
      exists row,
        posts (db (snd (invoke call w))) = posts (db w) ++ [row] /\
        p_reading_time row =
          match in_reading_time input with
          | Some n => if truthy_num (Some n) then n
                      else integer (calculateReadingTime (in_content input))
          | None => integer (calculateReadingTime (in_content input))
          end
  | Call_update input =>
      forall old,
        select_post_by_id (up_id input) (db w) = Some old ->
        exists new,
          select_post_by_id (up_id input) (db (snd (invoke call w)))
            = Some new /\
          (update_accepted input old (db w) = true ->
           forall content, up_content input = Some content ->
             p_reading_time new = integer (calculateReadingTime content)) /\
          (up_content input = None ->
             p_reading_time new = p_reading_time old)
  | _ =>
      forall p', In p' (posts (db (snd (invoke call w)))) ->
        exists p, In p (posts (db w)) /\ p_reading_time p' = p_reading_time p
  end.

Definition reading_time_rule (call : PostCall) (w : World) : Prop :=
  (forall content, 0 < calculateReadingTime content) /\
  reading_times_positive (db (snd (invoke call w))) /\
  reading_time_recomputed call w.

(** The shape of a slug: lowercase alphanumerics and hyphens only, no two
    hyphens in a row, no hyphen first or last. *)
Definition is_slug_char (c : ascii) : bool := is_alnum c || Ascii.eqb c hyphen.

Definition leading_hyphen (s : list ascii) : bool :=
  match s with
  | c :: _ => Ascii.eqb c hyphen
  | [] => false
  end.

Definition trailing_hyphen (s : list ascii) : bool := leading_hyphen (rev s).

Fixpoint no_double_hyphen (s : list ascii) : bool :=
  match s with
  | c :: rest =>
      negb (Ascii.eqb c hyphen && leading_hyphen rest) && no_double_hyphen rest
  | [] => true
  end.

Definition slug_shaped (s : list ascii) : bool :=
  forallb is_slug_char s && no_double_hyphen s &&
  negb (leading_hyphen s) && negb (trailing_hyphen s).

Definition is_slug (text : string) : bool :=
  slug_shaped (list_ascii_of_string text).

(** The specification's words read as a definition of their own: the text
    is lower-cased and cut at every character that is not alphanumeric;
    the pieces that are not empty, its words, are joined by single
    hyphens. *)
Fixpoint pieces (s : list ascii) : list (list ascii) :=
  match s with
  | [] => [[]]
  | c :: rest =>
      if is_alnum c then
        match pieces rest with
        | piece :: others => (c :: piece) :: others
        | [] => [[c]]
        end
      else [] :: pieces rest
  end.

Definition is_word (piece : list ascii) : bool :=
  match piece with
  | [] => false
  | _ :: _ => true
  end.

Definition words (s : list ascii) : list (list ascii) :=
  List.filter is_word (pieces s).

Fixpoint join_hyphen (ws : list (list ascii)) : list ascii :=
  match ws with
  | [] => []
  | [w] => w
  | w :: rest => w ++ hyphen :: join_hyphen rest
  end.

Definition slug_of_words (text : string) : string :=
  string_of_list_ascii
    (join_hyphen (words (map lower (list_ascii_of_string text)))).

(** The update has a junction row to insert: its categories or its tags
    array is present and not empty. *)
Definition inserts_something (input : UpdatePostInput) : bool :=
  match up_categories input, up_tags input with
  | Some (_ :: _), _ => true
  | _, Some (_ :: _) => true
  | _, _ => false
  end.

(** ** The schema's constraints as an invariant of the tables *)

Fixpoint rows_distinct (rows : list (string * string)) : bool :=
  match rows with
  | [] => true
  | x :: rest => negb (existsb (pair_eqb x) rest) && rows_distinct rest
  end.

(** The constraints of [src/lib/db.ts] on stored rows: primary keys,
    [UNIQUE] columns and foreign keys. *)
Definition schema_holds (d : Db) : bool :=
  all_distinct (map u_id (users d)) &&
  all_distinct (map u_email (users d)) &&
  all_distinct (map p_id (posts d)) &&
  all_distinct (map p_slug (posts d)) &&
  forallb (fun p => has_user (p_author_id p) d) (posts d) &&
  all_distinct (map c_id (categories d)) &&
  all_distinct (map c_name (categories d)) &&
  all_distinct (map c_slug (categories d)) &&
  all_distinct (map t_id (tags d)) &&
  all_distinct (map t_name (tags d)) &&
  all_distinct (map t_slug (tags d)) &&
  rows_distinct (post_categories d) &&
  forallb (fun pc => has_post (fst pc) d && has_category (snd pc) d)
          (post_categories d) &&
  rows_distinct (post_tags d) &&
  forallb (fun pt => has_post (fst pt) d && has_tag (snd pt) d) (post_tags d).

(** The same constraints, as propositions. *)
Record Schema (d : Db) : Prop := mkSchema {
  user_ids : List.NoDup (map u_id (users d));
  user_emails : List.NoDup (map u_email (users d));
  post_ids : List.NoDup (map p_id (posts d));
  post_slugs : List.NoDup (map p_slug (posts d));
  post_authors : forall p, In p (posts d) -> In (p_author_id p) (map u_id (users d));
  category_ids : List.NoDup (map c_id (categories d));
  category_names : List.NoDup (map c_name (categories d));
  category_slugs : List.NoDup (map c_slug (categories d));
  tag_ids : List.NoDup (map t_id (tags d));
  tag_names : List.NoDup (map t_name (tags d));
  tag_slugs : List.NoDup (map t_slug (tags d));
  pc_rows : List.NoDup (post_categories d);
  pc_refs : forall pc, In pc (post_categories d) ->
              In (fst pc) (map p_id (posts d)) /\
              In (snd pc) (map c_id (categories d));
  pt_rows : List.NoDup (post_tags d);
  pt_refs : forall pt, In pt (post_tags d) ->
              In (fst pt) (map p_id (posts d)) /\
              In (snd pt) (map t_id (tags d)) }.

(** A call of a service that writes to the tables. *)
Inductive ServiceCall :=
  | On_user_create (email name password : string)
  | On_post (call : PostCall)
  | On_category_create (name : string) (description color : option string)
  | On_category_delete (id : string)
  | On_tag_create (name : string)
  | On_tag_delete (id : string).

Definition perform (call : ServiceCall) : M unit :=
  match call with
  | On_user_create email name password =>
      userService.create email name password ;;; ret tt
  | On_post c => invoke c
  | On_category_create name description color =>
      categoryService.create name description color ;;; ret tt
  | On_category_delete id => categoryService.delete id
  | On_tag_create name => tagService.create name ;;; ret tt
  | On_tag_delete id => tagService.delete id
  end.

(** A run of calls, one after the other; a call that throws does not stop
    the calls after it, as when each is made by a request of its own. *)
Fixpoint perform_all (calls : list ServiceCall) (w : World) : World :=
  match calls with
  | [] => w
  | call :: rest => perform_all rest (snd (perform call w))
  end.

(** A service call keeps a property of the tables, whether it returns or
    throws. *)
Definition maintains {A} (P : Db -> Prop) (m : M A) : Prop :=
  forall w, P (db w) -> P (db (snd (m w))).

(** ** Notions for the further properties *)

(** Identifiers in ascending bytewise order. *)
Definition ascending (ids : list string) : Prop :=
  StronglySorted (fun a b => String.leb a b = true) ids.

(** What a join returns for the junction rows [ids] of a post: the same
    identifiers, each as often, in the order of the primary-key index. *)
Definition in_index_order (ids joined : list string) : Prop :=
  joined ≡ₚ ids /\ ascending joined.

(** The engine accepts the row insert of [postService.create]: the fresh
    identifier and the slug are unused and the author is a stored user. *)
Definition create_accepted (input : CreatePostInput) (w : World) : bool :=
  negb (has_post (uuid_source w (draws w)) (db w)) &&
  negb (existsb (fun p => p_slug p =? in_slug input) (posts (db w))) &&
  has_user (in_author_id input) (db w).

(** The row [postService.create] inserts: the publish stamp is read before
    the insert, whose [CURRENT_TIMESTAMP] is the next reading. *)
Definition created_row (input : CreatePostInput) (w : World) : Post :=
  let now := current_timestamp w
               (match in_published input with
                | Some true => S (ticks w)
                | _ => ticks w
                end) in
  mkPost (uuid_source w (draws w)) (in_title input) (in_slug input)
    (in_content input) (or_null (in_excerpt input))
    (or_null (in_cover_image input)) (flag (in_published input))
    (flag (in_featured input))
    (match in_reading_time input with
     | Some n => if truthy_num (Some n) then n
                 else integer (calculateReadingTime (in_content input))
     | None => integer (calculateReadingTime (in_content input))
     end)
    0 now now
    (match in_published input with
     | Some true => Some (date_now w (ticks w))
     | _ => None
     end)
    (in_author_id input).

(** What an accepted [create] with insertable arrays gives: the resolved
    post of the inserted row, associated with the supplied identifiers,
    which it lists in the order of the index, and found again by
    [findById]. *)
Definition create_round_trip (input : CreatePostInput) (w : World) : Prop :=
  exists r w',
    postService.create input w = (Returned (Some r), w') /\
    post r = created_row input w /\
    posts (db w') = posts (db w) ++ [created_row input w] /\
    categories_of (p_id (post r)) (db w') = default [] (in_categories input) /\
    tags_of (p_id (post r)) (db w') = default [] (in_tags input) /\
    in_index_order (default [] (in_categories input))
      (map c_id (pr_categories r)) /\
    in_index_order (default [] (in_tags input)) (map t_id (pr_tags r)) /\
    option_map u_id (pr_author r) = Some (in_author_id input) /\
    postService.findById (p_id (post r)) w' = (Returned (Some r), w').

(** What an accepted [create] leaves when a junction insert fails: the
    call throws, and the post row is stored all the same. *)
Definition create_left_half_done (input : CreatePostInput) (w : World)
    : Prop :=
  (exists e, fst (postService.create input w) = Thrown e) /\
  posts (db (snd (postService.create input w)))
    = posts (db w) ++ [created_row input w] /\
  row_after (postService.create input) w (uuid_source w (draws w))
    = Some (created_row input w).

(** The slug an update supplies, if any, is the post's own or is held by no
    post. *)
Definition slug_unchanged_or_free (input : UpdatePostInput) (old : Post)
    (d : Db) : bool :=
  match up_slug input with
  | None => true
  | Some s =>
      (s =? p_slug old) || negb (existsb (fun p => p_slug p =? s) (posts d))
  end.

(** What an update gives on tables that satisfy the schema: the resolved
    post of the updated row, with the supplied associations, or the stored
    ones for an absent array. *)
Definition update_round_trip (input : UpdatePostInput) (w : World)
    (old : Post) : Prop :=
  exists r w',
    postService.update input w = (Returned (Some r), w') /\
    post r = updated_row input (fst (stamps input w)) (snd (stamps input w))
               old /\
    in_index_order
      (default (categories_of (up_id input) (db w)) (up_categories input))
      (map c_id (pr_categories r)) /\
    in_index_order
      (default (tags_of (up_id input) (db w)) (up_tags input))
      (map t_id (pr_tags r)) /\
    postService.findById (up_id input) w' = (Returned (Some r), w').

(** [n] calls of the same service call in a row. *)
Fixpoint times (n : nat) (m : M unit) : M unit :=
  match n with
  | O => ret tt
  | S n' => m ;;; times n' m
  end.

(** The row with [n] more views. *)
Definition viewed (n : nat) (p : Post) : Post :=
  mkPost (p_id p) (p_title p) (p_slug p) (p_content p) (p_excerpt p)
    (p_cover_image p) (p_published p) (p_featured p) (p_reading_time p)
    (p_views p + Z.of_nat n) (p_created_at p) (p_updated_at p)
    (p_published_at p) (p_author_id p).

Definition views_counted (n : nat) (id : string) (w : World) : Prop :=
  let w' := snd (times n (postService.incrementViews id) w) in
  fst (times n (postService.incrementViews id) w) = Returned tt /\
  posts (db w') =
    map (fun o => if p_id o =? id then viewed n o else o) (posts (db w)) /\
  users (db w') = users (db w) /\
  categories (db w') = categories (db w) /\
  tags (db w') = tags (db w) /\
  post_categories (db w') = post_categories (db w) /\
  post_tags (db w') = post_tags (db w).

(** What [postService.delete] leaves: no row and no association of the
    post, and every other row and association as it was. *)
Definition post_deleted (id : string) (w : World) : Prop :=
  let w' := snd (postService.delete id w) in
  fst (postService.delete id w) = Returned tt /\
  postService.findById id w' = (Returned None, w') /\
  categories_of id (db w') = [] /\
  tags_of id (db w') = [] /\
  (forall other, other <> id ->
     select_post_by_id other (db w') = select_post_by_id other (db w) /\
     categories_of other (db w') = categories_of other (db w) /\
     tags_of other (db w') = tags_of other (db w)) /\
  users (db w') = users (db w) /\
  categories (db w') = categories (db w) /\
  tags (db w') = tags (db w).

(** What [categoryService.delete] leaves: the category and its junction
    rows are gone; posts, tags and the other associations are as they
    were. *)
Definition category_deleted (id : string) (w : World) : Prop :=
  let w' := snd (categoryService.delete id w) in
  fst (categoryService.delete id w) = Returned tt /\
  categoryService.findById id w' = (Returned None, w') /\
  posts (db w') = posts (db w) /\
  users (db w') = users (db w) /\
  tags (db w') = tags (db w) /\
  post_tags (db w') = post_tags (db w) /\
  (forall c, c_id c <> id ->
     (In c (categories (db w')) <-> In c (categories (db w)))) /\
  (forall post_id,
     categories_of post_id (db w')
       = List.filter (fun c => negb (c =? id)) (categories_of post_id (db w))).

Definition tag_deleted (id : string) (w : World) : Prop :=
  let w' := snd (tagService.delete id w) in
  fst (tagService.delete id w) = Returned tt /\
  tagService.findById id w' = (Returned None, w') /\
  posts (db w') = posts (db w) /\
  users (db w') = users (db w) /\
  categories (db w') = categories (db w) /\
  post_categories (db w') = post_categories (db w) /\
  (forall t, t_id t <> id ->
     (In t (tags (db w')) <-> In t (tags (db w)))) /\
  (forall post_id,
     tags_of post_id (db w')
       = List.filter (fun t => negb (t =? id)) (tags_of post_id (db w))).

(** What [findById] resolves on tables that satisfy the schema: the post's
    categories and tags are those of its junction rows, each once, in
    ascending order of their identifiers, and its author is the stored
    user. *)
Definition resolved (r : PostWithRelations) (d : Db) : Prop :=
  select_post_by_id (p_id (post r)) d = Some (post r) /\
  in_index_order (categories_of (p_id (post r)) d)
    (map c_id (pr_categories r)) /\
  in_index_order (tags_of (p_id (post r)) d) (map t_id (pr_tags r)) /\
  (forall c, In c (pr_categories r) -> In c (categories d)) /\
  (forall t, In t (pr_tags r) -> In t (tags d)) /\
  (exists u, pr_author r = Some u /\ In u (users d) /\
             u_id u = p_author_id (post r)).


(** What [search] gives for a query within the pattern limit, wildcards
    included: it returns and changes nothing, no published post that
    mentions the query is missing, every row is a stored published post,
    and the newest comes first. *)
Definition search_covers (query : string) (w : World) : Prop :=
  (exists rs, postService.search query w = (Returned rs, w)) /\
  (forall p, In p (posts (db w)) -> mentions query p = true ->
             In p (found (postService.search query w))) /\
  (forall p, In p (found (postService.search query w)) ->
             In p (posts (db w)) /\ p_published p = 1) /\
  StronglySorted created_desc (found (postService.search query w)).

(** Some post is published. *)
Definition some_published (d : Db) : bool :=
  existsb (fun p => (p_published p =? 1)%Z) (posts d).

(** What [search] does with a longer query: it throws as soon as a
    published post makes the engine evaluate the [LIKE], and finds nothing
    when no post is published. *)
Definition search_refused (query : string) (w : World) : Prop :=
  postService.search query w =
    (if some_published (db w) then Thrown (SqliteError SQLITE_ERROR)
     else Returned [], w).

Definition search_outcome (query : string) (w : World) : Prop :=
  if within_pattern_limit query then search_covers query w
  else search_refused query w.





(** The reply of the three handlers of one post when no post holds the
    slug. *)
Definition not_found : Reply := mkReply (Payload_error "Post not found") 404.

(** What [GET /api/posts/[slug]] does: the reply carries the post as it was
    read, and the visit is counted on the stored row afterwards. *)
Definition visit_counted (slug : string) (w : World) : Prop :=
  match fst (postService.findBySlug slug w) with
  | Returned (Some p) =>
      fst (post_route.GET slug w)
        = Returned (mkReply (Payload_post (Some p)) 200) /\
      row_after (post_route.GET slug) w (p_id (post p))
        = Some (viewed 1 (post p)) /\
      (forall other, other <> p_id (post p) ->
         row_after (post_route.GET slug) w other
           = select_post_by_id other (db w))
  | _ => post_route.GET slug w = (Returned not_found, w)
  end.

(** The post and the associations stored under an identifier. *)
Definition stored_under (id : string) (d : Db)
    : option Post * list string * list string :=
  (select_post_by_id id d, categories_of id d, tags_of id d).

(** What [PUT /api/posts/[slug]] does with a body that names another post:
    the update goes to the post of the body, and the post of the URL stays
    as it was. *)
Definition put_redirected (slug : string) (request : UpdateBody)
    (other : string) (p : PostWithRelations) (w : World) : Prop :=
  let w' := snd (post_route.PUT slug request w) in
  db w' = db (snd (postService.update (spread other request) w)) /\
  up_id (spread (p_id (post p)) request) = other /\
  stored_under (p_id (post p)) (db w') = stored_under (p_id (post p)) (db w).

(** What [DELETE /api/posts/[slug]] does: the post and its associations are
    gone, and the slug answers [404] from then on. *)
Definition delete_then_gone (slug : string) (w : World) : Prop :=
  match fst (postService.findBySlug slug w) with
  | Returned (Some p) =>
      let w' := snd (post_route.DELETE slug w) in
      fst (post_route.DELETE slug w)
        = Returned (mkReply (Payload_message "Post deleted successfully") 200) /\
      stored_under (p_id (post p)) (db w') = (None, [], []) /\
      post_route.GET slug w' = (Returned not_found, w') /\
      post_route.PUT slug
        (mkUpdateBody None None None None None None None None None None None
           None) w' = (Returned not_found, w') /\
      post_route.DELETE slug w' = (Returned not_found, w')
  | _ => post_route.DELETE slug w = (Returned not_found, w)
  end.

(** The engine accepts the insert of [categoryService.create]: the fresh
    identifier is unused and no category holds the name or its slug. *)
Definition category_accepted (name : string) (w : World) : bool :=
  negb (has_category (uuid_source w (draws w)) (db w)) &&
  negb (existsb (fun c => (c_name c =? name) || (c_slug c =? generateSlug name))
          (categories (db w))).

(** The row [categoryService.create] stores: an empty description or colour
    is stored as [NULL]. *)
Definition new_category (name : string) (description color : option string)
    (w : World) : Category :=
  mkCategory (uuid_source w (draws w)) name (generateSlug name)
    (or_null description) (or_null color)
    (current_timestamp w (ticks w)) (current_timestamp w (ticks w)).

(** The three answers of [POST /api/categories]. *)
Definition category_post_outcome (request : categories_route.Body)
    (w : World) : Prop :=
  let w' := snd (categories_route.POST request w) in
  match or_null (categories_route.name request) with
  | None =>
      categories_route.POST request w
        = (Returned (mkResponse (Json_error "Name is required") 400), w)
  | Some name =>
      let c := new_category name (categories_route.description request)
                 (categories_route.color request) w in
      if category_accepted name w then
        fst (categories_route.POST request w)
          = Returned (mkResponse (Json_category (Some c)) 201) /\
        db w' = set_categories (categories (db w) ++ [c]) (db w) /\
        categoryService.findById (c_id c) w' = (Returned (Some c), w') /\
        categoryService.findBySlug (c_slug c) w' = (Returned (Some c), w')
      else
        fst (categories_route.POST request w)
          = Returned (mkResponse (Json_error "Failed to create category") 500)
        /\ db w' = db w
  end.

Definition tag_accepted (name : string) (w : World) : bool :=
  negb (has_tag (uuid_source w (draws w)) (db w)) &&
  negb (existsb (fun t => (t_name t =? name) || (t_slug t =? generateSlug name))
          (tags (db w))).

Definition new_tag (name : string) (w : World) : Tag :=
  mkTag (uuid_source w (draws w)) name (generateSlug name)
    (current_timestamp w (ticks w)) (current_timestamp w (ticks w)).

(** The three answers of [POST /api/tags]. *)
Definition tag_post_outcome (name : option string) (w : World) : Prop :=
  let w' := snd (tags_route.POST name w) in
  match or_null name with
  | None =>
      tags_route.POST name w
        = (Returned (mkResponse (Json_error "Name is required") 400), w)
  | Some name' =>
      let t := new_tag name' w in
      if tag_accepted name' w then
        fst (tags_route.POST name w)
          = Returned (mkResponse (Json_tag (Some t)) 201) /\
        db w' = set_tags (tags (db w) ++ [t]) (db w) /\
        tagService.findById (t_id t) w' = (Returned (Some t), w') /\
        tagService.findBySlug (t_slug t) w' = (Returned (Some t), w')
      else
        fst (tags_route.POST name w)
          = Returned (mkResponse (Json_error "Failed to create tag") 500)
        /\ db w' = db w
  end.

(** The engine accepts the insert of [userService.create]. *)
Definition user_accepted (email : string) (w : World) : bool :=
  negb (has_user (uuid_source w (draws w)) (db w)) &&
  negb (existsb (fun u => u_email u =? email) (users (db w))).

(** The row [userService.create] stores; the role is the column's
    default. *)
Definition new_user (email name password : string) (w : World) : User :=
  mkUser (uuid_source w (draws w)) email (Some name) password "admin"
    (current_timestamp w (ticks w)) (current_timestamp w (ticks w)).

(** What [userService.create] does: the user is stored and found by
    identifier and by email, or the call throws and stores nothing. *)
Definition user_create_outcome (email name password : string) (w : World)
    : Prop :=
  let w' := snd (userService.create email name password w) in
  let u := new_user email name password w in
  if user_accepted email w then
    fst (userService.create email name password w) = Returned (Some u) /\
    db w' = set_users (users (db w) ++ [u]) (db w) /\
    userService.findById (u_id u) w' = (Returned (Some u), w') /\
    userService.findByEmail email w' = (Returned (Some u), w')
  else
    (exists e, fst (userService.create email name password w) = Thrown e) /\
    db w' = db w.




(** What the two [findAll]s of the taxonomies give: every row of the table,
    each as often as it is stored, in ascending order of the names, with
    nothing changed. *)
Definition taxonomies_listed (w : World) : Prop :=
  (exists cs,
     categoryService.findAll w = (Returned cs, w) /\
     cs ≡ₚ categories (db w) /\
     StronglySorted category_name_asc cs) /\
  (exists ts,
     tagService.findAll w = (Returned ts, w) /\
     ts ≡ₚ tags (db w) /\
     StronglySorted tag_name_asc ts).

(** Inputs for the further properties, on the tables of [Sample]. *)
Module Cases.

(** [create({title: "Third", slug: "third", content: "one two", excerpt: "",
    published: true, author_id: "u1", categories: ["c2", "c1"],
    tags: ["t1"]})] *)
Definition categorised : CreatePostInput :=
  mkCreatePostInput "Third" "third" "one two" (Some "") None (Some true) None
    None "u1" (Some ["c2"; "c1"]) (Some ["t1"]).

(** The same post with the tag ["t9"], which no tag has. *)
Definition unknown_tag : CreatePostInput :=
  mkCreatePostInput "Third" "third" "one two" (Some "") None (Some true) None
    None "u1" (Some ["c2"; "c1"]) (Some ["t9"]).

(** [{id: "p2", title: "Next", slug: "next-steps", categories: ["c2", "c1"],
    tags: ["t1"]}]: the slug is the post's own. *)
Definition retag : UpdatePostInput :=
  mkUpdatePostInput "p2" (Some "Next") (Some "next-steps") None None None None
    None None None (Some ["c2"; "c1"]) (Some ["t1"]).

(** [{id: "p1", published: true, categories: ["c9"]}]: no category has the
    id ["c9"] *)
Definition publish_unknown : UpdatePostInput :=
  mkUpdatePostInput "p1" None None None None None (Some true) None None None
    (Some ["c9"]) None.

(** [create({title: "Third", slug: "third", content: "one two",
    reading_time: 2.5, author_id: "u1"})] *)
Definition fractional_estimate : CreatePostInput :=
  mkCreatePostInput "Third" "third" "one two" None None None None
    (Some (Ratio 5 2)) "u1" None None.

(** [findAll({limit: 1e19})] *)
Definition huge_limit : option postService.FindAllOptions :=
  Some (postService.mkFindAllOptions None None (Some (integer (10 ^ 19)))
          None).

(** The body [{id: "missing"}]: no post has this id *)
Definition stray : UpdateBody :=
  mkUpdateBody (Some "missing") None None None None None None None None None
    None None.

(** The sample tables with the post ["p1"] in both categories, the
    category ["c2"] associated first. *)
Definition crossed : World :=
  with_db (set_post_categories [("p1", "c2"); ("p1", "c1")]) Sample.world.

(** [findAll({published: true, limit: 1})] *)
Definition first_page : option postService.FindAllOptions :=
  Some (postService.mkFindAllOptions (Some true) None (Some (integer 1))
          None).

(** The body [{id: "p2", title: "Taken over"}] *)
Definition takeover : UpdateBody :=
  mkUpdateBody (Some "p2") (Some "Taken over") None None None None None None
    None None None None.

End Cases.

(** * Properties *)

(** ** The monad and the statements *)

Lemma bind_run {A B} (m : M A) (k : A -> M B) w :
  bind m k w = match m w with
               | (Returned a, w') => k a w'
               | (Thrown e, w') => (Thrown e, w')
               end.
Proof. reflexivity. Qed.

Lemma eqb_true (a b : string) : (a =? b) = true <-> a = b.
Proof. apply String.eqb_eq. Qed.

Lemma eqb_false (a b : string) : (a =? b) = false <-> a <> b.
Proof. apply String.eqb_neq. Qed.

Section Keeps.
Context {X : Type} (view : Db -> X).

Lemma keeps_ret {A} (a : A) : keeps view (ret a).
Proof. intros w. reflexivity. Qed.

Lemma keeps_throw {A} e : keeps view (@throw A e).
Proof. intros w. reflexivity. Qed.

Lemma keeps_bind {A B} (m : M A) (k : A -> M B) :
  keeps view m -> (forall a, keeps view (k a)) -> keeps view (bind m k).
Proof.
  intros Hm Hk w. rewrite bind_run. specialize (Hm w).
  destruct (m w) as [[a|e] w1]; simpl in *.
  - rewrite Hk. exact Hm.
  - exact Hm.
Qed.

Lemma keeps_for_of {A} (xs : list A) body :
  (forall x, keeps view (body x)) -> keeps view (for_of xs body).
Proof.
  intros Hb. induction xs as [|x xs IH]; simpl.
  - apply keeps_ret.
  - apply keeps_bind; auto.
Qed.

Lemma keeps_get_db : keeps view get_db.
Proof. intros w. reflexivity. Qed.

Lemma keeps_modify_db f :
  (forall d, view (f d) = view d) -> keeps view (modify_db f).
Proof. intros Hf w. simpl. apply Hf. Qed.

Lemma keeps_uuidv4 : keeps view uuidv4.
Proof. intros w. reflexivity. Qed.

Lemma keeps_new_Date : keeps view new_Date_toISOString.
Proof. intros w. reflexivity. Qed.

Lemma keeps_CURRENT_TIMESTAMP : keeps view CURRENT_TIMESTAMP.
Proof. intros w. reflexivity. Qed.

Lemma keeps_if {A} (b : bool) (m1 m2 : M A) :
  keeps view m1 -> keeps view m2 -> keeps view (if b then m1 else m2).
Proof. destruct b; auto. Qed.

End Keeps.

(** One step of a proof that a call built from reads keeps a table. *)
Ltac keeps_step :=
  first
    [ apply keeps_ret | apply keeps_throw | apply keeps_get_db
    | apply keeps_uuidv4 | apply keeps_new_Date
    | apply keeps_CURRENT_TIMESTAMP
    | apply keeps_bind; [| intros ?]
    | apply keeps_for_of; intros ?
    | apply keeps_if
    | apply keeps_modify_db; intros ?; reflexivity ].

Ltac keeps_auto := repeat keeps_step.

Lemma keeps_with_relations {X} (view : Db -> X) p :
  keeps view (postService.with_relations p).
Proof.
  unfold postService.with_relations, categoryService.findByPostId,
    tagService.findByPostId, userService.findById.
  keeps_auto.
Qed.

Lemma keeps_findById {X} (view : Db -> X) id :
  keeps view (postService.findById id).
Proof.
  unfold postService.findById. apply keeps_bind; [apply keeps_get_db|].
  intros d. destruct (select_post_by_id id d).
  - apply keeps_bind; [apply keeps_with_relations | intros; apply keeps_ret].
  - apply keeps_ret.
Qed.

Lemma keeps_insert_post_category {X} (view : Db -> X) id c :
  (forall d v, view (set_post_categories v d) = view d) ->
  keeps view (insert_post_category id c).
Proof.
  intros Hv. unfold insert_post_category.
  apply keeps_bind; [apply keeps_get_db|]. intros d.
  repeat (apply keeps_if; [apply keeps_throw|]).
  apply keeps_modify_db. intros; apply Hv.
Qed.

Lemma keeps_insert_post_tag {X} (view : Db -> X) id t :
  (forall d v, view (set_post_tags v d) = view d) ->
  keeps view (insert_post_tag id t).
Proof.
  intros Hv. unfold insert_post_tag.
  apply keeps_bind; [apply keeps_get_db|]. intros d.
  repeat (apply keeps_if; [apply keeps_throw|]).
  apply keeps_modify_db. intros; apply Hv.
Qed.

Lemma keeps_update_categories {X} (view : Db -> X) input :
  (forall d v, view (set_post_categories v d) = view d) ->
  keeps view (postService.update_categories input).
Proof.
  intros Hv. unfold postService.update_categories.
  destruct (up_categories input) as [cs|]; [|apply keeps_ret].
  apply keeps_bind.
  - unfold delete_post_categories.
    apply keeps_bind; [apply keeps_get_db|]. intros d.
    apply keeps_modify_db. intros; apply Hv.
  - intros _. destruct cs; [apply keeps_ret|].
    apply keeps_for_of. intros c. now apply keeps_insert_post_category.
Qed.

Lemma keeps_update_tags {X} (view : Db -> X) input :
  (forall d v, view (set_post_tags v d) = view d) ->
  keeps view (postService.update_tags input).
Proof.
  intros Hv. unfold postService.update_tags.
  destruct (up_tags input) as [ts|]; [|apply keeps_ret].
  apply keeps_bind.
  - unfold delete_post_tags.
    apply keeps_bind; [apply keeps_get_db|]. intros d.
    apply keeps_modify_db. intros; apply Hv.
  - intros _. destruct ts; [apply keeps_ret|].
    apply keeps_for_of. intros c. now apply keeps_insert_post_tag.
Qed.

Lemma keeps_update_posts {X} (view : Db -> X) updates id :
  (forall d v, view (set_posts v d) = view d) ->
  keeps view (update_posts updates id).
Proof.
  intros Hv. unfold update_posts.
  apply keeps_bind; [apply keeps_get_db|]. intros d.
  destruct (select_post_by_id id d); [|apply keeps_ret].
  apply keeps_if; [apply keeps_throw|].
  apply keeps_modify_db. intros; apply Hv.
Qed.

Lemma keeps_read_clock {X} (view : Db -> X) input :
  keeps view (postService.read_clock input).
Proof.
  unfold postService.read_clock.
  apply keeps_bind; [|intros; keeps_auto].
  destruct (up_published input) as [[|]|]; keeps_auto.
Qed.

(** ** [postService.update]: the row *)

Lemma read_clock_run input w :
  exists w1,
    postService.read_clock input w = (Returned (stamps input w), w1) /\
    db w1 = db w.
Proof.
  unfold postService.read_clock, stamps, update_stamp, publish_stamp.
  destruct (up_published input) as [[|]|]; eexists; split; reflexivity.
Qed.

Lemma set_list_row input published_at updated_at o :
  fold_left assign (postService.set_list input published_at updated_at) o =
  updated_row input published_at updated_at o.
Proof.
  destruct o, input as [id title slug content excerpt cover published
                        featured reading author cats tgs].
  unfold postService.set_list, updated_row; simpl.
  destruct title, slug, content, excerpt, cover, published as [[|]|],
    featured as [[|]|]; reflexivity.
Qed.

Lemma updated_row_id input pa ua o : p_id (updated_row input pa ua o) = p_id o.
Proof. reflexivity. Qed.

Lemma updated_row_slug input pa ua o :
  p_slug (updated_row input pa ua o) = default (p_slug o) (up_slug input).
Proof. reflexivity. Qed.

Lemma update_posts_table input w :
  posts (db (snd (postService.update input w))) = posts_after_update input w.
Proof.
  unfold postService.update. rewrite bind_run.
  destruct (read_clock_run input w) as (w1 & -> & Hdb).
  rewrite bind_run.
  assert (Hrest : keeps posts
            (postService.update_categories input ;;;
             postService.update_tags input ;;;
             postService.findById (up_id input))).
  { apply keeps_bind; [now apply keeps_update_categories|]. intros _.
    apply keeps_bind; [now apply keeps_update_tags|]. intros _.
    apply keeps_findById. }
  unfold posts_after_update, update_posts, update_accepted.
  rewrite bind_run. unfold get_db. cbv beta iota. rewrite !Hdb.
  destruct (select_post_by_id (up_id input) (db w)) as [old|] eqn:Hsel.
  - rewrite set_list_row, updated_row_slug.
    destruct (slug_taken _ _ (db w)); simpl.
    + now rewrite ?Hdb.
    + rewrite Hrest. simpl. rewrite ?Hdb.
      apply map_ext. intros o. now rewrite set_list_row.
  - simpl. rewrite Hrest. now rewrite ?Hdb.
Qed.

Lemma find_id_map (F : Post -> Post) id rows old :
  (forall o, p_id (F o) = p_id o) ->
  List.find (fun p => p_id p =? id) rows = Some old ->
  List.find (fun p => p_id p =? id)
    (map (fun o => if p_id o =? id then F o else o) rows) = Some (F old).
Proof.
  intros HF. induction rows as [|r rows IH]; simpl; [discriminate|].
  destruct (p_id r =? id) eqn:Hr.
  - intros [= ->]. now rewrite HF, Hr.
  - rewrite Hr. exact IH.
Qed.

Lemma find_id_some id rows old :
  List.find (fun p => p_id p =? id) rows = Some old -> p_id old = id.
Proof.
  intros H. apply find_some in H as [_ H]. now apply eqb_true.
Qed.

(** The row of the post after [postService.update], whatever the call's
    outcome: the updated row when the engine accepts the [UPDATE], the old
    one when it rejects it. *)
Lemma update_row input w old :
  select_post_by_id (up_id input) (db w) = Some old ->
  row_after (postService.update input) w (up_id input) =
  Some (if update_accepted input old (db w)
        then updated_row input (fst (stamps input w)) (snd (stamps input w)) old
        else old).
Proof.
  intros Hsel. unfold row_after, select_post_by_id at 1.
  rewrite update_posts_table. unfold posts_after_update. rewrite Hsel.
  destruct (update_accepted input old (db w)).
  - now apply find_id_map.
  - exact Hsel.
Qed.

(** ** [postService.update]: the associations *)

Lemma existsb_pair_false (x : string * string) l :
  ~ In x l -> existsb (pair_eqb x) l = false.
Proof.
  intros Hx. apply not_true_is_false. intros H.
  apply existsb_exists in H as (y & Hy & Heq).
  unfold pair_eqb in Heq. apply andb_true_iff in Heq as [H1 H2].
  apply eqb_true in H1, H2. destruct x, y; simpl in *; subst. auto.
Qed.

Lemma existsb_pair_true (x : string * string) l :
  In x l -> existsb (pair_eqb x) l = true.
Proof.
  intros Hx. apply existsb_exists. exists x. split; [exact Hx|].
  unfold pair_eqb. now rewrite !String.eqb_refl.
Qed.

Lemma all_distinct_cons x rest :
  all_distinct (x :: rest) = true -> ~ In x rest /\ all_distinct rest = true.
Proof.
  simpl. intros H. apply andb_true_iff in H as [H1 H2]. split; [|exact H2].
  intros Hin. apply negb_true_iff in H1.
  assert (existsb (String.eqb x) rest = true) as E; [|congruence].
  apply existsb_exists. exists x. split; [exact Hin|apply String.eqb_refl].
Qed.

Lemma for_of_insert_categories id cs : forall w,
  has_post id (db w) = true ->
  forallb (fun c => has_category c (db w)) cs = true ->
  all_distinct cs = true ->
  (forall c, In c cs -> ~ In (id, c) (post_categories (db w))) ->
  exists w',
    for_of cs (insert_post_category id) w = (Returned tt, w') /\
    db w' = set_post_categories
              (post_categories (db w) ++ map (pair id) cs) (db w).
Proof.
  induction cs as [|c cs IH]; intros w Hpost Hknown Hdist Hfresh.
  - exists w. split; [reflexivity|]. simpl. rewrite app_nil_r.
    now destruct (db w).
  - simpl in Hknown. apply andb_true_iff in Hknown as [Hc Hknown].
    apply all_distinct_cons in Hdist as [Hnotin Hdist].
    simpl for_of. rewrite bind_run.
    unfold insert_post_category at 1. rewrite bind_run. simpl.
    rewrite existsb_pair_false by (apply Hfresh; now left).
    rewrite Hpost, Hc. simpl.
    set (w1 := with_db _ w).
    destruct (IH w1) as (w' & Hrun & Hdb); try assumption.
    + intros c' Hc' Hin. simpl in Hin. apply in_app_or in Hin as [Hin|Hin].
      * apply (Hfresh c'); [now right|exact Hin].
      * simpl in Hin. destruct Hin as [[= <-]|[]]. contradiction.
    + exists w'. split; [exact Hrun|]. rewrite Hdb. subst w1. simpl.
      now rewrite <- app_assoc.
Qed.

Lemma for_of_insert_tags id ts : forall w,
  has_post id (db w) = true ->
  forallb (fun t => has_tag t (db w)) ts = true ->
  all_distinct ts = true ->
  (forall t, In t ts -> ~ In (id, t) (post_tags (db w))) ->
  exists w',
    for_of ts (insert_post_tag id) w = (Returned tt, w') /\
    db w' = set_post_tags (post_tags (db w) ++ map (pair id) ts) (db w).
Proof.
  induction ts as [|t ts IH]; intros w Hpost Hknown Hdist Hfresh.
  - exists w. split; [reflexivity|]. simpl. rewrite app_nil_r.
    now destruct (db w).
  - simpl in Hknown. apply andb_true_iff in Hknown as [Ht Hknown].
    apply all_distinct_cons in Hdist as [Hnotin Hdist].
    simpl for_of. rewrite bind_run.
    unfold insert_post_tag at 1. rewrite bind_run. simpl.
    rewrite existsb_pair_false by (apply Hfresh; now left).
    rewrite Hpost, Ht. simpl.
    set (w1 := with_db _ w).
    destruct (IH w1) as (w' & Hrun & Hdb); try assumption.
    + intros t' Ht' Hin. simpl in Hin. apply in_app_or in Hin as [Hin|Hin].
      * apply (Hfresh t'); [now right|exact Hin].
      * simpl in Hin. destruct Hin as [[= <-]|[]]. contradiction.
    + exists w'. split; [exact Hrun|]. rewrite Hdb. subst w1. simpl.
      now rewrite <- app_assoc.
Qed.

Lemma not_in_without_post id c (l : list (string * string)) :
  ~ In (id, c) (List.filter (fun pc => negb (fst pc =? id)) l).
Proof.
  intros H. apply filter_In in H as [_ H]. simpl in H.
  now rewrite String.eqb_refl in H.
Qed.

(** The junction rows of post [id] after its rows were deleted and
    [(id, x)] inserted for each [x] of [ids]. *)
Lemma replaced_rows id ids (l : list (string * string)) :
  map snd (List.filter (fun pc => fst pc =? id)
    (List.filter (fun pc => negb (fst pc =? id)) l ++ map (pair id) ids)) = ids.
Proof.
  rewrite List.filter_app, map_app.
  assert (List.filter (fun pc => fst pc =? id)
            (List.filter (fun pc => negb (fst pc =? id)) l) = []) as ->.
  { induction l as [|x l IH]; simpl; [reflexivity|].
    destruct (fst x =? id) eqn:E; simpl; [exact IH|]. now rewrite E. }
  simpl. induction ids as [|x ids IH]; simpl; [reflexivity|].
  rewrite String.eqb_refl. simpl. now rewrite IH.
Qed.

(** The junction rows of another post are the ones it had. *)
Lemma other_rows id other ids (l : list (string * string)) :
  other <> id ->
  List.filter (fun pc => fst pc =? other)
    (List.filter (fun pc => negb (fst pc =? id)) l ++ map (pair id) ids) =
  List.filter (fun pc => fst pc =? other) l.
Proof.
  intros Hne. rewrite List.filter_app.
  assert (List.filter (fun pc => fst pc =? other) (map (pair id) ids) = [])
    as ->.
  { induction ids as [|x ids IH]; simpl; [reflexivity|].
    apply eqb_false in Hne. rewrite String.eqb_sym in Hne. now rewrite Hne. }
  rewrite app_nil_r. induction l as [|x l IH]; simpl; [reflexivity|].
  destruct (fst x =? id) eqn:E; simpl.
  - apply eqb_true in E. destruct (fst x =? other) eqn:E'; [|exact IH].
    apply eqb_true in E'. congruence.
  - now rewrite IH.
Qed.

Lemma update_categories_run input w :
  has_post (up_id input) (db w) = true ->
  insertable (fun c => has_category c (db w)) (up_categories input) = true ->
  exists w',
    postService.update_categories input w = (Returned tt, w') /\
    db w' = match up_categories input with
            | Some cs =>
                set_post_categories
                  (List.filter (fun pc => negb (fst pc =? up_id input))
                     (post_categories (db w)) ++ map (pair (up_id input)) cs)
                  (db w)
            | None => db w
            end.
Proof.
  intros Hpost Hins. unfold postService.update_categories.
  destruct (up_categories input) as [cs|]; [|now exists w].
  simpl in Hins. apply andb_true_iff in Hins as [Hknown Hdist].
  rewrite bind_run. unfold delete_post_categories. rewrite bind_run. simpl.
  set (w1 := with_db _ w).
  destruct (for_of_insert_categories (up_id input) cs w1) as (w' & Hrun & Hdb);
    try assumption.
  { intros c _. apply not_in_without_post. }
  exists w'. split.
  - destruct cs; [|exact Hrun]. simpl in Hrun. exact Hrun.
  - rewrite Hdb. reflexivity.
Qed.

Lemma update_tags_run input w :
  has_post (up_id input) (db w) = true ->
  insertable (fun t => has_tag t (db w)) (up_tags input) = true ->
  exists w',
    postService.update_tags input w = (Returned tt, w') /\
    db w' = match up_tags input with
            | Some ts =>
                set_post_tags
                  (List.filter (fun pt => negb (fst pt =? up_id input))
                     (post_tags (db w)) ++ map (pair (up_id input)) ts)
                  (db w)
            | None => db w
            end.
Proof.
  intros Hpost Hins. unfold postService.update_tags.
  destruct (up_tags input) as [ts|]; [|now exists w].
  simpl in Hins. apply andb_true_iff in Hins as [Hknown Hdist].
  rewrite bind_run. unfold delete_post_tags. rewrite bind_run. simpl.
  set (w1 := with_db _ w).
  destruct (for_of_insert_tags (up_id input) ts w1) as (w' & Hrun & Hdb);
    try assumption.
  { intros t _. apply not_in_without_post. }
  exists w'. split.
  - destruct ts; [|exact Hrun]. simpl in Hrun. exact Hrun.
  - rewrite Hdb. reflexivity.
Qed.

Lemma has_post_of_select id d p :
  select_post_by_id id d = Some p -> has_post id d = true.
Proof.
  intros H. apply find_some in H as [Hin Hid].
  apply existsb_exists. now exists p.
Qed.

Lemma insertable_ext (f g : string -> bool) ids :
  (forall x, f x = g x) -> insertable f ids = insertable g ids.
Proof.
  intros H. destruct ids as [l|]; [|reflexivity]. simpl. f_equal.
  induction l as [|x l IH]; simpl; [reflexivity|]. now rewrite H, IH.
Qed.

Lemma with_relations_run p w :
  postService.with_relations p w =
  (Returned (mkPostWithRelations p
     (select_categories_of_post (p_id p) (db w))
     (select_tags_of_post (p_id p) (db w))
     (List.find (fun u => u_id u =? p_author_id p) (users (db w)))), w).
Proof. reflexivity. Qed.

Lemma findById_run id w :
  postService.findById id w =
  (Returned
     (match select_post_by_id id (db w) with
      | Some p => Some (mkPostWithRelations p
                    (select_categories_of_post (p_id p) (db w))
                    (select_tags_of_post (p_id p) (db w))
                    (List.find (fun u => u_id u =? p_author_id p)
                               (users (db w))))
      | None => None
      end), w).
Proof.
  unfold postService.findById. rewrite bind_run. simpl.
  destruct (select_post_by_id id (db w)); reflexivity.
Qed.

Lemma map_with_relations_run ps w :
  postService.map_with_relations ps w =
  (Returned (map (fun p => mkPostWithRelations p
                    (select_categories_of_post (p_id p) (db w))
                    (select_tags_of_post (p_id p) (db w))
                    (List.find (fun u => u_id u =? p_author_id p)
                               (users (db w)))) ps), w).
Proof.
  induction ps as [|p ps IH]; [reflexivity|].
  cbn [postService.map_with_relations]. rewrite bind_run, with_relations_run.
  rewrite bind_run, IH. reflexivity.
Qed.

Lemma map_post_with_relations (ps : list Post) f g h :
  map post (map (fun p => mkPostWithRelations p (f p) (g p) (h p)) ps) = ps.
Proof. induction ps as [|p ps IH]; simpl; [|rewrite IH]; reflexivity. Qed.

(** What an accepted row [UPDATE] of [postService.update] does. *)
Lemma update_posts_accepted input w w1 old :
  db w1 = db w ->
  select_post_by_id (up_id input) (db w) = Some old ->
  update_accepted input old (db w) = true ->
  exists w2,
    update_posts
      (postService.set_list input (fst (stamps input w)) (snd (stamps input w)))
      (up_id input) w1 = (Returned tt, w2) /\
    db w2 = set_posts (posts_after_update input w) (db w).
Proof.
  intros Hdb Hsel Hacc. unfold update_posts. rewrite bind_run.
  unfold get_db. cbv beta iota. rewrite !Hdb, Hsel.
  rewrite set_list_row, updated_row_slug.
  unfold update_accepted in Hacc. apply negb_true_iff in Hacc. rewrite Hacc.
  eexists. split; [reflexivity|]. simpl. rewrite Hdb.
  unfold posts_after_update, update_accepted. rewrite Hsel, Hacc. simpl.
  f_equal. apply map_ext. intros o. now rewrite set_list_row.
Qed.

Lemma select_after_accepted input w old :
  select_post_by_id (up_id input) (db w) = Some old ->
  update_accepted input old (db w) = true ->
  List.find (fun p => p_id p =? up_id input) (posts_after_update input w) =
  Some (updated_row input (fst (stamps input w)) (snd (stamps input w)) old).
Proof.
  intros Hsel Hacc. unfold posts_after_update. rewrite Hsel, Hacc.
  now apply find_id_map.
Qed.

(** C1 (amended).  For an existing post and an update whose statements the
    engine accepts (the slug the row ends with is held by no other post, and
    each supplied array holds pairwise distinct identifiers of stored
    categories, resp. tags), [postService.update] returns the post and, for
    a categories (resp. tags) array that is present, the empty one included,
    leaves the post associated with exactly the supplied identifiers;
    updating to [[]] removes every prior association; the associations of
    the other posts stay as they were. *)
Theorem update_replaces_associations input w old :
  select_post_by_id (up_id input) (db w) = Some old ->
  update_accepted input old (db w) = true ->
  insertable (fun c => has_category c (db w)) (up_categories input) = true ->
  insertable (fun t => has_tag t (db w)) (up_tags input) = true ->
  associations_replaced input w.
Proof.
  intros Hsel Hacc Hcats Htags. unfold associations_replaced.
  unfold postService.update. rewrite bind_run.
  destruct (read_clock_run input w) as (w1 & -> & Hdb1).
  rewrite bind_run.
  destruct (update_posts_accepted input w w1 old Hdb1 Hsel Hacc)
    as (w2 & -> & Hdb2).
  pose proof (select_after_accepted input w old Hsel Hacc) as Hnew.
  assert (Hpost2 : has_post (up_id input) (db w2) = true).
  { apply has_post_of_select with (p := updated_row input (fst (stamps input w))
                                           (snd (stamps input w)) old).
    rewrite Hdb2. exact Hnew. }
  rewrite bind_run.
  destruct (update_categories_run input w2 Hpost2) as (w3 & -> & Hdb3).
  { rewrite <- Hcats. apply insertable_ext. intros c. now rewrite Hdb2. }
  assert (Hpost3 : has_post (up_id input) (db w3) = true).
  { rewrite Hdb3. destruct (up_categories input); exact Hpost2. }
  rewrite bind_run.
  destruct (update_tags_run input w3 Hpost3) as (w4 & -> & Hdb4).
  { rewrite <- Htags. apply insertable_ext. intros t. rewrite Hdb3, Hdb2.
    now destruct (up_categories input). }
  rewrite findById_run.
  assert (Hsel4 : select_post_by_id (up_id input) (db w4) =
            Some (updated_row input (fst (stamps input w))
                    (snd (stamps input w)) old)).
  { rewrite Hdb4, Hdb3, Hdb2.
    destruct (up_tags input), (up_categories input); exact Hnew. }
  rewrite Hsel4. eexists. exists w4. split; [reflexivity|].
  assert (Hc : forall cs, up_categories input = Some cs ->
                 categories_of (up_id input) (db w4) = cs).
  { intros cs Hcs. unfold categories_of. rewrite Hdb4, Hdb3, Hdb2, Hcs.
    destruct (up_tags input); simpl; apply replaced_rows. }
  assert (Ht : forall ts, up_tags input = Some ts ->
                 tags_of (up_id input) (db w4) = ts).
  { intros ts Hts. unfold tags_of. rewrite Hdb4, Hts. simpl.
    apply replaced_rows. }
  split; [exact Hc|]. split; [apply Hc|]. split; [exact Ht|].
  split; [apply Ht|].
  intros other Hne. unfold categories_of, tags_of.
  rewrite Hdb4, Hdb3, Hdb2.
  destruct (up_tags input), (up_categories input); simpl;
    rewrite ?other_rows by exact Hne; split; reflexivity.
Qed.

(** The replacement at work: post ["p1"], associated with ["c1"], is given
    the categories [["c2"; "c1"]] and no tags. *)
Lemma update_replaces_associations_witness :
  select_post_by_id "p1" (db Sample.world) = Some Sample.hello /\
  associations_replaced Inputs.recategorise Sample.world.
Proof.
  split; [reflexivity|].
  apply (update_replaces_associations Inputs.recategorise Sample.world
           Sample.hello); reflexivity.
Defined.

(** C1 as stated fails.  On the array [["c2"; "c2"; "c1"]] the second insert
    of ["c2"] violates the junction table's primary key: the call throws
    after the delete and the first insert, and the post is left with
    ["c2"] alone.  On [["c9"]], which names no stored category, the insert
    violates the foreign key and the post is left with no category.  With
    the slug of another post and the array [[]], the row [UPDATE] is
    rejected before the delete and the post keeps its category. *)
Lemma update_rejected_statement_breaks_replacement :
  select_post_by_id "p1" (db Sample.world) = Some Sample.hello /\
  (fst (postService.update Inputs.repeated Sample.world) =
     Thrown (SqliteError SQLITE_CONSTRAINT_PRIMARYKEY) /\
   categories_of "p1"
     (db (snd (postService.update Inputs.repeated Sample.world))) = ["c2"] /\
   ~ replaces_associations Inputs.repeated Sample.world) /\
  (fst (postService.update Inputs.dangling Sample.world) =
     Thrown (SqliteError SQLITE_CONSTRAINT_FOREIGNKEY) /\
   categories_of "p1"
     (db (snd (postService.update Inputs.dangling Sample.world))) = [] /\
   ~ replaces_associations Inputs.dangling Sample.world) /\
  (fst (postService.update Inputs.reslug_uncategorise Sample.world) =
     Thrown (SqliteError SQLITE_CONSTRAINT_UNIQUE) /\
   categories_of "p1"
     (db (snd (postService.update Inputs.reslug_uncategorise Sample.world)))
     = ["c1"] /\
   ~ replaces_associations Inputs.reslug_uncategorise Sample.world).
Proof.
  split; [reflexivity|]. repeat split; try reflexivity.
  - intros [Hc _]. specialize (Hc _ eq_refl "c1") as [_ Hc].
    assert (Hin : In "c1" ["c2"; "c2"; "c1"])
      by (right; right; left; reflexivity).
    apply Hc in Hin. vm_compute in Hin. destruct Hin as [Hin|[]].
    discriminate Hin.
  - intros [Hc _]. specialize (Hc _ eq_refl "c9") as [_ Hc].
    assert (Hin : In "c9" ["c9"]) by (left; reflexivity).
    apply Hc in Hin. vm_compute in Hin. exact Hin.
  - intros [Hc _]. specialize (Hc _ eq_refl "c1") as [Hc _].
    assert (Hin : In "c1" (categories_of "p1"
              (db (snd (postService.update Inputs.reslug_uncategorise
                          Sample.world))))) by (left; reflexivity).
    apply Hc in Hin. exact Hin.
Qed.

(** ** [postService.update]: publish stamp, frame and [updated_at] *)

(** C2 (amended).  For every existing post, an update that supplies
    [published = true] and whose row [UPDATE] the engine accepts stamps the
    publish timestamp with the clock reading, whether or not the post was
    published before, and whether or not the call fails afterwards at an
    association insert; an update that supplies [published = false] or no
    [published] field, and one whose row [UPDATE] the engine rejects because
    another post holds the slug, leave the stored publish timestamp as it
    was. *)
Theorem update_publish_rule input w old :
  select_post_by_id (up_id input) (db w) = Some old ->
  publish_rule input w old.
Proof.
  intros Hsel. unfold publish_rule. rewrite (update_row input w old Hsel).
  eexists. split; [reflexivity|].
  destruct (update_accepted input old (db w)); unfold stamps; simpl;
    repeat split; intros; try congruence;
    destruct (up_published input) as [[|]|]; congruence.
Qed.

(** The rule at work on the published post ["p1"]. *)
Lemma update_publish_rule_witness :
  select_post_by_id "p1" (db Sample.world) = Some Sample.hello /\
  publish_rule Inputs.republish Sample.world Sample.hello.
Proof.
  split; [reflexivity|].
  apply (update_publish_rule Inputs.republish Sample.world Sample.hello).
  reflexivity.
Defined.

(** C2 as stated fails: publishing the already published post ["p1"] again
    replaces its publish timestamp by the clock reading. *)
Lemma update_republish_restamps :
  p_published Sample.hello = 1 /\
  row_after (postService.update Inputs.republish) Sample.world "p1" =
    Some (updated_row Inputs.republish "2024-06-01T12:00:00.000Z"
            "2024-06-01T12:00:00.001Z" Sample.hello) /\
  ~ stamps_only_on_transition Inputs.republish Sample.world.
Proof.
  split; [reflexivity|]. split; [reflexivity|]. intros H.
  destruct (H Sample.hello _ eq_refl eq_refl) as (_ & Hkeep & _).
  specialize (Hkeep eq_refl eq_refl). discriminate Hkeep.
Qed.

(** The stamp is set by the row [UPDATE]: publishing ["p1"] again with the
    unknown category ["c9"] throws at the association insert, after the
    publish timestamp is replaced. *)
Example update_stamps_before_failing_insert :
  update_accepted Cases.publish_unknown Sample.hello (db Sample.world) = true /\
  fst (postService.update Cases.publish_unknown Sample.world)
    = Thrown (SqliteError SQLITE_CONSTRAINT_FOREIGNKEY) /\
  option_map p_published_at
    (row_after (postService.update Cases.publish_unknown) Sample.world "p1")
    = Some (Some "2024-06-01T12:00:00.000Z").
Proof. repeat split; reflexivity. Qed.

Lemma update_keeps_absent_associations input w :
  keeps_absent_associations input w.
Proof.
  unfold keeps_absent_associations, postService.update. split; intros Habs.
  - apply (keeps_bind post_categories);
      [apply keeps_read_clock|intros stamps].
    apply keeps_bind; [now apply keeps_update_posts|intros _].
    apply keeps_bind.
    { unfold postService.update_categories. rewrite Habs. apply keeps_ret. }
    intros _. apply keeps_bind; [now apply keeps_update_tags|intros _].
    apply keeps_findById.
  - apply (keeps_bind post_tags); [apply keeps_read_clock|intros stamps].
    apply keeps_bind; [now apply keeps_update_posts|intros _].
    apply keeps_bind; [now apply keeps_update_categories|intros _].
    apply keeps_bind.
    { unfold postService.update_tags. rewrite Habs. apply keeps_ret. }
    intros _. apply keeps_findById.
Qed.

(** C3 (amended).  For every existing post and every partial input,
    [postService.update] leaves every stored column of the row whose field
    is absent from the input at its prior value, reading time and publish
    timestamp included, and likewise the columns no field names, except
    [updated_at]; the association tables of an absent categories (resp.
    tags) field are unchanged. *)
Theorem update_changes_only_supplied input w old :
  select_post_by_id (up_id input) (db w) = Some old ->
  update_frame input w old.
Proof.
  intros Hsel. unfold update_frame. rewrite (update_row input w old Hsel).
  eexists. split; [reflexivity|]. split;
    [|apply update_keeps_absent_associations].
  destruct (update_accepted input old (db w)).
  - unfold keeps_absent_columns, updated_row; simpl.
    repeat (split || intros);
      repeat match goal with H : _ = None |- _ => rewrite H; clear H end;
      reflexivity.
  - unfold keeps_absent_columns. repeat (split || intros); reflexivity.
Qed.

(** The frame at work: only the title of ["p1"] is supplied. *)
Lemma update_changes_only_supplied_witness :
  select_post_by_id "p1" (db Sample.world) = Some Sample.hello /\
  update_frame Inputs.retitle Sample.world Sample.hello.
Proof.
  split; [reflexivity|].
  apply (update_changes_only_supplied Inputs.retitle Sample.world
           Sample.hello).
  reflexivity.
Defined.

(** C3 as stated fails: an update of ["p1"] that supplies no field still
    replaces the stored [updated_at]. *)
Lemma update_without_fields_changes_updated_at :
  row_after (postService.update (no_fields "p1")) Sample.world "p1" =
    Some (assign Sample.hello (Set_updated_at "2024-06-01T12:00:00.000Z")) /\
  ~ frame_as_claimed (no_fields "p1") Sample.world.
Proof.
  split; [reflexivity|]. intros H.
  destruct (H Sample.hello _ eq_refl eq_refl) as (_ & Hkeep & _).
  discriminate Hkeep.
Qed.

(** C10 (amended).  For every existing post, every call of
    [postService.update] whose row [UPDATE] the engine accepts (the slug
    the row ends with is held by no other post) stores the call's clock
    reading in [updated_at]; with no field supplied at all that is the only
    change to the row, so the call is not a no-op on it. *)
Theorem update_sets_updated_at input w old :
  select_post_by_id (up_id input) (db w) = Some old ->
  update_accepted input old (db w) = true ->
  updated_at_set input w old.
Proof.
  intros Hsel Hacc. unfold updated_at_set.
  rewrite (update_row input w old Hsel), Hacc.
  eexists. split; [reflexivity|]. split; [reflexivity|]. split.
  - intros ->. destruct old. reflexivity.
  - intros Hne Heq. apply Hne.
    apply (f_equal p_updated_at) in Heq. exact Heq.
Qed.

(** The stamp at work: an update of ["p1"] that supplies no field. *)
Lemma update_sets_updated_at_witness :
  select_post_by_id "p1" (db Sample.world) = Some Sample.hello /\
  update_accepted (no_fields "p1") Sample.hello (db Sample.world) = true /\
  updated_at_set (no_fields "p1") Sample.world Sample.hello.
Proof.
  split; [reflexivity|]. split; [reflexivity|].
  apply (update_sets_updated_at (no_fields "p1") Sample.world Sample.hello);
    reflexivity.
Defined.

(** C10 as stated fails: an update of ["p1"] that supplies the slug of
    ["p2"] is rejected by the unique constraint on [slug], and the row keeps
    its [updated_at]. *)
Lemma update_rejected_keeps_updated_at :
  fst (postService.update Inputs.reslug Sample.world) =
    Thrown (SqliteError SQLITE_CONSTRAINT_UNIQUE) /\
  row_after (postService.update Inputs.reslug) Sample.world "p1" =
    Some Sample.hello /\
  ~ sets_updated_at Inputs.reslug Sample.world.
Proof.
  split; [reflexivity|]. split; [reflexivity|]. intros H.
  destruct (H Sample.hello eq_refl) as (new & Hrow & Hstamp).
  vm_compute in Hrow. injection Hrow as <-. discriminate Hstamp.
Qed.

(** ** Identifiers that resolve to no row *)

Lemma has_post_none id d :
  select_post_by_id id d = None -> has_post id d = false.
Proof.
  intros H. apply not_true_is_false. intros E.
  apply existsb_exists in E as (p & Hin & Hid).
  apply (find_none _ _ H) in Hin. congruence.
Qed.

Lemma findById_absent id w :
  select_post_by_id id (db w) = None ->
  postService.findById id w = (Returned None, w).
Proof. intros H. rewrite findById_run. now rewrite H. Qed.

Lemma findBySlug_absent slug w :
  List.find (fun p => p_slug p =? slug) (posts (db w)) = None ->
  postService.findBySlug slug w = (Returned None, w).
Proof.
  intros H. unfold postService.findBySlug. rewrite bind_run. simpl.
  now rewrite H.
Qed.

(** With no association array, or empty ones, an update of an absent id
    returns the not-found signal and changes no table. *)
Lemma update_absent_without_inserts input w :
  select_post_by_id (up_id input) (db w) = None ->
  (up_categories input = None \/ up_categories input = Some []) ->
  (up_tags input = None \/ up_tags input = Some []) ->
  fst (postService.update input w) = Returned None /\
  users (db (snd (postService.update input w))) = users (db w) /\
  posts (db (snd (postService.update input w))) = posts (db w) /\
  categories (db (snd (postService.update input w))) = categories (db w) /\
  tags (db (snd (postService.update input w))) = tags (db w).
Proof.
  intros Hsel Hcs Hts.
  assert (Hposts := update_posts_table input w).
  unfold posts_after_update in Hposts. rewrite Hsel in Hposts.
  split.
  - unfold postService.update. rewrite bind_run.
    destruct (read_clock_run input w) as (w1 & -> & Hdb1).
    rewrite bind_run. unfold update_posts. rewrite bind_run. simpl.
    rewrite Hdb1, Hsel. simpl. rewrite bind_run.
    unfold postService.update_categories, postService.update_tags.
    destruct Hcs as [-> | ->], Hts as [-> | ->];
      cbn [bind ret delete_post_categories delete_post_tags get_db modify_db
           fst snd];
      rewrite findById_run; cbn [fst]; f_equal;
      unfold select_post_by_id in *; cbn [db with_db posts set_post_categories
        set_post_tags]; rewrite ?Hdb1, Hsel; reflexivity.
  - repeat split; try exact Hposts.
    + unfold postService.update.
      apply (keeps_bind users); [apply keeps_read_clock|intros ?].
      apply keeps_bind; [now apply keeps_update_posts|intros _].
      apply keeps_bind; [now apply keeps_update_categories|intros _].
      apply keeps_bind; [now apply keeps_update_tags|intros _].
      apply keeps_findById.
    + unfold postService.update.
      apply (keeps_bind categories); [apply keeps_read_clock|intros ?].
      apply keeps_bind; [now apply keeps_update_posts|intros _].
      apply keeps_bind; [now apply keeps_update_categories|intros _].
      apply keeps_bind; [now apply keeps_update_tags|intros _].
      apply keeps_findById.
    + unfold postService.update.
      apply (keeps_bind tags); [apply keeps_read_clock|intros ?].
      apply keeps_bind; [now apply keeps_update_posts|intros _].
      apply keeps_bind; [now apply keeps_update_categories|intros _].
      apply keeps_bind; [now apply keeps_update_tags|intros _].
      apply keeps_findById.
Qed.

Lemma categories_insert_throws id c cs w :
  select_post_by_id id (db w) = None ->
  fst ((delete_post_categories id ;;;
        for_of (c :: cs) (fun x => insert_post_category id x)) w) =
    Thrown (SqliteError SQLITE_CONSTRAINT_FOREIGNKEY).
Proof.
  intros Hsel. rewrite bind_run. unfold delete_post_categories.
  rewrite bind_run. cbn [get_db modify_db for_of]. rewrite bind_run.
  unfold insert_post_category at 1. rewrite bind_run. cbn [get_db].
  rewrite existsb_pair_false.
  2:{ cbn [db with_db post_categories set_post_categories].
      apply not_in_without_post. }
  assert (has_post id
            (db (with_db
               (set_post_categories
                  (List.filter (fun pc => negb (fst pc =? id))
                     (post_categories (db w)))) w)) = false) as ->.
  { apply has_post_none. exact Hsel. }
  reflexivity.
Qed.

Lemma tags_insert_throws id t ts w :
  select_post_by_id id (db w) = None ->
  fst ((delete_post_tags id ;;;
        for_of (t :: ts) (fun x => insert_post_tag id x)) w) =
    Thrown (SqliteError SQLITE_CONSTRAINT_FOREIGNKEY).
Proof.
  intros Hsel. rewrite bind_run. unfold delete_post_tags.
  rewrite bind_run. cbn [get_db modify_db for_of]. rewrite bind_run.
  unfold insert_post_tag at 1. rewrite bind_run. cbn [get_db].
  rewrite existsb_pair_false.
  2:{ cbn [db with_db post_tags set_post_tags]. apply not_in_without_post. }
  assert (has_post id
            (db (with_db
               (set_post_tags
                  (List.filter (fun pt => negb (fst pt =? id))
                     (post_tags (db w)))) w)) = false) as ->.
  { apply has_post_none. exact Hsel. }
  reflexivity.
Qed.

Lemma fst_bind_thrown {A B} (m : M A) (k : A -> M B) w e :
  fst (m w) = Thrown e -> fst (bind m k w) = Thrown e.
Proof.
  rewrite bind_run. destruct (m w) as [[a|e'] w']; cbn [fst]; congruence.
Qed.

(** C6 (code departs from the claim).  [postService.update] called with an
    id that resolves to no post and a categories or tags array that is not
    empty does not return the not-found signal: after the row [UPDATE]
    matched nothing, the first junction insert violates the foreign key on
    [post_id] and the call throws. *)
Theorem update_absent_post_throws input w :
  select_post_by_id (up_id input) (db w) = None ->
  inserts_something input = true ->
  fst (postService.update input w) =
    Thrown (SqliteError SQLITE_CONSTRAINT_FOREIGNKEY).
Proof.
  intros Hsel Hins. unfold postService.update. rewrite bind_run.
  destruct (read_clock_run input w) as (w1 & -> & Hdb1).
  rewrite bind_run. unfold update_posts. rewrite bind_run.
  cbn [get_db]. rewrite Hdb1, Hsel. cbn [ret].
  assert (Hsel1 : select_post_by_id (up_id input) (db w1) = None)
    by now rewrite Hdb1.
  unfold inserts_something in Hins.
  unfold postService.update_categories.
  destruct (up_categories input) as [[|c cs]|].
  - rewrite bind_run. unfold delete_post_categories at 1.
    rewrite !bind_run. cbn [get_db modify_db ret].
    apply fst_bind_thrown. unfold postService.update_tags.
    destruct (up_tags input) as [[|t ts]|]; try discriminate.
    now apply tags_insert_throws.
  - apply fst_bind_thrown. now apply categories_insert_throws.
  - cbn [bind ret]. apply fst_bind_thrown. unfold postService.update_tags.
    destruct (up_tags input) as [[|t ts]|]; try discriminate.
    now apply tags_insert_throws.
Qed.

(** The failing call: no post has the id ["missing"], and ["c1"] is a stored
    category. *)
Lemma update_absent_post_throws_witness :
  select_post_by_id "missing" (db Sample.world) = None /\
  has_category "c1" (db Sample.world) = true /\
  fst (postService.update Inputs.orphan Sample.world) =
    Thrown (SqliteError SQLITE_CONSTRAINT_FOREIGNKEY).
Proof.
  split; [reflexivity|]. split; [reflexivity|].
  apply (update_absent_post_throws Inputs.orphan Sample.world); reflexivity.
Defined.

(** ** [postService.findAll] *)

#[global] Instance created_desc_total : Total created_desc.
Proof.
  intros a b. unfold created_desc.
  destruct (String.leb_total (p_created_at a) (p_created_at b)); auto.
Qed.

Lemma string_compare_trans a : forall b c,
  String.compare a b <> Gt -> String.compare b c <> Gt ->
  String.compare a c <> Gt.
Proof.
  induction a as [|x a IH]; intros [|y b] [|z c]; cbn [String.compare];
    try congruence.
  unfold Ascii.compare.
  destruct (N.compare_spec (N_of_ascii x) (N_of_ascii y)) as [Hxy|Hxy|Hxy],
    (N.compare_spec (N_of_ascii y) (N_of_ascii z)) as [Hyz|Hyz|Hyz],
    (N.compare_spec (N_of_ascii x) (N_of_ascii z)) as [Hxz|Hxz|Hxz];
    try congruence; try lia; try apply IH.
Qed.

Lemma string_leb_trans a b c :
  String.leb a b = true -> String.leb b c = true -> String.leb a c = true.
Proof.
  unfold String.leb. intros Hab Hbc.
  pose proof (string_compare_trans a b c) as H.
  destruct (String.compare a b), (String.compare b c), (String.compare a c);
    try reflexivity; try discriminate; exfalso; apply H; congruence.
Qed.

#[global] Instance created_desc_trans : Transitive created_desc.
Proof.
  intros a b c Hab Hbc. unfold created_desc in *.
  now apply string_leb_trans with (b := p_created_at b).
Qed.

(** Newest first: every row is created no earlier than each row after it. *)
Lemma order_by_sorted rows :
  StronglySorted created_desc (order_by_created_at_desc rows).
Proof. apply StronglySorted_merge_sort; apply _. Qed.

Lemma order_by_permutation rows : order_by_created_at_desc rows ≡ₚ rows.
Proof. apply merge_sort_Permutation. Qed.





Example findAll_second_page :
  found (postService.findAll Inputs.second_page Sample.world) = [] /\
  found (postService.findAll None Sample.world) = [Sample.draft; Sample.hello].
Proof. split; reflexivity. Qed.

(** A limit beyond the 64-bit integers is no integer to the engine. *)
Example findAll_huge_limit :
  postService.findAll Cases.huge_limit Sample.world
    = (Thrown (SqliteError SQLITE_MISMATCH), Sample.world).
Proof. reflexivity. Qed.

(** C5 (code departs from the claim).  With an offset that is not zero and
    no limit (absent, or zero), [postService.findAll] appends [OFFSET ?] to a
    query that has no [LIMIT]; the engine rejects the statement and the call
    throws instead of returning a page, whatever the other filters. *)
Theorem findAll_offset_without_limit_throws options w :
  truthy_num (postService.field options postService.opt_limit) = false ->
  truthy_num (postService.field options postService.opt_offset) = true ->
  postService.findAll options w = (Thrown (SqliteError SQLITE_ERROR), w).
Proof.
  intros Hlimit Hoffset.
  unfold postService.findAll, select_posts, postService.build_query.
  rewrite Hlimit, Hoffset. rewrite !bind_run. cbn [get_db].
  destruct (postService.field options postService.opt_published),
    (postService.field options postService.opt_featured); reflexivity.
Qed.

(** The failing call: [findAll({offset: 1})]. *)
Lemma findAll_offset_without_limit_throws_witness :
  postService.findAll Inputs.offset_only Sample.world =
  (Thrown (SqliteError SQLITE_ERROR), Sample.world).
Proof.
  apply (findAll_offset_without_limit_throws Inputs.offset_only Sample.world);
    reflexivity.
Defined.

(** ** [postService.search] *)

Lemma like_chars_percent rest text :
  like_chars (37%N :: rest) text =
  like_chars rest text ||
  match text with
  | [] => false
  | _ :: text' => like_chars (37%N :: rest) text'
  end.
Proof. destruct text; reflexivity. Qed.

Lemma like_chars_only_percent text : like_chars [37%N] text = true.
Proof.
  induction text as [|c text IH]; [reflexivity|].
  rewrite like_chars_percent, IH. apply orb_true_r.
Qed.

Lemma like_chars_literal c rest text :
  (c =? 37)%N = false ->
  like_chars (c :: rest) text =
  match text with
  | [] => false
  | d :: text' =>
      ((c =? 95)%N || same_character c d) && like_chars rest text'
  end.
Proof. intros H. cbn [like_chars]. rewrite H. reflexivity. Qed.



(** A literal occurrence matches, whatever wildcards the query holds. *)
Lemma like_chars_of_prefix query : forall text,
  ci_prefix query text = true -> like_chars (query ++ [37%N]) text = true.
Proof.
  induction query as [|c query IH]; intros text Hpre.
  - apply like_chars_only_percent.
  - cbn [ci_prefix] in Hpre. destruct text as [|d text]; [discriminate|].
    apply andb_true_iff in Hpre as [Hc Hrest]. cbn [app].
    destruct (c =? 37)%N eqn:Hpercent.
    + apply N.eqb_eq in Hpercent. subst c.
      rewrite like_chars_percent, (like_chars_percent _ text), (IH _ Hrest).
      now rewrite orb_true_r.
    + rewrite like_chars_literal by exact Hpercent.
      rewrite Hc, (IH _ Hrest). now rewrite orb_true_r.
Qed.

Lemma like_chars_of_contains query text :
  ci_contains query text = true ->
  like_chars (37%N :: query ++ [37%N]) text = true.
Proof.
  induction text as [|d text IH]; intros H; rewrite like_chars_percent.
  - cbn [ci_contains] in H. rewrite orb_false_r in H.
    now rewrite (like_chars_of_prefix _ _ H).
  - cbn [ci_contains] in H. apply orb_true_iff in H as [H|H].
    + now rewrite (like_chars_of_prefix _ _ H).
    + rewrite (IH H). apply orb_true_r.
Qed.

(** *** Decoding *)

Lemma replace_invalid_high c : (128 <= replace_invalid c)%N.
Proof.
  unfold replace_invalid.
  destruct (c <? 128)%N eqn:E; cbn [orb]; [lia|].
  apply N.ltb_ge in E.
  destruct (_ || _); lia.
Qed.

Lemma c_string_nul_free s : nul_free s = true -> c_string s = s.
Proof.
  induction s as [|b s IH]; [reflexivity|]. cbn [nul_free c_string].
  intros H. apply andb_true_iff in H as [Hb Hs].
  apply negb_true_iff in Hb. rewrite Hb. now rewrite IH.
Qed.

Lemma nul_free_c_string s : nul_free (c_string s) = true.
Proof.
  induction s as [|b s IH]; [reflexivity|]. cbn [c_string].
  destruct (Ascii.eqb b "000") eqn:E; [reflexivity|].
  cbn [nul_free]. now rewrite E, IH.
Qed.

Lemma nul_free_snoc_percent s :
  nul_free (s ++ "%")%string = nul_free s.
Proof.
  induction s as [|b s IH]; [reflexivity|].
  change (nul_free (String b (s ++ "%")%string) = nul_free (String b s)).
  cbn [nul_free]. now rewrite IH.
Qed.

Lemma utf8_chars_snoc_percent s : forall pending,
  utf8_chars pending (s ++ "%")%string = utf8_chars pending s ++ [37%N].
Proof.
  induction s as [|b s IH]; intros pending.
  - destruct pending; reflexivity.
  - change (utf8_chars pending (String b (s ++ "%")%string) =
            utf8_chars pending (String b s) ++ [37%N]).
    cbn [utf8_chars].
    destruct pending as [c|], (is_continuation b), (is_lead b);
      rewrite ?IH; reflexivity.
Qed.


Lemma characters_pattern query :
  nul_free query = true ->
  characters ("%" ++ query ++ "%")%string = 37%N :: utf8_chars None query ++ [37%N].
Proof.
  intros Hnul. unfold characters.
  change ("%" ++ query ++ "%")%string with (String "%" (query ++ "%")%string).
  rewrite c_string_nul_free
    by (cbn [nul_free]; now rewrite nul_free_snoc_percent).
  cbn [utf8_chars]. change (is_lead "%") with false. cbn iota.
  change (N_of_ascii "%") with 37%N.
  now rewrite utf8_chars_snoc_percent.
Qed.


Lemma like_of_contains query text :
  nul_free query = true ->
  contains query text = true -> like ("%" ++ query ++ "%")%string text = true.
Proof.
  intros Hnul H. unfold like. rewrite characters_pattern by exact Hnul.
  now apply like_chars_of_contains.
Qed.

(** *** A query with a NUL character occurs in no text *)

Lemma same_character_nul d : same_character 0 d = true -> d = 0%N.
Proof.
  unfold same_character. intros H. apply orb_true_iff in H as [H|H].
  - apply N.eqb_eq in H. auto.
  - apply andb_true_iff in H as [_ H]. apply N.eqb_eq in H.
    change (fold_case 0) with 0%N in H. unfold fold_case in H.
    destruct ((65 <=? d) && (d <=? 90))%N; lia.
Qed.

Lemma ci_prefix_In needle : forall text c,
  ci_prefix needle text = true -> In c needle ->
  exists d, In d text /\ same_character c d = true.
Proof.
  induction needle as [|a needle IH]; intros text c Hpre [].
  - subst a. cbn [ci_prefix] in Hpre. destruct text as [|d text];
      [discriminate|].
    apply andb_true_iff in Hpre as [Hd _]. exists d. split; [now left|auto].
  - cbn [ci_prefix] in Hpre. destruct text as [|d text]; [discriminate|].
    apply andb_true_iff in Hpre as [_ Hrest].
    destruct (IH text c Hrest H) as (d' & Hin & Hd').
    exists d'. split; [now right|auto].
Qed.

Lemma ci_contains_In needle text c :
  ci_contains needle text = true -> In c needle ->
  exists d, In d text /\ same_character c d = true.
Proof.
  induction text as [|d text IH]; cbn [ci_contains]; intros H Hc.
  - rewrite orb_false_r in H. now apply (ci_prefix_In needle).
  - apply orb_true_iff in H as [H|H].
    + now apply (ci_prefix_In needle).
    + destruct (IH H Hc) as (d' & Hin & Hd'). exists d'. split;
        [now right|auto].
Qed.

Lemma utf8_chars_nul s : forall pending,
  nul_free s = false -> In 0%N (utf8_chars pending s).
Proof.
  induction s as [|b s IH]; intros pending H; [discriminate|].
  cbn [nul_free] in H. cbn [utf8_chars].
  destruct (Ascii.eqb b "000") eqn:E.
  - apply Ascii.eqb_eq in E. subst b.
    change (is_lead "000") with false. change (is_continuation "000") with false.
    destruct pending; cbn; auto.
  - cbn [negb andb] in H.
    destruct pending as [c|], (is_continuation b), (is_lead b);
      cbn [In]; auto.
Qed.

Lemma utf8_chars_no_nul s : forall pending,
  nul_free s = true -> ~ In 0%N (utf8_chars pending s).
Proof.
  assert (Hhigh : forall c, 0%N <> replace_invalid c).
  { intros c. pose proof (replace_invalid_high c). lia. }
  induction s as [|b s IH]; intros pending H.
  - destruct pending; cbn; [|tauto]. intros [E|[]]. now apply (Hhigh n).
  - cbn [nul_free] in H. apply andb_true_iff in H as [Hb Hs].
    apply negb_true_iff in Hb.
    assert (Hbyte : N_of_ascii b <> 0%N).
    { intros E. apply (f_equal ascii_of_N) in E.
      rewrite ascii_N_embedding in E. subst b. discriminate Hb. }
    cbn [utf8_chars].
    destruct pending as [c|], (is_continuation b), (is_lead b);
      cbn [In]; intros Hin;
      repeat match goal with
             | H : _ \/ _ |- _ => destruct H
             end;
      try (eapply IH; eassumption); try (eapply Hhigh; eassumption);
      congruence.
Qed.

Lemma contains_nul query text :
  nul_free query = false -> contains query text = false.
Proof.
  intros Hnul. apply not_true_is_false. intros H. unfold contains in H.
  destruct (ci_contains_In _ _ 0%N H) as (d & Hin & Hd).
  { now apply utf8_chars_nul. }
  apply same_character_nul in Hd. subst d.
  revert Hin. apply utf8_chars_no_nul, nul_free_c_string.
Qed.

(** *** The statement *)

Lemma length_append (a b : string) :
  String.length (a ++ b)%string = (String.length a + String.length b)%nat.
Proof.
  induction a as [|c a IH]; [reflexivity|].
  change (String.length (String c (a ++ b)%string) =
          (String.length (String c a) + String.length b)%nat).
  cbn [String.length]. now rewrite IH.
Qed.

Lemma pattern_limit query :
  pattern_too_complex ("%" ++ query ++ "%")%string = negb (within_pattern_limit query).
Proof.
  unfold pattern_too_complex, within_pattern_limit.
  change ("%" ++ query ++ "%")%string with (String "%" (query ++ "%")%string).
  cbn [String.length]. rewrite length_append. cbn [String.length].
  destruct (N.ltb_spec 50000 (N.of_nat (S (String.length query + 1)))),
    (N.leb_spec (N.of_nat (String.length query)) 49998);
    try reflexivity; lia.
Qed.

Lemma search_matches_accepted pattern p :
  pattern_too_complex pattern = false ->
  search_matches pattern pattern pattern p = Some (selected_by pattern p).
Proof.
  intros H. unfold search_matches, selected_by, like_column. rewrite H.
  destruct (p_published p =? 1)%Z; [|reflexivity]. cbn [andb].
  destruct (like pattern (p_title p)); [reflexivity|].
  destruct (like pattern (p_content p)); reflexivity.
Qed.

Lemma search_matches_refused pattern p :
  pattern_too_complex pattern = true ->
  search_matches pattern pattern pattern p =
    if (p_published p =? 1)%Z then None else Some false.
Proof.
  intros H. unfold search_matches, like_column. now rewrite H.
Qed.

Lemma select_where_total {A} (f : A -> bool) condition rows :
  (forall r, condition r = Some (f r)) ->
  select_where condition rows = Some (List.filter f rows).
Proof.
  intros H. induction rows as [|r rows IH]; [reflexivity|].
  cbn [select_where List.filter]. rewrite H, IH. reflexivity.
Qed.

Lemma select_where_refused (rows : list Post) condition :
  (forall p, condition p = if (p_published p =? 1)%Z then None
                           else Some false) ->
  select_where condition rows =
    if existsb (fun p => (p_published p =? 1)%Z) rows then None else Some [].
Proof.
  intros H. induction rows as [|r rows IH]; [reflexivity|].
  cbn [select_where existsb]. rewrite H.
  destruct (p_published r =? 1)%Z; [reflexivity|]. cbn [orb].
  rewrite IH. now destruct (existsb _ rows).
Qed.

Lemma search_run query w :
  within_pattern_limit query = true ->
  postService.search query w =
  (Returned (map (fun p => mkPostWithRelations p
                    (select_categories_of_post (p_id p) (db w))
                    (select_tags_of_post (p_id p) (db w))
                    (List.find (fun u => u_id u =? p_author_id p)
                               (users (db w))))
               (order_by_created_at_desc
                  (List.filter (selected_by ("%" ++ query ++ "%")%string)
                     (posts (db w))))), w).
Proof.
  intros Hfits. unfold postService.search, select_posts_like.
  rewrite !bind_run. cbn [get_db].
  rewrite (select_where_total (selected_by ("%" ++ query ++ "%")%string)).
  - apply map_with_relations_run.
  - intros p. apply search_matches_accepted.
    rewrite pattern_limit. now rewrite Hfits.
Qed.

Lemma found_search query w :
  within_pattern_limit query = true ->
  found (postService.search query w) =
  order_by_created_at_desc
    (List.filter (selected_by ("%" ++ query ++ "%")%string) (posts (db w))).
Proof.
  intros Hfits. rewrite search_run by exact Hfits. unfold found. cbn [fst].
  apply map_post_with_relations.
Qed.

Lemma search_run_refused query w :
  within_pattern_limit query = false ->
  postService.search query w =
    (if some_published (db w) then Thrown (SqliteError SQLITE_ERROR)
     else Returned [], w).
Proof.
  intros Hlong. unfold postService.search, select_posts_like, some_published.
  rewrite !bind_run. cbn [get_db].
  rewrite (select_where_refused (posts (db w))).
  - destruct (existsb _ _); reflexivity.
  - intros p. apply search_matches_refused.
    rewrite pattern_limit. now rewrite Hlong.
Qed.


(** The specification's example: the draft ["p2"] has "Next" in its title
    and is not returned, being unpublished. *)
Example search_next_excludes_draft :
  contains "next" (p_title Sample.draft) = true /\
  found (postService.search "next" Sample.world) = [] /\
  found (postService.search "WORLD" Sample.world) = [Sample.hello].
Proof. repeat split; vm_compute; reflexivity. Qed.




(** A query that starts with a NUL character ends the pattern after its
    first [%], which matches every text; a title is searched up to its
    first NUL character only; a query of 50000 characters makes a pattern
    the engine refuses. *)
Example search_nul_and_length :
  found (postService.search (String "000" "zzz") Sample.world)
    = [Sample.hello] /\
  like "%needle%" (String "a" (String "000" "needle")) = false /\
  fst (postService.search (repeat_text 500 (repeat_text 100 "a"))
         Sample.world)
    = Thrown (SqliteError SQLITE_ERROR).
Proof. repeat split; vm_compute; reflexivity. Qed.

(** ** Creates that violate a uniqueness constraint *)

Lemma user_create_conflict email name password w :
  has_user (uuid_source w (draws w)) (db w) = false ->
  existsb (fun u => u_email u =? email) (users (db w)) = true ->
  exists w1,
    userService.create email name password w =
      (Thrown (SqliteError SQLITE_CONSTRAINT_UNIQUE), w1) /\
    db w1 = db w.
Proof.
  intros Hfresh Htaken. unfold userService.create, insert_user.
  unfold has_user, has_category, has_tag, bind, uuidv4, CURRENT_TIMESTAMP,
    get_db in *.
  destruct w as [d us dr dn ct tk]. cbn in *.
  rewrite Hfresh, Htaken. eexists. split; reflexivity.
Qed.

Lemma category_create_conflict name description color w :
  has_category (uuid_source w (draws w)) (db w) = false ->
  existsb (fun c => (c_name c =? name) || (c_slug c =? generateSlug name))
    (categories (db w)) = true ->
  exists w1,
    categoryService.create name description color w =
      (Thrown (SqliteError SQLITE_CONSTRAINT_UNIQUE), w1) /\
    db w1 = db w.
Proof.
  intros Hfresh Htaken. unfold categoryService.create, insert_category.
  unfold has_user, has_category, has_tag, bind, uuidv4, CURRENT_TIMESTAMP,
    get_db in *.
  destruct w as [d us dr dn ct tk]. cbn in *.
  rewrite Hfresh, Htaken. eexists. split; reflexivity.
Qed.

Lemma tag_create_conflict name w :
  has_tag (uuid_source w (draws w)) (db w) = false ->
  existsb (fun t => (t_name t =? name) || (t_slug t =? generateSlug name))
    (tags (db w)) = true ->
  exists w1,
    tagService.create name w =
      (Thrown (SqliteError SQLITE_CONSTRAINT_UNIQUE), w1) /\
    db w1 = db w.
Proof.
  intros Hfresh Htaken. unfold tagService.create, insert_tag.
  unfold has_user, has_category, has_tag, bind, uuidv4, CURRENT_TIMESTAMP,
    get_db in *.
  destruct w as [d us dr dn ct tk]. cbn in *.
  rewrite Hfresh, Htaken. eexists. split; reflexivity.
Qed.

Lemma post_create_conflict input w :
  has_post (uuid_source w (draws w)) (db w) = false ->
  existsb (fun p => p_slug p =? in_slug input) (posts (db w)) = true ->
  exists w1,
    postService.create input w =
      (Thrown (SqliteError SQLITE_CONSTRAINT_UNIQUE), w1) /\
    db w1 = db w.
Proof.
  intros Hfresh Htaken. unfold postService.create, insert_post.
  unfold has_post, bind, uuidv4, CURRENT_TIMESTAMP, new_Date_toISOString,
    get_db, ret in *.
  destruct w as [d us dr dn ct tk].
  destruct (in_published input) as [[|]|]; cbn in *;
    rewrite Hfresh, Htaken; eexists; split; reflexivity.
Qed.

(** C7 (amended).  For every create of a user, category, tag or post that
    violates a uniqueness constraint on email, name or slug, the service
    throws the storage engine's own constraint error and stores nothing;
    the HTTP boundary does not tell it from other failures: the categories
    and tags routes answer it, like every error, with their one generic
    500 payload. *)
Theorem create_conflict_is_generic_failure r w :
  fresh_id r w = true ->
  violates_unique r (db w) = true ->
  conflict_outcome r w.
Proof.
  intros Hfresh Htaken. unfold conflict_outcome.
  assert (Hserve : exists w1,
            serve r w = (Thrown (SqliteError SQLITE_CONSTRAINT_UNIQUE), w1) /\
            db w1 = db w).
  { destruct r as [email name password|name description color|name|input];
      cbn [fresh_id violates_unique] in Hfresh, Htaken;
      apply negb_true_iff in Hfresh; cbn [serve]; rewrite bind_run.
    - destruct (user_create_conflict email name password w Hfresh Htaken)
        as (w1 & -> & Hdb). now exists w1.
    - destruct (category_create_conflict name description color w Hfresh
                  Htaken) as (w1 & -> & Hdb). now exists w1.
    - destruct (tag_create_conflict name w Hfresh Htaken)
        as (w1 & -> & Hdb). now exists w1.
    - destruct (post_create_conflict input w Hfresh Htaken)
        as (w1 & -> & Hdb). now exists w1. }
  destruct Hserve as (w1 & Hrun & Hdb). rewrite Hrun.
  split; [reflexivity|]. split; [exact Hdb|].
  split; [|split; intros e; reflexivity].
  intros route Hroute Hname.
  destruct r as [email name password|name description color|name|input];
    cbn [handler] in Hroute; try discriminate;
    injection Hroute as <-; cbn [required_name] in Hname;
    cbn [fresh_id violates_unique] in Hfresh, Htaken;
    apply negb_true_iff in Hfresh.
  - unfold categories_route.POST, try_catch.
    cbn [categories_route.name categories_route.description
         categories_route.color].
    destruct name as [|c name]; [contradiction|]. cbn [or_null].
    rewrite bind_run.
    destruct (category_create_conflict (String c name) description color w
                Hfresh Htaken) as (w2 & -> & Hdb2).
    split; [reflexivity|exact Hdb2].
  - unfold tags_route.POST, try_catch.
    destruct name as [|c name]; [contradiction|]. cbn [or_null].
    rewrite bind_run.
    destruct (tag_create_conflict (String c name) w Hfresh Htaken)
      as (w2 & -> & Hdb2).
    split; [reflexivity|exact Hdb2].
Qed.

(** The conflict at work: a second category named ["Tech"]. *)
Lemma create_conflict_is_generic_failure_witness :
  fresh_id (Create_category "Tech" None None) Sample.world = true /\
  violates_unique (Create_category "Tech" None None) (db Sample.world) = true /\
  conflict_outcome (Create_category "Tech" None None) Sample.world.
Proof.
  split; [reflexivity|]. split; [reflexivity|].
  apply (create_conflict_is_generic_failure
           (Create_category "Tech" None None) Sample.world); reflexivity.
Defined.

(** C7 as stated fails: a second category named ["Tech"] makes the service
    throw the unique-constraint error, and the route answers with the
    payload it has for every failure, a storage fault included. *)
Lemma category_conflict_gets_generic_500 :
  fst (categoryService.create "Tech" None None Sample.world) =
    Thrown (SqliteError SQLITE_CONSTRAINT_UNIQUE) /\
  fst (categories_route.POST
         (categories_route.mkBody (Some "Tech") None None) Sample.world) =
    Returned (categories_route.on_error (SqliteError SQLITE_IOERR)) /\
  ~ distinguishes_conflict categories_route.on_error /\
  ~ distinguishes_conflict tags_route.on_error.
Proof.
  split; [reflexivity|]. split; [reflexivity|].
  split; intros H;
    apply (H (SqliteError SQLITE_CONSTRAINT_UNIQUE) (SqliteError SQLITE_IOERR));
    reflexivity.
Qed.

(** ** Reading time *)

Lemma calculateReadingTime_positive content : 0 < calculateReadingTime content.
Proof. unfold calculateReadingTime. lia. Qed.

Lemma estimate_positive_integer content :
  positive_integer (integer (calculateReadingTime content)) = true.
Proof.
  unfold positive_integer, integer, integer_value.
  rewrite Z.mod_1_r, Z.div_1_r. cbn [Z.eqb].
  apply Z.ltb_lt, calculateReadingTime_positive.
Qed.

(** The specification's example: 400 words read in 2 minutes. *)
Example calculateReadingTime_400_words :
  calculateReadingTime (repeat_text 400 "word ") = 2 /\
  calculateReadingTime "" = 1.
Proof. split; vm_compute; reflexivity. Qed.

Lemma insert_post_run id title slug content excerpt cover published featured
    reading author published_at w :
  (exists e w', insert_post id title slug content excerpt cover published
                  featured reading author published_at w = (Thrown e, w') /\
                db w' = db w) \/
  (exists row w', insert_post id title slug content excerpt cover published
                    featured reading author published_at w = (Returned tt, w')
                  /\ db w' = set_posts (posts (db w) ++ [row]) (db w)
                  /\ p_reading_time row = reading).
Proof.
  unfold insert_post, bind, CURRENT_TIMESTAMP, get_db. cbn [db].
  destruct (has_post id (db w)); [left; eexists _, _; split; reflexivity|].
  destruct (existsb _ (posts (db w)));
    [left; eexists _, _; split; reflexivity|].
  destruct (negb (has_user author (db w)));
    [left; eexists _, _; split; reflexivity|].
  right. eexists _, _. split; [reflexivity|]. split; reflexivity.
Qed.

Lemma create_posts_table input w :
  posts (db (snd (postService.create input w))) = posts (db w) \/
  exists row,
    posts (db (snd (postService.create input w))) = posts (db w) ++ [row] /\
    p_reading_time row =
      match in_reading_time input with
      | Some n => if truthy_num (Some n) then n
                  else integer (calculateReadingTime (in_content input))
      | None => integer (calculateReadingTime (in_content input))
      end.
Proof.
  unfold postService.create. rewrite bind_run. cbn [uuidv4].
  set (w0 := mkWorld _ _ _ _ _ _). set (id := uuid_source w (draws w)).
  rewrite bind_run.
  assert (Hstage : exists pa w1,
            (if (flag (in_published input) =? 1)%Z
             then now <- new_Date_toISOString ;; ret (Some now)
             else ret None) w0 = (Returned pa, w1) /\ db w1 = db w).
  { destruct (flag (in_published input) =? 1)%Z; eexists _, _;
      split; reflexivity. }
  destruct Hstage as (pa & w1 & -> & Hdb1). rewrite bind_run.
  set (reading := if truthy_num (in_reading_time input)
                  then default NaN (in_reading_time input)
                  else integer (calculateReadingTime (in_content input))).
  assert (Hreading : reading =
            match in_reading_time input with
            | Some n => if truthy_num (Some n) then n
                        else integer (calculateReadingTime (in_content input))
            | None => integer (calculateReadingTime (in_content input))
            end).
  { subst reading. now destruct (in_reading_time input) as [n|]. }
  destruct (insert_post_run id (in_title input) (in_slug input)
              (in_content input) (or_null (in_excerpt input))
              (or_null (in_cover_image input)) (flag (in_published input))
              (flag (in_featured input)) reading (in_author_id input) pa w1)
    as [(e & w2 & -> & Hdb2) | (row & w2 & -> & Hdb2 & Hrow)].
  - left. cbn [snd]. now rewrite Hdb2, Hdb1.
  - right. exists row. split; [|now rewrite Hrow].
    assert (Htail : forall (rest : M (option PostWithRelations)),
              keeps posts rest ->
              posts (db (snd (rest w2))) = posts (db w) ++ [row]).
    { intros rest Hrest. rewrite Hrest, Hdb2. cbn [posts set_posts].
      now rewrite Hdb1. }
    apply Htail.
    apply keeps_bind.
    { destruct (in_categories input) as [[|c cs]|]; try apply keeps_ret.
      apply keeps_for_of. intros x. now apply keeps_insert_post_category. }
    intros _. apply keeps_bind.
    { destruct (in_tags input) as [[|t ts]|]; try apply keeps_ret.
      apply keeps_for_of. intros x. now apply keeps_insert_post_tag. }
    intros _. apply keeps_findById.
Qed.

Lemma invoke_posts {A} (m : M A) w :
  posts (db (snd ((m ;;; ret tt) w))) = posts (db (snd (m w))).
Proof. rewrite bind_run. now destruct (m w) as [[a|e] w']. Qed.

Lemma update_keeps_positive input w :
  reading_times_positive (db w) ->
  reading_times_positive (db (snd (postService.update input w))).
Proof.
  intros Hpos p. rewrite update_posts_table. unfold posts_after_update.
  destruct (select_post_by_id (up_id input) (db w)) as [old|]; [|apply Hpos].
  destruct (update_accepted input old (db w)); [|apply Hpos].
  intros Hin. apply in_map_iff in Hin as (o & <- & Hin).
  destruct (p_id o =? up_id input); [|now apply Hpos].
  unfold updated_row. cbn [p_reading_time].
  destruct (up_content input); [apply estimate_positive_integer|].
  now apply Hpos.
Qed.

(** C8 (amended).  The stored reading time of every post stays a positive
    integer under every call of the post service, provided every reading
    time supplied to [create] is a positive integer or falsy ([0] or [NaN]):
    the estimate (word count over the reading speed, with a floor of one
    minute) is positive; [create] stores the estimate of the content unless
    a truthy reading time is supplied, which it stores as given, be it
    negative, a fraction or an infinity; an accepted [update] stores the
    estimate of the new content exactly when the content field is present
    and keeps the stored value otherwise. *)
Theorem reading_time_positive_and_recomputed call w :
  supplied_reading_time_ok call = true ->
  reading_times_positive (db w) ->
  reading_time_rule call w.
Proof.
  intros Hok Hpos. unfold reading_time_rule.
  split; [apply calculateReadingTime_positive|].
  destruct call as [input|input|id|id]; cbn [invoke reading_time_recomputed].
  - assert (Hrows := create_posts_table input w).
    rewrite <- (invoke_posts (postService.create input) w) in Hrows.
    split; [|exact Hrows].
    intros p Hin. destruct Hrows as [Heq|(row & Heq & Hrow)];
      rewrite Heq in Hin; [now apply Hpos|].
    apply in_app_or in Hin as [Hin|[<-|[]]]; [now apply Hpos|].
    rewrite Hrow. cbn [supplied_reading_time_ok] in Hok.
    destruct (in_reading_time input) as [n|];
      [|apply estimate_positive_integer].
    destruct (truthy_num (Some n)); [|apply estimate_positive_integer].
    exact Hok.
  - split.
    + intros p. rewrite invoke_posts. now apply update_keeps_positive.
    + intros old Hsel. unfold select_post_by_id at 1. rewrite invoke_posts.
      fold (select_post_by_id (up_id input)
              (db (snd (postService.update input w)))).
      fold (row_after (postService.update input) w (up_id input)).
      rewrite (update_row input w old Hsel). eexists. split; [reflexivity|].
      split.
      * intros -> content Hcontent. unfold updated_row.
        cbn [p_reading_time]. now rewrite Hcontent.
      * intros Habsent. destruct (update_accepted input old (db w));
          [|reflexivity].
        unfold updated_row. cbn [p_reading_time]. now rewrite Habsent.
  - assert (Hsub : forall p', In p' (posts (db (snd (postService.delete id w))))
                     -> In p' (posts (db w))).
    { intros p' Hin. cbn in Hin. now apply filter_In in Hin as [Hin _]. }
    split.
    + intros p Hin. apply Hpos. now apply Hsub.
    + intros p' Hin. exists p'. split; [now apply Hsub|reflexivity].
  - assert (Hsame : forall p',
              In p' (posts (db (snd (postService.incrementViews id w)))) ->
              exists p, In p (posts (db w)) /\
                        p_reading_time p' = p_reading_time p).
    { intros p' Hin. cbn in Hin. apply in_map_iff in Hin as (o & <- & Hin).
      exists o. split; [exact Hin|]. now destruct (p_id o =? id). }
    split; [|exact Hsame].
    intros p' Hin. destruct (Hsame p' Hin) as (p & Hp & ->). now apply Hpos.
Qed.

Lemma sample_reading_times_positive :
  reading_times_positive (db Sample.world).
Proof.
  intros p [<-|[<-|[]]]; reflexivity.
Qed.

(** The rule at work: the content of ["p1"] is replaced. *)
Lemma reading_time_positive_and_recomputed_witness :
  supplied_reading_time_ok (Call_update Inputs.rewrite_content) = true /\
  reading_times_positive (db Sample.world) /\
  reading_time_rule (Call_update Inputs.rewrite_content) Sample.world.
Proof.
  split; [reflexivity|]. split; [exact sample_reading_times_positive|].
  apply (reading_time_positive_and_recomputed
           (Call_update Inputs.rewrite_content) Sample.world);
    [reflexivity|exact sample_reading_times_positive].
Defined.

(** C8 as stated fails: [create] stores the supplied reading time [-5] as
    given, so a stored reading time is not always positive. *)
Lemma create_stores_supplied_reading_time :
  map p_reading_time
    (posts (db (snd (postService.create Inputs.negative_estimate
                       Sample.world)))) =
    [integer 1; integer 1; integer (-5)] /\
  ~ reading_time_stays_positive (Call_create Inputs.negative_estimate)
      Sample.world.
Proof.
  split; [reflexivity|]. intros H.
  specialize (H sample_reading_times_positive).
  assert (Hin : exists p,
            In p (posts (db (snd (invoke (Call_create Inputs.negative_estimate)
                                    Sample.world)))) /\
            p_reading_time p = integer (-5)).
  { eexists. split; [right; right; left; reflexivity|reflexivity]. }
  destruct Hin as (p & Hin & Hp). apply H in Hin. rewrite Hp in Hin.
  discriminate Hin.
Qed.

(** A supplied fraction is stored as given, too. *)
Example create_stores_supplied_fraction :
  map p_reading_time
    (posts (db (snd (postService.create Cases.fractional_estimate
                       Sample.world)))) =
    [integer 1; integer 1; Ratio 5 2] /\
  positive_integer (Ratio 5 2) = false.
Proof. split; reflexivity. Qed.

(** ** The slug generator *)

Lemma eqb_hyphen c : Ascii.eqb c hyphen = true <-> c = hyphen.
Proof. apply Ascii.eqb_eq. Qed.

Lemma is_alnum_hyphen : is_alnum hyphen = false.
Proof. reflexivity. Qed.

Lemma lower_alnum c : is_alnum c = true -> lower c = c.
Proof.
  unfold is_alnum, lower, is_upper, is_lower, is_digit. intros H.
  destruct ((65 <=? nat_of_ascii c)%nat && (nat_of_ascii c <=? 90)%nat)
    eqn:E; [|reflexivity].
  exfalso. apply andb_true_iff in E as [E1 E2].
  apply Nat.leb_le in E1, E2.
  apply orb_true_iff in H as [H|H]; apply andb_true_iff in H as [H1 H2];
    apply Nat.leb_le in H1, H2; lia.
Qed.

Lemma lower_slug_char c : is_slug_char c = true -> lower c = c.
Proof.
  unfold is_slug_char. intros H. apply orb_true_iff in H as [H|H].
  - now apply lower_alnum.
  - apply eqb_hyphen in H. now subst.
Qed.

Lemma collapse_chars s : forall in_run,
  forallb is_slug_char (collapse in_run s) = true.
Proof.
  induction s as [|c s IH]; intros in_run; [reflexivity|].
  cbn [collapse]. destruct (is_alnum c) eqn:E.
  - cbn [forallb]. unfold is_slug_char at 1. now rewrite E, IH.
  - destruct in_run; [apply IH|]. cbn [forallb]. now rewrite IH.
Qed.

Lemma collapse_leading s : leading_hyphen (collapse true s) = false.
Proof.
  induction s as [|c s IH]; [reflexivity|].
  cbn [collapse]. destruct (is_alnum c) eqn:E; [|exact IH].
  cbn [leading_hyphen]. apply not_true_is_false. intros H.
  apply eqb_hyphen in H. subst. discriminate E.
Qed.

Lemma collapse_no_double s : forall in_run,
  no_double_hyphen (collapse in_run s) = true.
Proof.
  induction s as [|c s IH]; intros in_run; [reflexivity|].
  cbn [collapse]. destruct (is_alnum c) eqn:E.
  - cbn [no_double_hyphen]. rewrite IH.
    assert (Ascii.eqb c hyphen = false) as ->; [|reflexivity].
    apply not_true_is_false. intros H. apply eqb_hyphen in H. subst.
    discriminate E.
  - destruct in_run; [apply IH|]. cbn [no_double_hyphen].
    now rewrite collapse_leading, IH, andb_false_r.
Qed.

(** [strip_leading] removes a run of hyphens from the front. *)
Lemma strip_leading_split s :
  exists k, s = repeat hyphen k ++ strip_leading s /\
            leading_hyphen (strip_leading s) = false.
Proof.
  induction s as [|c s (k & Hk & Hlead)].
  - exists 0%nat. split; reflexivity.
  - cbn [strip_leading]. destruct (Ascii.eqb c hyphen) eqn:E.
    + apply eqb_hyphen in E. subst c. exists (S k). split; [|exact Hlead].
      cbn [repeat app]. now rewrite <- Hk.
    + exists 0%nat. split; [reflexivity|exact E].
Qed.

(** [strip_trailing] removes a run of hyphens from the back. *)
Lemma strip_trailing_split s :
  exists k, s = strip_trailing s ++ repeat hyphen k /\
            trailing_hyphen (strip_trailing s) = false.
Proof.
  unfold strip_trailing, trailing_hyphen.
  destruct (strip_leading_split (rev s)) as (k & Hk & Hlead).
  exists k. split.
  - rewrite <- (rev_involutive s) at 1. rewrite Hk at 1.
    rewrite rev_app_distr. f_equal.
    clear. induction k as [|k IH]; [reflexivity|].
    cbn [repeat rev]. rewrite IH. clear.
    induction k as [|k IH]; [reflexivity|]. cbn [repeat app]. now rewrite IH.
  - rewrite rev_involutive. exact Hlead.
Qed.

Lemma forallb_app_inv {A} (f : A -> bool) l1 l2 :
  forallb f (l1 ++ l2) = true -> forallb f l1 = true /\ forallb f l2 = true.
Proof. rewrite forallb_app. apply andb_true_iff. Qed.

Lemma leading_hyphen_app s t :
  leading_hyphen s = true -> leading_hyphen (s ++ t) = true.
Proof. destruct s; [discriminate|]. auto. Qed.

Lemma no_double_hyphen_app s t :
  no_double_hyphen (s ++ t) = true ->
  no_double_hyphen s = true /\ no_double_hyphen t = true.
Proof.
  induction s as [|c s IH]; [now split|].
  cbn [app no_double_hyphen]. intros H.
  apply andb_true_iff in H as [H1 H2]. destruct (IH H2) as [Hs Ht].
  split; [|exact Ht]. rewrite Hs, andb_true_r.
  apply negb_true_iff. apply negb_true_iff in H1.
  apply andb_false_iff in H1 as [H1|H1]; [now rewrite H1|].
  destruct (leading_hyphen s) eqn:E; [|apply andb_false_r].
  rewrite (leading_hyphen_app s t E) in H1. discriminate.
Qed.

Lemma slugify_shaped s : slug_shaped (slugify s) = true.
Proof.
  unfold slugify. set (C := collapse false (map lower s)).
  destruct (strip_leading_split C) as (k1 & HC & Hlead).
  set (L := strip_leading C) in *.
  destruct (strip_trailing_split L) as (k2 & HL & Htrail).
  set (T := strip_trailing L) in *.
  assert (Hchars : forallb is_slug_char C = true) by apply collapse_chars.
  assert (Hdouble : no_double_hyphen C = true) by apply collapse_no_double.
  rewrite HC in Hchars, Hdouble.
  apply forallb_app_inv in Hchars as [_ Hchars].
  apply no_double_hyphen_app in Hdouble as [_ Hdouble].
  rewrite HL in Hchars, Hdouble, Hlead.
  apply forallb_app_inv in Hchars as [Hchars _].
  apply no_double_hyphen_app in Hdouble as [Hdouble _].
  unfold slug_shaped. rewrite Hchars, Hdouble, Htrail.
  destruct (leading_hyphen T) eqn:E; [|reflexivity].
  rewrite (leading_hyphen_app T _ E) in Hlead. discriminate.
Qed.

Lemma map_lower_slug s : forallb is_slug_char s = true -> map lower s = s.
Proof.
  induction s as [|c s IH]; [reflexivity|]. cbn [forallb map]. intros H.
  apply andb_true_iff in H as [Hc Hs]. now rewrite lower_slug_char, IH.
Qed.

Lemma collapse_slug s : forall in_run,
  forallb is_slug_char s = true ->
  no_double_hyphen s = true ->
  (in_run = true -> leading_hyphen s = false) ->
  collapse in_run s = s.
Proof.
  induction s as [|c s IH]; intros in_run Hchars Hdouble Hrun; [reflexivity|].
  cbn [forallb] in Hchars. apply andb_true_iff in Hchars as [Hc Hchars].
  cbn [no_double_hyphen] in Hdouble.
  apply andb_true_iff in Hdouble as [Hcd Hdouble].
  cbn [collapse]. destruct (is_alnum c) eqn:E.
  - f_equal. apply IH; try assumption. discriminate.
  - unfold is_slug_char in Hc. rewrite E in Hc. cbn [orb] in Hc.
    destruct in_run.
    + specialize (Hrun eq_refl). cbn [leading_hyphen] in Hrun. congruence.
    + apply eqb_hyphen in Hc as ->. f_equal. apply IH; try assumption.
      intros _. apply negb_true_iff in Hcd.
      now rewrite Ascii.eqb_refl in Hcd.
Qed.

Lemma strip_leading_slug s : leading_hyphen s = false -> strip_leading s = s.
Proof.
  destruct s as [|c s]; [reflexivity|]. cbn [leading_hyphen strip_leading].
  now intros ->.
Qed.

Lemma slugify_slug s : slug_shaped s = true -> slugify s = s.
Proof.
  unfold slug_shaped. intros H.
  apply andb_true_iff in H as [H Htrail].
  apply andb_true_iff in H as [H Hlead].
  apply andb_true_iff in H as [Hchars Hdouble].
  apply negb_true_iff in Hlead, Htrail.
  unfold slugify. rewrite map_lower_slug by exact Hchars.
  rewrite collapse_slug by (try assumption; discriminate).
  rewrite strip_leading_slug by exact Hlead.
  unfold strip_trailing. unfold trailing_hyphen in Htrail.
  rewrite strip_leading_slug by exact Htrail. apply rev_involutive.
Qed.

(** *** The generator and the words of the text *)

Lemma strip_trailing_cons c s :
  Ascii.eqb c hyphen = false -> strip_trailing (c :: s) = c :: strip_trailing s.
Proof.
  intros Hc. unfold strip_trailing. cbn [rev].
  assert (H : forall l, strip_leading (l ++ [c]) = strip_leading l ++ [c]).
  { induction l as [|x l IH]; cbn [app strip_leading].
    - now rewrite Hc.
    - destruct (Ascii.eqb x hyphen); [exact IH|reflexivity]. }
  rewrite H, rev_app_distr. reflexivity.
Qed.

Lemma strip_trailing_hyphen s :
  strip_trailing (hyphen :: s) =
  match strip_trailing s with
  | [] => []
  | _ :: _ => hyphen :: strip_trailing s
  end.
Proof.
  unfold strip_trailing. cbn [rev].
  assert (H : forall l, strip_leading (l ++ [hyphen]) =
                        match strip_leading l with
                        | [] => []
                        | _ :: _ => strip_leading l ++ [hyphen]
                        end).
  { induction l as [|x l IH]; cbn [app strip_leading]; [reflexivity|].
    destruct (Ascii.eqb x hyphen); [exact IH|reflexivity]. }
  rewrite H. destruct (strip_leading (rev s)) as [|x l] eqn:E;
    [reflexivity|].
  rewrite rev_app_distr. cbn [rev app].
  destruct (rev l ++ [x]) eqn:E'; [|reflexivity].
  now apply app_eq_nil in E' as [_ [=]].
Qed.

Lemma pieces_cons s : exists piece others, pieces s = piece :: others.
Proof.
  destruct s as [|c s]; cbn [pieces]; [now eexists _, _|].
  destruct (is_alnum c); [|now eexists _, _].
  destruct (pieces s); now eexists _, _.
Qed.

Lemma words_separator c s : is_alnum c = false -> words (c :: s) = words s.
Proof. intros Hc. unfold words. cbn [pieces]. now rewrite Hc. Qed.

(** A word goes on while the characters are alphanumeric. *)
Lemma words_alnum c s :
  is_alnum c = true ->
  words (c :: s) =
  match s with
  | d :: _ =>
      if is_alnum d then
        match words s with
        | w :: rest => (c :: w) :: rest
        | [] => [[c]]
        end
      else [c] :: words s
  | [] => [[c]]
  end.
Proof.
  intros Hc. unfold words. cbn [pieces]. rewrite Hc.
  destruct s as [|d s]; [reflexivity|]. cbn [pieces].
  destruct (is_alnum d).
  - destruct (pieces s); reflexivity.
  - reflexivity.
Qed.

Lemma words_are_words s : forallb is_word (words s) = true.
Proof.
  unfold words. induction (pieces s) as [|p l IH]; [reflexivity|].
  cbn [List.filter]. destruct (is_word p) eqn:E; [|exact IH].
  cbn [forallb]. now rewrite E, IH.
Qed.

Lemma join_hyphen_nil ws :
  forallb is_word ws = true -> join_hyphen ws = [] -> ws = [].
Proof.
  destruct ws as [|w ws]; [reflexivity|]. cbn [forallb].
  intros H. apply andb_true_iff in H as [Hw _].
  destruct w as [|x w]; [discriminate|].
  destruct ws; discriminate.
Qed.

Lemma collapse_false_alnum d s :
  is_alnum d = true -> collapse false (d :: s) = collapse true (d :: s).
Proof. intros H. cbn [collapse]. now rewrite H. Qed.

Lemma is_alnum_not_hyphen c : is_alnum c = true -> Ascii.eqb c hyphen = false.
Proof.
  intros H. apply not_true_is_false. intros E. apply eqb_hyphen in E.
  subst c. discriminate H.
Qed.

(** Inside a run, the collapsed text without its trailing hyphen is the
    words joined by hyphens. *)
Lemma collapse_words s :
  strip_trailing (collapse true s) = join_hyphen (words s).
Proof.
  induction s as [|c s IH]; [reflexivity|].
  destruct (is_alnum c) eqn:Hc.
  - rewrite (words_alnum c s Hc). cbn [collapse]. rewrite Hc.
    rewrite strip_trailing_cons by now apply is_alnum_not_hyphen.
    destruct s as [|d s]; [reflexivity|].
    destruct (is_alnum d) eqn:Hd.
    + rewrite collapse_false_alnum, IH by exact Hd.
      pose proof (words_alnum d s Hd) as Hw.
      destruct (words (d :: s)) as [|w rest] eqn:E.
      * destruct s as [|e s]; [discriminate|].
        destruct (is_alnum e); [destruct (words (e :: s))|]; discriminate.
      * cbn [join_hyphen]. destruct rest; reflexivity.
    + rewrite words_separator in * by exact Hd.
      cbn [collapse]. rewrite Hd. rewrite strip_trailing_hyphen.
      cbn [collapse] in IH. rewrite Hd in IH. rewrite IH.
      pose proof (words_are_words s) as Hwords.
      destruct (words s) as [|w rest]; [reflexivity|].
      change (join_hyphen ([c] :: w :: rest))
        with (c :: hyphen :: join_hyphen (w :: rest)).
      destruct (join_hyphen (w :: rest)) eqn:E; [|reflexivity].
      now apply join_hyphen_nil in E.
  - rewrite (words_separator c s Hc). cbn [collapse]. now rewrite Hc.
Qed.

Lemma strip_leading_collapse s :
  strip_leading (collapse false s) = collapse true s.
Proof.
  destruct s as [|c s]; [reflexivity|]. cbn [collapse].
  destruct (is_alnum c) eqn:Hc.
  - cbn [strip_leading]. now rewrite is_alnum_not_hyphen.
  - cbn [strip_leading]. change (Ascii.eqb hyphen hyphen) with true. cbn iota.
    apply strip_leading_slug, collapse_leading.
Qed.

Lemma generateSlug_words text : generateSlug text = slug_of_words text.
Proof.
  unfold generateSlug, slug_of_words, slugify.
  now rewrite strip_leading_collapse, collapse_words.
Qed.

Lemma alnum_strip_leading s :
  List.filter is_alnum (strip_leading s) = List.filter is_alnum s.
Proof.
  induction s as [|c s IH]; [reflexivity|]. cbn [strip_leading].
  destruct (Ascii.eqb c hyphen) eqn:E; [|reflexivity].
  apply eqb_hyphen in E. subst c. cbn [List.filter].
  now rewrite is_alnum_hyphen.
Qed.

Lemma filter_rev {A} (f : A -> bool) l :
  List.filter f (rev l) = rev (List.filter f l).
Proof.
  induction l as [|x l IH]; [reflexivity|]. cbn [rev List.filter].
  rewrite List.filter_app, IH. cbn [List.filter].
  destruct (f x); [reflexivity|]. cbn [rev]. apply app_nil_r.
Qed.

Lemma alnum_strip_trailing s :
  List.filter is_alnum (strip_trailing s) = List.filter is_alnum s.
Proof.
  unfold strip_trailing.
  now rewrite filter_rev, alnum_strip_leading, filter_rev, rev_involutive.
Qed.

Lemma alnum_collapse s : forall in_run,
  List.filter is_alnum (collapse in_run s) = List.filter is_alnum s.
Proof.
  induction s as [|c s IH]; intros in_run; [reflexivity|].
  cbn [collapse List.filter]. destruct (is_alnum c) eqn:E.
  - cbn [List.filter]. now rewrite E, IH.
  - destruct in_run; [apply IH|]. cbn [List.filter].
    now rewrite is_alnum_hyphen, IH.
Qed.

(** The alphanumeric characters of the slug are those of the lower-cased
    text, in their order. *)
Lemma generateSlug_alnum text :
  List.filter is_alnum (list_ascii_of_string (generateSlug text)) =
  List.filter is_alnum (map lower (list_ascii_of_string text)).
Proof.
  unfold generateSlug, slugify.
  rewrite list_ascii_of_string_of_list_ascii.
  now rewrite alnum_strip_trailing, alnum_strip_leading, alnum_collapse.
Qed.

(** C9.  The slug generator is a function of its text alone.  Its output is
    the words of the lower-cased text, that is, its maximal runs of
    alphanumeric characters, joined by single hyphens: every run of blanks
    or punctuation between two words becomes one hyphen, and the runs
    before the first and after the last word disappear; the alphanumeric
    characters of the output are those of the lower-cased text, in their
    order.  So the output is made of lowercase alphanumerics and hyphens
    only, with no two hyphens in a row and none first or last; a text of
    that shape is returned unchanged, and the generator is idempotent. *)
Theorem generateSlug_shape_and_idempotence :
  (forall text, generateSlug text = slug_of_words text) /\
  (forall text,
     List.filter is_alnum (list_ascii_of_string (generateSlug text)) =
     List.filter is_alnum (map lower (list_ascii_of_string text))) /\
  (forall text, is_slug (generateSlug text) = true) /\
  (forall text, is_slug text = true -> generateSlug text = text) /\
  (forall text, generateSlug (generateSlug text) = generateSlug text) /\
  generateSlug "Hello World" = "hello-world" /\
  generateSlug "  Hello,  World! " = "hello-world" /\
  generateSlug "Tech" = "tech".
Proof.
  assert (Hshape : forall text, is_slug (generateSlug text) = true).
  { intros text. unfold is_slug, generateSlug.
    rewrite list_ascii_of_string_of_list_ascii. apply slugify_shaped. }
  assert (Hfix : forall text, is_slug text = true -> generateSlug text = text).
  { intros text H. unfold is_slug in H. unfold generateSlug.
    rewrite slugify_slug by exact H. apply string_of_list_ascii_of_string. }
  split; [exact generateSlug_words|]. split; [exact generateSlug_alnum|].
  split; [exact Hshape|]. split; [exact Hfix|].
  split; [|repeat split; reflexivity].
  intros text. apply Hfix, Hshape.
Qed.

(** * Further properties of the services and the handlers *)

(** ** The schema's constraints as an invariant *)

Lemma existsb_key {A} (f : A -> string) (k : string) (l : list A) :
  existsb (fun x => f x =? k) l = true <-> In k (map f l).
Proof.
  rewrite existsb_exists, in_map_iff. split.
  - intros (x & Hin & Heq). apply eqb_true in Heq. now exists x.
  - intros (x & Heq & Hin). exists x. split; [exact Hin|]. now apply eqb_true.
Qed.

Lemma existsb_key_false {A} (f : A -> string) (k : string) (l : list A) :
  existsb (fun x => f x =? k) l = false <-> ~ In k (map f l).
Proof.
  rewrite <- existsb_key. destruct (existsb _ l); intuition congruence.
Qed.

Lemma all_distinct_NoDup (l : list string) :
  all_distinct l = true <-> List.NoDup l.
Proof.
  induction l as [|x l IH]; cbn [all_distinct].
  - split; [constructor|reflexivity].
  - rewrite andb_true_iff, negb_true_iff, IH, List.NoDup_cons_iff.
    assert (existsb (String.eqb x) l = false <-> ~ In x l) as ->; [|tauto].
    split.
    + intros H Hin.
      assert (existsb (String.eqb x) l = true); [|congruence].
      apply existsb_exists. exists x. split; [exact Hin|apply String.eqb_refl].
    + intros H. apply not_true_is_false. intros E.
      apply existsb_exists in E as (y & Hin & Heq). apply eqb_true in Heq.
      now subst.
Qed.

Lemma rows_distinct_NoDup (l : list (string * string)) :
  rows_distinct l = true <-> List.NoDup l.
Proof.
  induction l as [|x l IH]; cbn [rows_distinct].
  - split; [constructor|reflexivity].
  - rewrite andb_true_iff, negb_true_iff, IH, List.NoDup_cons_iff.
    assert (existsb (pair_eqb x) l = false <-> ~ In x l) as ->; [|tauto].
    split.
    + intros H Hin. now rewrite existsb_pair_true in H.
    + apply existsb_pair_false.
Qed.

Lemma forallb_In {A} (f : A -> bool) (P : A -> Prop) l :
  (forall x, f x = true <-> P x) ->
  forallb f l = true <-> (forall x, In x l -> P x).
Proof.
  intros H. rewrite forallb_forall. split; intros Hl x Hx; apply H, Hl, Hx.
Qed.

Lemma schema_holds_Schema d : schema_holds d = true <-> Schema d.
Proof.
  unfold schema_holds. rewrite !andb_true_iff, !all_distinct_NoDup,
    !rows_distinct_NoDup.
  rewrite (forallb_In _ (fun p => In (p_author_id p) (map u_id (users d)))).
  2:{ intros p. apply existsb_key. }
  rewrite (forallb_In _ (fun pc => In (fst pc) (map p_id (posts d)) /\
                                   In (snd pc) (map c_id (categories d)))).
  2:{ intros pc. rewrite andb_true_iff. unfold has_post, has_category.
      now rewrite !existsb_key. }
  rewrite (forallb_In _ (fun pt => In (fst pt) (map p_id (posts d)) /\
                                   In (snd pt) (map t_id (tags d)))).
  2:{ intros pt. rewrite andb_true_iff. unfold has_post, has_tag.
      now rewrite !existsb_key. }
  split.
  - intros H. decompose [and] H. constructor; assumption.
  - intros []. tauto.
Qed.

Lemma NoDup_map_snoc {A} (f : A -> string) l x :
  List.NoDup (map f l) -> ~ In (f x) (map f l) ->
  List.NoDup (map f (l ++ [x])).
Proof.
  intros Hl Hx. rewrite map_app. apply List.NoDup_app; [exact Hl| |].
  - constructor; [intros []|constructor].
  - intros a Ha [<-|[]]. contradiction.
Qed.

Lemma NoDup_snoc {A} (l : list A) x :
  List.NoDup l -> ~ In x l -> List.NoDup (l ++ [x]).
Proof.
  intros Hl Hx. apply List.NoDup_app; [exact Hl| |].
  - constructor; [intros []|constructor].
  - intros a Ha [<-|[]]. contradiction.
Qed.

Lemma In_map_filter {A B} (f : A -> B) g l k :
  In k (map f (List.filter g l)) -> In k (map f l).
Proof.
  rewrite !in_map_iff. intros (x & Hk & Hx). apply filter_In in Hx as [Hx _].
  now exists x.
Qed.

Lemma NoDup_map_filter {A B} (f : A -> B) g l :
  List.NoDup (map f l) -> List.NoDup (map f (List.filter g l)).
Proof.
  induction l as [|x l IH]; cbn [map List.filter]; [auto|].
  intros H. apply List.NoDup_cons_iff in H as [Hx Hl].
  destruct (g x); [|auto]. cbn [map]. constructor; [|auto].
  intros Hin. apply Hx. eapply In_map_filter, Hin.
Qed.

(** A key other than the deleted one is still stored. *)
Lemma In_map_without {A} (f : A -> string) id l k :
  In k (map f l) -> k <> id ->
  In k (map f (List.filter (fun x => negb (f x =? id)) l)).
Proof.
  rewrite !in_map_iff. intros (x & Hk & Hx) Hne. exists x. split; [exact Hk|].
  apply filter_In. split; [exact Hx|]. apply negb_true_iff, eqb_false.
  now subst.
Qed.

Lemma maintains_ret {A} P (a : A) : maintains P (ret a).
Proof. intros w H. exact H. Qed.

Lemma maintains_throw {A} P e : maintains P (@throw A e).
Proof. intros w H. exact H. Qed.

Lemma maintains_bind {A B} P (m : M A) (k : A -> M B) :
  maintains P m -> (forall a, maintains P (k a)) -> maintains P (bind m k).
Proof.
  intros Hm Hk w H. rewrite bind_run. specialize (Hm w H).
  destruct (m w) as [[a|e] w1]; cbn [snd] in *; [now apply Hk|exact Hm].
Qed.

Lemma maintains_for_of {A} P (xs : list A) body :
  (forall x, maintains P (body x)) -> maintains P (for_of xs body).
Proof.
  intros Hb. induction xs as [|x xs IH]; cbn [for_of].
  - apply maintains_ret.
  - apply maintains_bind; auto.
Qed.

Lemma maintains_keeps {A} P (m : M A) :
  keeps (fun d => d) m -> maintains P m.
Proof. intros Hk w H. now rewrite Hk. Qed.

Lemma maintains_try_catch {A} P (m : M A) handler :
  maintains P m -> (forall e, maintains P (handler e)) ->
  maintains P (try_catch m handler).
Proof.
  intros Hm Hh w H. unfold try_catch. specialize (Hm w H).
  destruct (m w) as [[a|e] w1]; cbn [snd] in *; [exact Hm|now apply Hh].
Qed.

Ltac open_schema H :=
  destruct H as [Hui Hue Hpi Hps Hpa Hci Hcn Hcs Hti Htn Hts Hpc Hpcr Hpt
                 Hptr].

Lemma insert_user_schema id email name password :
  maintains Schema (insert_user id email name password).
Proof.
  intros w H. unfold insert_user, bind, CURRENT_TIMESTAMP, get_db. cbn [db].
  destruct (has_user id (db w)) eqn:Hid; [exact H|].
  destruct (existsb _ (users (db w))) eqn:Hemail; [exact H|].
  apply existsb_key_false in Hid, Hemail.
  open_schema H. constructor; cbn; try assumption.
  - now apply NoDup_map_snoc.
  - now apply NoDup_map_snoc.
  - intros p Hp. rewrite map_app. apply in_or_app. left. auto.
Qed.

Lemma insert_post_schema id title slug content excerpt cover published
    featured reading author published_at :
  maintains Schema (insert_post id title slug content excerpt cover published
                      featured reading author published_at).
Proof.
  intros w H. unfold insert_post, bind, CURRENT_TIMESTAMP, get_db. cbn [db].
  destruct (has_post id (db w)) eqn:Hid; [exact H|].
  destruct (existsb _ (posts (db w))) eqn:Hslug; [exact H|].
  destruct (has_user author (db w)) eqn:Hauthor; [|exact H].
  apply existsb_key_false in Hid, Hslug. apply existsb_key in Hauthor.
  open_schema H. constructor; cbn; try assumption.
  - now apply NoDup_map_snoc.
  - now apply NoDup_map_snoc.
  - intros p Hp. apply in_app_or in Hp as [Hp|[<-|[]]]; auto.
  - intros pc Hin. destruct (Hpcr pc Hin) as [Hp Hc]. split; [|exact Hc].
    rewrite map_app. apply in_or_app. now left.
  - intros pt Hin. destruct (Hptr pt Hin) as [Hp Hc]. split; [|exact Hc].
    rewrite map_app. apply in_or_app. now left.
Qed.

Lemma insert_category_schema id name slug description color :
  maintains Schema (insert_category id name slug description color).
Proof.
  intros w H. unfold insert_category, bind, CURRENT_TIMESTAMP, get_db.
  cbn [db].
  destruct (has_category id (db w)) eqn:Hid; [exact H|].
  destruct (existsb _ (categories (db w))) eqn:Htaken; [exact H|].
  apply existsb_key_false in Hid.
  assert (Hname : ~ In name (map c_name (categories (db w)))).
  { intros Hin. apply existsb_key in Hin.
    apply existsb_exists in Hin as (c & Hc & Heq).
    assert (existsb (fun c => (c_name c =? name) || (c_slug c =? slug))
              (categories (db w)) = true); [|congruence].
    apply existsb_exists. exists c. split; [exact Hc|]. now rewrite Heq. }
  assert (Hslug : ~ In slug (map c_slug (categories (db w)))).
  { intros Hin. apply existsb_key in Hin.
    apply existsb_exists in Hin as (c & Hc & Heq).
    assert (existsb (fun c => (c_name c =? name) || (c_slug c =? slug))
              (categories (db w)) = true); [|congruence].
    apply existsb_exists. exists c. split; [exact Hc|].
    rewrite Heq. apply orb_true_r. }
  open_schema H. constructor; cbn; try assumption.
  - now apply NoDup_map_snoc.
  - now apply NoDup_map_snoc.
  - now apply NoDup_map_snoc.
  - intros pc Hin. destruct (Hpcr pc Hin) as [Hp Hc]. split; [exact Hp|].
    rewrite map_app. apply in_or_app. now left.
Qed.

Lemma insert_tag_schema id name slug :
  maintains Schema (insert_tag id name slug).
Proof.
  intros w H. unfold insert_tag, bind, CURRENT_TIMESTAMP, get_db. cbn [db].
  destruct (has_tag id (db w)) eqn:Hid; [exact H|].
  destruct (existsb _ (tags (db w))) eqn:Htaken; [exact H|].
  apply existsb_key_false in Hid.
  assert (Hname : ~ In name (map t_name (tags (db w)))).
  { intros Hin. apply existsb_key in Hin.
    apply existsb_exists in Hin as (c & Hc & Heq).
    assert (existsb (fun t => (t_name t =? name) || (t_slug t =? slug))
              (tags (db w)) = true); [|congruence].
    apply existsb_exists. exists c. split; [exact Hc|]. now rewrite Heq. }
  assert (Hslug : ~ In slug (map t_slug (tags (db w)))).
  { intros Hin. apply existsb_key in Hin.
    apply existsb_exists in Hin as (c & Hc & Heq).
    assert (existsb (fun t => (t_name t =? name) || (t_slug t =? slug))
              (tags (db w)) = true); [|congruence].
    apply existsb_exists. exists c. split; [exact Hc|].
    rewrite Heq. apply orb_true_r. }
  open_schema H. constructor; cbn; try assumption.
  - now apply NoDup_map_snoc.
  - now apply NoDup_map_snoc.
  - now apply NoDup_map_snoc.
  - intros pt Hin. destruct (Hptr pt Hin) as [Hp Hc]. split; [exact Hp|].
    rewrite map_app. apply in_or_app. now left.
Qed.

Lemma existsb_pair_In (x : string * string) l :
  existsb (pair_eqb x) l = false -> ~ In x l.
Proof. intros H Hin. now rewrite existsb_pair_true in H. Qed.

Lemma insert_post_category_schema id c :
  maintains Schema (insert_post_category id c).
Proof.
  intros w H. unfold insert_post_category, bind, get_db. cbn [db].
  destruct (existsb _ (post_categories (db w))) eqn:Hrow; [exact H|].
  destruct (has_post id (db w)) eqn:Hp; [|exact H].
  destruct (has_category c (db w)) eqn:Hc; [|exact H].
  apply existsb_pair_In in Hrow. apply existsb_key in Hp, Hc.
  open_schema H. constructor; cbn; try assumption.
  - now apply NoDup_snoc.
  - intros pc Hin. apply in_app_or in Hin as [Hin|[<-|[]]]; auto.
Qed.

Lemma insert_post_tag_schema id t :
  maintains Schema (insert_post_tag id t).
Proof.
  intros w H. unfold insert_post_tag, bind, get_db. cbn [db].
  destruct (existsb _ (post_tags (db w))) eqn:Hrow; [exact H|].
  destruct (has_post id (db w)) eqn:Hp; [|exact H].
  destruct (has_tag t (db w)) eqn:Ht; [|exact H].
  apply existsb_pair_In in Hrow. apply existsb_key in Hp, Ht.
  open_schema H. constructor; cbn; try assumption.
  - now apply NoDup_snoc.
  - intros pt Hin. apply in_app_or in Hin as [Hin|[<-|[]]]; auto.
Qed.

Lemma delete_post_categories_schema id :
  maintains Schema (delete_post_categories id).
Proof.
  intros w H. unfold delete_post_categories, bind, get_db. cbn [db].
  open_schema H. constructor; cbn; try assumption.
  - now apply List.NoDup_filter.
  - intros pc Hin. apply filter_In in Hin as [Hin _]. auto.
Qed.

Lemma delete_post_tags_schema id : maintains Schema (delete_post_tags id).
Proof.
  intros w H. unfold delete_post_tags, bind, get_db. cbn [db].
  open_schema H. constructor; cbn; try assumption.
  - now apply List.NoDup_filter.
  - intros pt Hin. apply filter_In in Hin as [Hin _]. auto.
Qed.

Lemma delete_posts_schema id : maintains Schema (delete_posts id).
Proof.
  intros w H. unfold delete_posts. cbn.
  open_schema H. constructor; cbn; try assumption.
  - now apply NoDup_map_filter.
  - now apply NoDup_map_filter.
  - intros p Hp. apply filter_In in Hp as [Hp _]. auto.
  - now apply List.NoDup_filter.
  - intros pc Hin. apply filter_In in Hin as [Hin Hne].
    destruct (Hpcr pc Hin) as [Hp Hc]. split; [|exact Hc].
    apply In_map_without; [exact Hp|]. now apply eqb_false, negb_true_iff.
  - now apply List.NoDup_filter.
  - intros pt Hin. apply filter_In in Hin as [Hin Hne].
    destruct (Hptr pt Hin) as [Hp Hc]. split; [|exact Hc].
    apply In_map_without; [exact Hp|]. now apply eqb_false, negb_true_iff.
Qed.

Lemma delete_categories_schema id : maintains Schema (delete_categories id).
Proof.
  intros w H. unfold delete_categories. cbn.
  open_schema H. constructor; cbn; try assumption.
  - now apply NoDup_map_filter.
  - now apply NoDup_map_filter.
  - now apply NoDup_map_filter.
  - now apply List.NoDup_filter.
  - intros pc Hin. apply filter_In in Hin as [Hin Hne].
    destruct (Hpcr pc Hin) as [Hp Hc]. split; [exact Hp|].
    apply In_map_without; [exact Hc|]. now apply eqb_false, negb_true_iff.
Qed.

Lemma delete_tags_schema id : maintains Schema (delete_tags id).
Proof.
  intros w H. unfold delete_tags. cbn.
  open_schema H. constructor; cbn; try assumption.
  - now apply NoDup_map_filter.
  - now apply NoDup_map_filter.
  - now apply NoDup_map_filter.
  - now apply List.NoDup_filter.
  - intros pt Hin. apply filter_In in Hin as [Hin Hne].
    destruct (Hptr pt Hin) as [Hp Hc]. split; [exact Hp|].
    apply In_map_without; [exact Hc|]. now apply eqb_false, negb_true_iff.
Qed.

Lemma assign_keys o a :
  p_id (assign o a) = p_id o /\ p_author_id (assign o a) = p_author_id o.
Proof. destruct o, a; split; reflexivity. Qed.

Lemma fold_assign_keys updates : forall o,
  p_id (fold_left assign updates o) = p_id o /\
  p_author_id (fold_left assign updates o) = p_author_id o.
Proof.
  induction updates as [|a updates IH]; intros o; [now split|].
  cbn [fold_left]. destruct (IH (assign o a)) as [-> ->]. apply assign_keys.
Qed.

(** Rows with the same primary key are the same row. *)
Lemma same_key_same_row {A} (f : A -> string) l x y :
  List.NoDup (map f l) -> In x l -> In y l -> f x = f y -> x = y.
Proof.
  induction l as [|r l IH]; [intros _ []|].
  cbn [map]. intros H. apply List.NoDup_cons_iff in H as [Hr Hl].
  intros [->|Hx] [->|Hy] Heq; auto.
  - contradiction Hr. rewrite Heq. now apply in_map.
  - contradiction Hr. rewrite <- Heq. now apply in_map.
Qed.

Lemma map_keys_replace (F : Post -> Post) id l :
  (forall o, p_id (F o) = p_id o) ->
  map p_id (map (fun o => if p_id o =? id then F o else o) l) = map p_id l.
Proof.
  intros HF. rewrite map_map. apply map_ext. intros o.
  now destruct (p_id o =? id).
Qed.

Lemma NoDup_slugs_replace (F : Post -> Post) id l s' :
  List.NoDup (map p_id l) -> List.NoDup (map p_slug l) ->
  (forall o, In o l -> p_id o = id -> p_slug (F o) = s') ->
  (forall o, In o l -> p_id o <> id -> p_slug o <> s') ->
  List.NoDup (map p_slug (map (fun o => if p_id o =? id then F o else o) l)).
Proof.
  induction l as [|r l IH]; [intros; constructor|].
  cbn [map]. intros Hids Hslugs Hnew Hothers.
  apply List.NoDup_cons_iff in Hids as [Hrid Hids].
  apply List.NoDup_cons_iff in Hslugs as [Hrslug Hslugs].
  constructor.
  - intros Hin. apply in_map_iff in Hin as (x & Hx & Hin).
    apply in_map_iff in Hin as (o & <- & Ho).
    destruct (p_id r =? id) eqn:Er, (p_id o =? id) eqn:Eo.
    + apply eqb_true in Er, Eo. apply Hrid. rewrite Er, <- Eo.
      now apply in_map.
    + apply eqb_true in Er. apply eqb_false in Eo.
      apply (Hothers o); [now right|exact Eo|].
      rewrite Hx. apply Hnew; [now left|exact Er].
    + apply eqb_false in Er. apply eqb_true in Eo.
      apply (Hothers r); [now left|exact Er|].
      rewrite <- Hx. apply Hnew; [now right|exact Eo].
    + apply Hrslug. rewrite <- Hx. now apply in_map.
  - apply IH; auto.
    + intros o Ho. apply Hnew. now right.
    + intros o Ho. apply Hothers. now right.
Qed.

Lemma slug_taken_false id s d :
  slug_taken id s d = false ->
  forall o, In o (posts d) -> p_id o <> id -> p_slug o <> s.
Proof.
  unfold slug_taken. intros H o Ho Hne Heq.
  assert (existsb (fun o => negb (p_id o =? id) && (p_slug o =? s)) (posts d)
          = true); [|congruence].
  apply existsb_exists. exists o. split; [exact Ho|].
  apply eqb_false in Hne. rewrite Hne. now apply eqb_true.
Qed.

Lemma update_posts_schema updates id : maintains Schema (update_posts updates id).
Proof.
  intros w H. unfold update_posts, bind, get_db. cbn [db].
  destruct (select_post_by_id id (db w)) as [old|] eqn:Hsel; [|exact H].
  destruct (slug_taken id _ (db w)) eqn:Htaken; [exact H|].
  pose proof (fun o => proj1 (fold_assign_keys updates o)) as Hid.
  pose proof (fun o => proj2 (fold_assign_keys updates o)) as Hauthor.
  apply find_some in Hsel as [Hold Hoid]. apply eqb_true in Hoid.
  open_schema H. constructor; cbn; try assumption.
  - now rewrite map_keys_replace.
  - apply NoDup_slugs_replace
      with (s' := p_slug (fold_left assign updates old)); try assumption.
    + intros o Ho Heq. f_equal. f_equal.
      apply (same_key_same_row p_id (posts (db w))); auto. congruence.
    + now apply slug_taken_false.
  - intros p Hp. apply in_map_iff in Hp as (o & <- & Ho).
    destruct (p_id o =? id); [rewrite Hauthor|]; auto.
  - intros pc Hin. rewrite map_keys_replace by exact Hid. auto.
  - intros pt Hin. rewrite map_keys_replace by exact Hid. auto.
Qed.

Lemma increment_views_schema id : maintains Schema (increment_views id).
Proof.
  intros w H. unfold increment_views. cbn.
  set (bump := fun o : Post => _).
  assert (Hid : map p_id (map bump (posts (db w))) = map p_id (posts (db w))).
  { rewrite map_map. apply map_ext. intros o. subst bump. cbn.
    now destruct (p_id o =? id). }
  assert (Hslug : map p_slug (map bump (posts (db w)))
                  = map p_slug (posts (db w))).
  { rewrite map_map. apply map_ext. intros o. subst bump. cbn.
    now destruct (p_id o =? id). }
  open_schema H. constructor; cbn; try assumption.
  - now rewrite Hid.
  - now rewrite Hslug.
  - intros p Hp. apply in_map_iff in Hp as (o & <- & Ho). subst bump. cbn.
    destruct (p_id o =? id); cbn; auto.
  - intros pc Hin. rewrite Hid. auto.
  - intros pt Hin. rewrite Hid. auto.
Qed.

Lemma user_create_schema email name password :
  maintains Schema (userService.create email name password).
Proof.
  unfold userService.create.
  apply maintains_bind; [apply maintains_keeps, keeps_uuidv4|intros id].
  apply maintains_bind; [apply insert_user_schema|intros _].
  apply maintains_keeps. unfold userService.findById. keeps_auto.
Qed.

Lemma category_create_schema name description color :
  maintains Schema (categoryService.create name description color).
Proof.
  unfold categoryService.create.
  apply maintains_bind; [apply maintains_keeps, keeps_uuidv4|intros id].
  apply maintains_bind; [apply insert_category_schema|intros _].
  apply maintains_keeps. unfold categoryService.findById. keeps_auto.
Qed.

Lemma tag_create_schema name : maintains Schema (tagService.create name).
Proof.
  unfold tagService.create.
  apply maintains_bind; [apply maintains_keeps, keeps_uuidv4|intros id].
  apply maintains_bind; [apply insert_tag_schema|intros _].
  apply maintains_keeps. unfold tagService.findById. keeps_auto.
Qed.

Lemma post_create_schema input : maintains Schema (postService.create input).
Proof.
  unfold postService.create.
  apply maintains_bind; [apply maintains_keeps, keeps_uuidv4|intros id].
  apply maintains_bind.
  { apply maintains_keeps. destruct (flag (in_published input) =? 1)%Z;
      keeps_auto. }
  intros published_at.
  apply maintains_bind; [apply insert_post_schema|intros _].
  apply maintains_bind.
  { destruct (in_categories input) as [[|c cs]|]; try apply maintains_ret.
    apply maintains_for_of. intros x. apply insert_post_category_schema. }
  intros _. apply maintains_bind.
  { destruct (in_tags input) as [[|t ts]|]; try apply maintains_ret.
    apply maintains_for_of. intros x. apply insert_post_tag_schema. }
  intros _. apply maintains_keeps, keeps_findById.
Qed.

Lemma post_update_schema input : maintains Schema (postService.update input).
Proof.
  unfold postService.update.
  apply maintains_bind; [apply maintains_keeps, keeps_read_clock|intros st].
  apply maintains_bind; [apply update_posts_schema|intros _].
  apply maintains_bind.
  { unfold postService.update_categories.
    destruct (up_categories input) as [cs|]; [|apply maintains_ret].
    apply maintains_bind; [apply delete_post_categories_schema|intros _].
    destruct cs; [apply maintains_ret|].
    apply maintains_for_of. intros x. apply insert_post_category_schema. }
  intros _. apply maintains_bind.
  { unfold postService.update_tags.
    destruct (up_tags input) as [ts|]; [|apply maintains_ret].
    apply maintains_bind; [apply delete_post_tags_schema|intros _].
    destruct ts; [apply maintains_ret|].
    apply maintains_for_of. intros x. apply insert_post_tag_schema. }
  intros _. apply maintains_keeps, keeps_findById.
Qed.

Lemma perform_schema call : maintains Schema (perform call).
Proof.
  destruct call as [email name password|[input|input|id|id]
                   |name description color|id|name|id]; cbn [perform invoke].
  - apply maintains_bind; [apply user_create_schema|intros; apply maintains_ret].
  - apply maintains_bind; [apply post_create_schema|intros; apply maintains_ret].
  - apply maintains_bind; [apply post_update_schema|intros; apply maintains_ret].
  - apply delete_posts_schema.
  - apply increment_views_schema.
  - apply maintains_bind; [apply category_create_schema
                          |intros; apply maintains_ret].
  - apply delete_categories_schema.
  - apply maintains_bind; [apply tag_create_schema|intros; apply maintains_ret].
  - apply delete_tags_schema.
Qed.

(** X1.  The constraints of the schema (primary keys, unique emails, names
    and slugs, foreign keys of posts and of both junction tables) hold
    after every run of service calls on tables where they hold, whichever
    of the calls return and whichever throw: a call that fails midway, such
    as an update that has deleted a post's associations and then meets an
    unknown category, still leaves no repeated key and no dangling
    reference. *)
Theorem services_keep_schema calls : forall w,
  schema_holds (db w) = true ->
  schema_holds (db (perform_all calls w)) = true.
Proof.
  induction calls as [|call calls IH]; intros w H; [exact H|].
  cbn [perform_all]. apply IH. apply schema_holds_Schema.
  apply perform_schema. now apply schema_holds_Schema.
Qed.

(** The invariant at work on a run that holds a failing update, a delete of
    a category in use and a delete of a post. *)
Lemma services_keep_schema_witness :
  schema_holds (db Sample.world) = true /\
  schema_holds
    (db (perform_all [On_post (Call_update Inputs.repeated);
                      On_category_delete "c1";
                      On_post (Call_create Inputs.negative_estimate);
                      On_post (Call_delete "p2")] Sample.world)) = true.
Proof.
  split; [reflexivity|].
  apply (services_keep_schema
           [On_post (Call_update Inputs.repeated); On_category_delete "c1";
            On_post (Call_create Inputs.negative_estimate);
            On_post (Call_delete "p2")] Sample.world).
  reflexivity.
Defined.

(** ** What [findById] resolves *)

Lemma filter_key_single {A} (f : A -> string) l k :
  List.NoDup (map f l) -> In k (map f l) ->
  exists x, List.filter (fun y => f y =? k) l = [x] /\ f x = k /\ In x l.
Proof.
  induction l as [|r l IH]; [intros _ []|].
  cbn [map List.filter]. intros H Hin.
  apply List.NoDup_cons_iff in H as [Hr Hl].
  destruct (f r =? k) eqn:E.
  - apply eqb_true in E. exists r. split; [|split; [exact E|now left]].
    f_equal. rewrite <- E. clear -Hr.
    induction l as [|y l IH]; [reflexivity|]. cbn [List.filter map] in *.
    destruct (f y =? f r) eqn:Ey.
    + apply eqb_true in Ey. contradiction Hr. now left.
    + apply IH. intros Hin. apply Hr. now right.
  - destruct Hin as [Hin|Hin]; [apply eqb_false in E; contradiction|].
    destruct (IH Hl Hin) as (x & Hx & Hk & Hxin).
    exists x. split; [exact Hx|split; [exact Hk|now right]].
Qed.

Lemma find_key_some {A} (f : A -> string) l k :
  In k (map f l) ->
  exists x, List.find (fun y => f y =? k) l = Some x /\ In x l /\ f x = k.
Proof.
  intros Hin. destruct (List.find (fun y => f y =? k) l) as [x|] eqn:E.
  - exists x. apply find_some in E as [Hx Hk]. apply eqb_true in Hk. auto.
  - apply in_map_iff in Hin as (y & Hy & Hin).
    apply (find_none _ _ E) in Hin. apply eqb_false in Hin. contradiction.
Qed.

Lemma find_unique_key {A} (f : A -> string) l x :
  List.NoDup (map f l) -> In x l ->
  List.find (fun y => f y =? f x) l = Some x.
Proof.
  intros Hl Hx. destruct (find_key_some f l (f x)) as (y & Hy & Hin & Heq).
  { now apply in_map. }
  rewrite Hy. f_equal. now apply (same_key_same_row f l).
Qed.

(** A join on a unique key gives one row per junction row, in the order of
    the junction rows. *)
Lemma join_ids {A} (key : A -> string) (table : list A)
    (rows : list (string * string)) :
  List.NoDup (map key table) ->
  (forall r, In r rows -> In (snd r) (map key table)) ->
  map key
    (flat_map (fun r => List.filter (fun x => key x =? snd r) table) rows) =
  map snd rows.
Proof.
  intros Htable. induction rows as [|r rows IH]; intros Hrefs; [reflexivity|].
  cbn [flat_map map]. rewrite map_app, IH.
  2:{ intros x Hx. apply Hrefs. now right. }
  destruct (filter_key_single key table (snd r) Htable) as (x & -> & Hx & _).
  { apply Hrefs. now left. }
  cbn. now rewrite Hx.
Qed.

#[global] Instance by_second_total : Total by_second.
Proof.
  intros a b. unfold by_second.
  destruct (String.leb_total (snd a) (snd b)); auto.
Qed.

#[global] Instance by_second_trans : Transitive by_second.
Proof.
  intros a b c Hab Hbc. unfold by_second in *.
  now apply string_leb_trans with (b := snd b).
Qed.

Lemma index_scan_permutation id rows :
  index_scan id rows ≡ₚ List.filter (fun r => fst r =? id) rows.
Proof. apply merge_sort_Permutation. Qed.

Lemma index_scan_In id rows r : In r (index_scan id rows) -> In r rows.
Proof.
  intros H. eapply Permutation_in in H; [|apply index_scan_permutation].
  now apply filter_In in H.
Qed.

Lemma sorted_by_second rows :
  StronglySorted by_second rows -> ascending (map snd rows).
Proof.
  unfold ascending. induction 1 as [|r rows Hrows IH Hr]; cbn [map];
    constructor; [exact IH|].
  apply List.Forall_forall. intros x Hx.
  apply in_map_iff in Hx as (y & <- & Hy).
  rewrite List.Forall_forall in Hr. now apply Hr.
Qed.

(** The identifiers of the rows an index scan gives. *)
Lemma index_scan_order id rows :
  in_index_order (map snd (List.filter (fun r => fst r =? id) rows))
    (map snd (index_scan id rows)).
Proof.
  split.
  - apply Permutation_map, index_scan_permutation.
  - apply sorted_by_second. apply StronglySorted_merge_sort; apply _.
Qed.

Lemma joined_categories_stored id d c :
  In c (select_categories_of_post id d) -> In c (categories d).
Proof.
  unfold select_categories_of_post. intros H.
  apply in_flat_map in H as (pc & _ & H).
  now apply filter_In in H as [H _].
Qed.

Lemma joined_tags_stored id d t :
  In t (select_tags_of_post id d) -> In t (tags d).
Proof.
  unfold select_tags_of_post. intros H.
  apply in_flat_map in H as (pt & _ & H).
  now apply filter_In in H as [H _].
Qed.

Lemma joined_category_ids id d :
  Schema d ->
  map c_id (select_categories_of_post id d)
  = map snd (index_scan id (post_categories d)).
Proof.
  intros H. open_schema H. unfold select_categories_of_post.
  apply join_ids; [exact Hci|].
  intros r Hin. apply index_scan_In in Hin. now apply Hpcr.
Qed.

Lemma joined_tag_ids id d :
  Schema d ->
  map t_id (select_tags_of_post id d)
  = map snd (index_scan id (post_tags d)).
Proof.
  intros H. open_schema H. unfold select_tags_of_post.
  apply join_ids; [exact Hti|].
  intros r Hin. apply index_scan_In in Hin. now apply Hptr.
Qed.

(** The resolved post of a stored row, on tables that satisfy the schema. *)
Lemma with_relations_resolved p d :
  Schema d -> In p (posts d) ->
  resolved (mkPostWithRelations p
              (select_categories_of_post (p_id p) d)
              (select_tags_of_post (p_id p) d)
              (List.find (fun u => u_id u =? p_author_id p) (users d))) d.
Proof.
  intros H Hp. unfold resolved. cbn [post pr_categories pr_tags pr_author].
  rewrite joined_category_ids, joined_tag_ids by exact H.
  open_schema H.
  split; [now apply (find_unique_key p_id)|].
  split; [apply index_scan_order|].
  split; [apply index_scan_order|].
  split; [intros c; apply joined_categories_stored|].
  split; [intros t; apply joined_tags_stored|].
  destruct (find_key_some u_id (users d) (p_author_id p)) as (u & Hu & Hin & Hid).
  { now apply Hpa. }
  exists u. auto.
Qed.

(** X2.  On tables that satisfy the schema, the post [findById] or
    [findBySlug] returns is resolved from the stored rows: it carries the
    categories and the tags of its junction rows, each once, in ascending
    bytewise order of their identifiers whatever the order they were
    associated in, and its stored author; and looking the post up by its
    slug gives the same result as looking it up by its id. *)
Theorem find_resolves_stored_post id w r :
  schema_holds (db w) = true ->
  fst (postService.findById id w) = Returned (Some r) ->
  p_id (post r) = id /\
  resolved r (db w) /\
  postService.findBySlug (p_slug (post r)) w = postService.findById id w.
Proof.
  intros H Hfind. apply schema_holds_Schema in H.
  rewrite findById_run in Hfind. cbn [fst] in Hfind.
  destruct (select_post_by_id id (db w)) as [p|] eqn:Hsel; [|discriminate].
  injection Hfind as <-. cbn [post].
  pose proof (find_id_some _ _ _ Hsel) as Hid.
  apply find_some in Hsel as Hin. destruct Hin as [Hin _].
  split; [exact Hid|]. split; [now apply with_relations_resolved|].
  rewrite findById_run. unfold postService.findBySlug. rewrite bind_run.
  cbn [get_db]. rewrite (find_unique_key p_slug (posts (db w)) p).
  - rewrite bind_run, with_relations_run.
    unfold select_post_by_id in Hsel. unfold select_post_by_id.
    now rewrite Hsel.
  - now destruct H.
  - exact Hin.
Qed.

(** The post ["p1"], associated with ["c2"] and then with ["c1"], lists
    ["c1"] first. *)
Lemma find_resolves_stored_post_witness :
  schema_holds (db Cases.crossed) = true /\
  categories_of "p1" (db Cases.crossed) = ["c2"; "c1"] /\
  (exists r, fst (postService.findById "p1" Cases.crossed) = Returned (Some r)
             /\ map c_id (pr_categories r) = ["c1"; "c2"]
             /\ resolved r (db Cases.crossed)).
Proof.
  split; [reflexivity|]. split; [reflexivity|].
  eexists. split; [reflexivity|]. split; [reflexivity|].
  apply (find_resolves_stored_post "p1" Cases.crossed); reflexivity.
Defined.

(** ** [postService.create] *)

Lemma create_accepted_inv input w :
  create_accepted input w = true ->
  has_post (uuid_source w (draws w)) (db w) = false /\
  existsb (fun p => p_slug p =? in_slug input) (posts (db w)) = false /\
  has_user (in_author_id input) (db w) = true.
Proof.
  unfold create_accepted. intros H.
  apply andb_true_iff in H as [H Hu]. apply andb_true_iff in H as [Hp Hs].
  apply negb_true_iff in Hp, Hs. auto.
Qed.

(** An accepted [create] up to its row insert: the row is appended, and the
    junction inserts and the final [findById] run on the result. *)
Lemma create_after_insert input w :
  create_accepted input w = true ->
  exists w2,
    db w2 = set_posts (posts (db w) ++ [created_row input w]) (db w) /\
    postService.create input w =
      ((match in_categories input with
        | Some (c :: cs) =>
            for_of (c :: cs) (fun categoryId =>
              insert_post_category (uuid_source w (draws w)) categoryId)
        | _ => ret tt
        end) ;;;
       (match in_tags input with
        | Some (t :: ts) =>
            for_of (t :: ts) (fun tagId =>
              insert_post_tag (uuid_source w (draws w)) tagId)
        | _ => ret tt
        end) ;;;
       postService.findById (uuid_source w (draws w))) w2.
Proof.
  intros H. apply create_accepted_inv in H as (Hp & Hs & Hu).
  unfold postService.create, created_row.
  assert (Hreading :
            (if truthy_num (in_reading_time input)
             then default NaN (in_reading_time input)
             else integer (calculateReadingTime (in_content input))) =
            match in_reading_time input with
            | Some n => if truthy_num (Some n) then n
                        else integer (calculateReadingTime (in_content input))
            | None => integer (calculateReadingTime (in_content input))
            end).
  { now destruct (in_reading_time input) as [n|]. }
  rewrite Hreading. clear Hreading.
  unfold bind, uuidv4, CURRENT_TIMESTAMP, new_Date_toISOString, get_db, ret,
    insert_post in *.
  destruct w as [d us dr dn ct tk].
  destruct (in_published input) as [[|]|]; cbn in *;
    rewrite Hp, Hs, Hu; cbn; eexists; (split; [|reflexivity]); reflexivity.
Qed.

Lemma junction_stage_for_of {A} (ids : option (list A)) (f : A -> M unit) :
  match ids with
  | Some (x :: xs) => for_of (x :: xs) f
  | _ => ret tt
  end = for_of (default [] ids) f.
Proof. destruct ids as [[|x xs]|]; reflexivity. Qed.

Lemma filter_own_rows id (ids : list string) :
  map snd (List.filter (fun pc => fst pc =? id) (map (pair id) ids)) = ids.
Proof.
  induction ids as [|x ids IH]; [reflexivity|].
  cbn. rewrite String.eqb_refl. cbn. now rewrite IH.
Qed.

Lemma no_rows_of_absent id (rows : list (string * string)) keys :
  (forall pc, In pc rows -> In (fst pc) keys) -> ~ In id keys ->
  List.filter (fun pc => fst pc =? id) rows = [].
Proof.
  intros Hrefs Hid. induction rows as [|pc rows IH]; [reflexivity|].
  cbn [List.filter]. destruct (fst pc =? id) eqn:E.
  - apply eqb_true in E. contradiction Hid. rewrite <- E. apply Hrefs.
    now left.
  - apply IH. intros x Hx. apply Hrefs. now right.
Qed.

Lemma find_appended id rows row :
  existsb (fun p => p_id p =? id) rows = false -> p_id row = id ->
  List.find (fun p => p_id p =? id) (rows ++ [row]) = Some row.
Proof.
  intros Hfresh Hid. induction rows as [|r rows IH]; cbn in *.
  - now rewrite Hid, String.eqb_refl.
  - apply orb_false_iff in Hfresh as [-> Hfresh]. auto.
Qed.

Lemma forallb_pointwise {A} (f g : A -> bool) l :
  (forall x, f x = g x) -> forallb f l = forallb g l.
Proof.
  intros H. induction l as [|x l IH]; cbn; [reflexivity|]. now rewrite H, IH.
Qed.

Lemma insertable_inv known ids :
  insertable known ids = true ->
  forallb known (default [] ids) = true /\
  all_distinct (default [] ids) = true.
Proof.
  destruct ids as [l|]; cbn; [|now split]. apply andb_true_iff.
Qed.

(** X3.  On tables that satisfy the schema, a [create] whose row insert the
    engine accepts (unused identifier and slug, stored author) and whose
    category and tag arrays hold distinct identifiers of stored rows returns
    the resolved post of the inserted row: the supplied fields, an empty
    excerpt or cover image stored as [NULL], zero views, a publish stamp
    exactly when [published] is true; it is associated with exactly the
    supplied categories and tags, which the returned post lists in
    ascending bytewise order of their identifiers, not in the order they
    were supplied in; and [findById] on the new identifier returns it
    again. *)
Theorem create_then_find input w :
  schema_holds (db w) = true ->
  create_accepted input w = true ->
  insertable (fun c => has_category c (db w)) (in_categories input) = true ->
  insertable (fun t => has_tag t (db w)) (in_tags input) = true ->
  create_round_trip input w.
Proof.
  intros Hschema Hacc Hcats Htags.
  pose proof (post_create_schema input w
                (proj1 (schema_holds_Schema _) Hschema)) as Hafter.
  apply schema_holds_Schema in Hschema.
  destruct (create_after_insert input w Hacc) as (w2 & Hdb2 & Hrun).
  apply create_accepted_inv in Hacc as (Hfresh & _ & _).
  set (id := uuid_source w (draws w)) in *.
  set (row := created_row input w) in *.
  assert (Hrowid : p_id row = id) by reflexivity.
  rewrite !junction_stage_for_of in Hrun.
  apply insertable_inv in Hcats as [Hknownc Hdistc].
  apply insertable_inv in Htags as [Hknownt Hdistt].
  assert (Hnew : List.find (fun p => p_id p =? id)
                   (posts (db w) ++ [row]) = Some row)
    by now apply find_appended.
  assert (Hidnew : ~ In id (map p_id (posts (db w))))
    by now apply existsb_key_false.
  assert (Hpost2 : has_post id (db w2) = true).
  { rewrite Hdb2. apply has_post_of_select with (p := row). exact Hnew. }
  destruct (for_of_insert_categories id (default [] (in_categories input)) w2)
    as (w3 & Hrun3 & Hdb3); try assumption.
  { rewrite <- Hknownc. apply forallb_pointwise. intros c. now rewrite Hdb2. }
  { intros c _ Hin. rewrite Hdb2 in Hin. cbn in Hin.
    apply Hidnew. now apply (pc_refs _ Hschema (id, c)). }
  assert (Hpost3 : has_post id (db w3) = true) by (now rewrite Hdb3).
  destruct (for_of_insert_tags id (default [] (in_tags input)) w3)
    as (w4 & Hrun4 & Hdb4); try assumption.
  { rewrite <- Hknownt. apply forallb_pointwise. intros t. now rewrite Hdb3, Hdb2. }
  { intros t _ Hin. rewrite Hdb3, Hdb2 in Hin. cbn in Hin.
    apply Hidnew. now apply (pt_refs _ Hschema (id, t)). }
  change (insert_post_category id)
    with (fun categoryId => insert_post_category id categoryId) in Hrun3.
  change (insert_post_tag id)
    with (fun tagId => insert_post_tag id tagId) in Hrun4.
  rewrite bind_run, Hrun3, bind_run, Hrun4, findById_run in Hrun.
  assert (Hsel4 : select_post_by_id id (db w4) = Some row).
  { rewrite Hdb4, Hdb3, Hdb2. exact Hnew. }
  rewrite Hsel4 in Hrun. rewrite Hrun in Hafter. cbn [snd] in Hafter.
  assert (Hrow4 : In row (posts (db w4))).
  { rewrite Hdb4, Hdb3, Hdb2. cbn. apply in_or_app. right. now left. }
  destruct (with_relations_resolved row (db w4) Hafter Hrow4)
    as (_ & Hjc & Hjt & _ & _ & (u & Hu & _ & Huid)).
  cbn [post pr_categories pr_tags pr_author] in Hjc, Hjt, Hu, Huid.
  rewrite Hrowid in Hjc, Hjt.
  assert (Hc4 : categories_of id (db w4) = default [] (in_categories input)).
  { unfold categories_of. rewrite Hdb4, Hdb3, Hdb2. cbn.
    rewrite List.filter_app, map_app, filter_own_rows.
    rewrite (no_rows_of_absent id _ (map p_id (posts (db w)))); auto.
    intros pc Hin. now apply (pc_refs _ Hschema). }
  assert (Ht4 : tags_of id (db w4) = default [] (in_tags input)).
  { unfold tags_of. rewrite Hdb4. cbn.
    rewrite List.filter_app, map_app, filter_own_rows.
    rewrite Hdb3, Hdb2. cbn.
    rewrite (no_rows_of_absent id _ (map p_id (posts (db w)))); auto.
    intros pt Hin. now apply (pt_refs _ Hschema). }
  unfold create_round_trip. eexists. exists w4.
  split; [exact Hrun|]. cbn [post pr_categories pr_tags pr_author].
  rewrite Hrowid.
  split; [reflexivity|]. split; [now rewrite Hdb4, Hdb3, Hdb2|].
  rewrite Hc4 in Hjc. rewrite Ht4 in Hjt.
  split; [exact Hc4|]. split; [exact Ht4|].
  split; [exact Hjc|]. split; [exact Hjt|].
  split; [rewrite Hu; cbn; now rewrite Huid|].
  rewrite findById_run. now rewrite Hsel4.
Qed.

(** A published post created on the sample tables with the categories
    ["c2"] and ["c1"], in this order, and a tag: the returned post lists
    ["c1"] first. *)
Lemma create_then_find_witness :
  schema_holds (db Sample.world) = true /\
  create_accepted Cases.categorised Sample.world = true /\
  in_categories Cases.categorised = Some ["c2"; "c1"] /\
  (exists r,
     fst (postService.create Cases.categorised Sample.world)
       = Returned (Some r) /\
     map c_id (pr_categories r) = ["c1"; "c2"]) /\
  create_round_trip Cases.categorised Sample.world.
Proof.
  split; [reflexivity|]. split; [reflexivity|]. split; [reflexivity|].
  split; [eexists; split; reflexivity|].
  apply (create_then_find Cases.categorised Sample.world); reflexivity.
Defined.

Lemma for_of_categories_returned id cs : forall w w',
  for_of cs (fun categoryId => insert_post_category id categoryId) w
    = (Returned tt, w') ->
  forallb (fun c => has_category c (db w)) cs = true /\
  all_distinct cs = true /\
  (forall c, In c cs -> ~ In (id, c) (post_categories (db w))) /\
  categories (db w') = categories (db w) /\
  tags (db w') = tags (db w).
Proof.
  induction cs as [|c cs IH]; intros w w' Hrun.
  - injection Hrun as <-. repeat split; auto.
  - cbn [for_of] in Hrun. rewrite bind_run in Hrun.
    unfold insert_post_category at 1 in Hrun. rewrite bind_run in Hrun.
    cbn [get_db] in Hrun.
    destruct (existsb (pair_eqb (id, c)) (post_categories (db w))) eqn:Hrow;
      [discriminate|].
    destruct (has_post id (db w)); [|discriminate].
    destruct (has_category c (db w)) eqn:Hc; [|discriminate].
    cbn [andb negb modify_db] in Hrun.
    apply IH in Hrun as (Hknown & Hdist & Hfresh & Hcats & Htags).
    cbn in Hknown, Hfresh, Hcats, Htags.
    assert (Hnotin : ~ In c cs).
    { intros Hin. apply (Hfresh c Hin). apply in_or_app. right. now left. }
    split; [cbn; now rewrite Hc|].
    split.
    { cbn. rewrite Hdist, andb_true_r. apply negb_true_iff.
      apply not_true_is_false. intros E.
      apply existsb_exists in E as (y & Hy & Heq). apply eqb_true in Heq.
      now subst. }
    split; [|now split].
    intros c' [<-|Hin]; [now apply existsb_pair_In|].
    intros Hrow'. apply (Hfresh c' Hin). apply in_or_app. now left.
Qed.

Lemma for_of_tags_returned id ts : forall w w',
  for_of ts (fun tagId => insert_post_tag id tagId) w = (Returned tt, w') ->
  forallb (fun t => has_tag t (db w)) ts = true /\
  all_distinct ts = true /\
  (forall t, In t ts -> ~ In (id, t) (post_tags (db w))).
Proof.
  induction ts as [|t ts IH]; intros w w' Hrun.
  - repeat split; auto.
  - cbn [for_of] in Hrun. rewrite bind_run in Hrun.
    unfold insert_post_tag at 1 in Hrun. rewrite bind_run in Hrun.
    cbn [get_db] in Hrun.
    destruct (existsb (pair_eqb (id, t)) (post_tags (db w))) eqn:Hrow;
      [discriminate|].
    destruct (has_post id (db w)); [|discriminate].
    destruct (has_tag t (db w)) eqn:Ht; [|discriminate].
    cbn [andb negb modify_db] in Hrun.
    apply IH in Hrun as (Hknown & Hdist & Hfresh).
    cbn in Hknown, Hfresh.
    assert (Hnotin : ~ In t ts).
    { intros Hin. apply (Hfresh t Hin). apply in_or_app. right. now left. }
    split; [cbn; now rewrite Ht|].
    split.
    { cbn. rewrite Hdist, andb_true_r. apply negb_true_iff.
      apply not_true_is_false. intros E.
      apply existsb_exists in E as (y & Hy & Heq). apply eqb_true in Heq.
      now subst. }
    intros t' [<-|Hin]; [now apply existsb_pair_In|].
    intros Hrow'. apply (Hfresh t' Hin). apply in_or_app. now left.
Qed.

Lemma insertable_default known ids :
  insertable known ids =
  forallb known (default [] ids) && all_distinct (default [] ids).
Proof. now destruct ids. Qed.

(** X4.  [create] opens no transaction: when the engine accepts the row
    insert but a junction insert fails, because a category or a tag is
    unknown or named twice, the call throws and the post row stays stored:
    the post exists although the caller saw an error. *)
Theorem create_failure_keeps_post input w :
  create_accepted input w = true ->
  insertable (fun c => has_category c (db w)) (in_categories input) &&
  insertable (fun t => has_tag t (db w)) (in_tags input) = false ->
  create_left_half_done input w.
Proof.
  intros Hacc Hbad.
  destruct (create_after_insert input w Hacc) as (w2 & Hdb2 & Hrun).
  apply create_accepted_inv in Hacc as (Hfresh & _ & _).
  set (id := uuid_source w (draws w)) in *.
  set (row := created_row input w) in *.
  assert (Hposts : posts (db (snd (postService.create input w)))
                   = posts (db w) ++ [row]).
  { rewrite Hrun.
    assert (Hkeep : keeps posts
              ((match in_categories input with
                | Some (c :: cs) =>
                    for_of (c :: cs) (fun categoryId =>
                      insert_post_category id categoryId)
                | _ => ret tt
                end) ;;;
               (match in_tags input with
                | Some (t :: ts) =>
                    for_of (t :: ts) (fun tagId => insert_post_tag id tagId)
                | _ => ret tt
                end) ;;;
               postService.findById id)).
    { apply keeps_bind.
      { destruct (in_categories input) as [[|c cs]|]; try apply keeps_ret.
        apply keeps_for_of. intros x. now apply keeps_insert_post_category. }
      intros _. apply keeps_bind.
      { destruct (in_tags input) as [[|t ts]|]; try apply keeps_ret.
        apply keeps_for_of. intros x. now apply keeps_insert_post_tag. }
      intros _. apply keeps_findById. }
    rewrite Hkeep. now rewrite Hdb2. }
  unfold create_left_half_done. split; [|split; [exact Hposts|]].
  - rewrite Hrun, !junction_stage_for_of, bind_run.
    destruct (for_of (default [] (in_categories input)) _ w2)
      as [[[]|e] w3] eqn:Hrun3; [|now exists e].
    apply for_of_categories_returned in Hrun3
      as (Hknownc & Hdistc & _ & Hcats3 & Htags3).
    rewrite bind_run.
    destruct (for_of (default [] (in_tags input)) _ w3)
      as [[[]|e] w4] eqn:Hrun4; [|now exists e].
    apply for_of_tags_returned in Hrun4 as (Hknownt & Hdistt & _).
    exfalso. rewrite !insertable_default in Hbad.
    rewrite Hdistc, Hdistt, !andb_true_r in Hbad.
    assert (forallb (fun c => has_category c (db w))
              (default [] (in_categories input)) = true) as Ec.
    { rewrite <- Hknownc. apply forallb_pointwise. intros c.
      now rewrite Hdb2. }
    assert (forallb (fun t => has_tag t (db w))
              (default [] (in_tags input)) = true) as Et.
    { rewrite <- Hknownt. apply forallb_pointwise. intros t.
      unfold has_tag. now rewrite Htags3, Hdb2. }
    rewrite Ec, Et in Hbad. discriminate.
  - unfold row_after, select_post_by_id. rewrite Hposts.
    now apply find_appended.
Qed.

(** The same post with an unknown tag: the call fails and the post is
    stored. *)
Lemma create_failure_keeps_post_witness :
  create_accepted Cases.unknown_tag Sample.world = true /\
  create_left_half_done Cases.unknown_tag Sample.world.
Proof.
  split; [reflexivity|].
  apply (create_failure_keeps_post Cases.unknown_tag Sample.world);
    reflexivity.
Defined.

(** ** [postService.update] on tables that satisfy the schema *)

(** The statements of an accepted update, one after the other. *)
Lemma update_run_accepted input w old :
  select_post_by_id (up_id input) (db w) = Some old ->
  update_accepted input old (db w) = true ->
  insertable (fun c => has_category c (db w)) (up_categories input) = true ->
  insertable (fun t => has_tag t (db w)) (up_tags input) = true ->
  exists w2 w3 w4,
    db w2 = set_posts (posts_after_update input w) (db w) /\
    db w3 = match up_categories input with
            | Some cs =>
                set_post_categories
                  (List.filter (fun pc => negb (fst pc =? up_id input))
                     (post_categories (db w2)) ++ map (pair (up_id input)) cs)
                  (db w2)
            | None => db w2
            end /\
    db w4 = match up_tags input with
            | Some ts =>
                set_post_tags
                  (List.filter (fun pt => negb (fst pt =? up_id input))
                     (post_tags (db w3)) ++ map (pair (up_id input)) ts)
                  (db w3)
            | None => db w3
            end /\
    postService.update input w = postService.findById (up_id input) w4.
Proof.
  intros Hsel Hacc Hcats Htags.
  unfold postService.update. rewrite bind_run.
  destruct (read_clock_run input w) as (w1 & -> & Hdb1).
  rewrite bind_run.
  destruct (update_posts_accepted input w w1 old Hdb1 Hsel Hacc)
    as (w2 & -> & Hdb2).
  pose proof (select_after_accepted input w old Hsel Hacc) as Hnew.
  assert (Hpost2 : has_post (up_id input) (db w2) = true).
  { apply has_post_of_select
      with (p := updated_row input (fst (stamps input w))
                   (snd (stamps input w)) old).
    rewrite Hdb2. exact Hnew. }
  rewrite bind_run.
  destruct (update_categories_run input w2 Hpost2) as (w3 & -> & Hdb3).
  { rewrite <- Hcats. apply insertable_ext. intros c. now rewrite Hdb2. }
  assert (Hpost3 : has_post (up_id input) (db w3) = true).
  { rewrite Hdb3. destruct (up_categories input); exact Hpost2. }
  rewrite bind_run.
  destruct (update_tags_run input w3 Hpost3) as (w4 & -> & Hdb4).
  { rewrite <- Htags. apply insertable_ext. intros t. rewrite Hdb3, Hdb2.
    now destruct (up_categories input). }
  exists w2, w3, w4. auto.
Qed.

(** On tables that satisfy the schema, no other post holds the slug of a
    stored post. *)
Lemma own_slug_not_taken d old :
  Schema d -> In old (posts d) -> slug_taken (p_id old) (p_slug old) d = false.
Proof.
  intros H Hold. apply not_true_is_false. intros E. unfold slug_taken in E.
  apply existsb_exists in E as (o & Ho & E).
  apply andb_true_iff in E as [Hne Heq].
  apply negb_true_iff, eqb_false in Hne. apply eqb_true in Heq.
  apply Hne. f_equal.
  apply (same_key_same_row p_slug (posts d)); auto. now destruct H.
Qed.

Lemma slug_unchanged_or_free_accepted input old d :
  Schema d -> select_post_by_id (up_id input) d = Some old ->
  slug_unchanged_or_free input old d = true ->
  update_accepted input old d = true.
Proof.
  intros H Hsel Hslug. unfold update_accepted. apply negb_true_iff.
  pose proof (find_id_some _ _ _ Hsel) as Hid.
  apply find_some in Hsel as [Hin _].
  unfold slug_unchanged_or_free in Hslug.
  destruct (up_slug input) as [s|]; cbn [default].
  - apply orb_true_iff in Hslug as [Hown|Hfree].
    + apply eqb_true in Hown. subst s. rewrite <- Hid.
      now apply own_slug_not_taken.
    + apply negb_true_iff in Hfree. apply not_true_is_false. intros E.
      unfold slug_taken in E. apply existsb_exists in E as (o & Ho & E).
      apply andb_true_iff in E as [_ Heq].
      assert (existsb (fun p => p_slug p =? s) (posts d) = true);
        [|congruence].
      apply existsb_exists. now exists o.
  - rewrite <- Hid. now apply own_slug_not_taken.
Qed.

(** X5.  On tables that satisfy the schema, an update of a stored post that
    supplies no slug, the post's own slug or a slug no post holds, and whose
    arrays hold distinct identifiers of stored categories and tags, is never
    rejected: it returns the resolved post of the updated row, with the
    supplied categories and tags, or the stored ones where the array is
    absent, listed in ascending bytewise order of their identifiers, not in
    the order they were supplied in; and [findById] returns the same post
    afterwards. *)
Theorem update_then_find input w old :
  schema_holds (db w) = true ->
  select_post_by_id (up_id input) (db w) = Some old ->
  slug_unchanged_or_free input old (db w) = true ->
  insertable (fun c => has_category c (db w)) (up_categories input) = true ->
  insertable (fun t => has_tag t (db w)) (up_tags input) = true ->
  update_round_trip input w old.
Proof.
  intros Hschema Hsel Hslug Hcats Htags.
  pose proof (post_update_schema input w
                (proj1 (schema_holds_Schema _) Hschema)) as Hafter.
  apply schema_holds_Schema in Hschema.
  pose proof (slug_unchanged_or_free_accepted input old (db w) Hschema Hsel
                Hslug) as Hacc.
  destruct (update_run_accepted input w old Hsel Hacc Hcats Htags)
    as (w2 & w3 & w4 & Hdb2 & Hdb3 & Hdb4 & Hrun).
  pose proof (select_after_accepted input w old Hsel Hacc) as Hnew.
  set (new := updated_row input (fst (stamps input w)) (snd (stamps input w))
                old) in *.
  assert (Hsel4 : select_post_by_id (up_id input) (db w4) = Some new).
  { rewrite Hdb4, Hdb3, Hdb2.
    destruct (up_tags input), (up_categories input); exact Hnew. }
  rewrite findById_run, Hsel4 in Hrun. rewrite Hrun in Hafter.
  cbn [snd] in Hafter.
  apply find_some in Hsel4 as Hin4. destruct Hin4 as [Hin4 _].
  pose proof (find_id_some _ _ _ Hsel) as Hid.
  assert (Hnewid : p_id new = up_id input) by (subst new; exact Hid).
  destruct (with_relations_resolved new (db w4) Hafter Hin4)
    as (_ & Hjc & Hjt & _).
  cbn [post pr_categories pr_tags] in Hjc, Hjt. rewrite Hnewid in Hjc, Hjt.
  unfold update_round_trip. eexists. exists w4.
  split; [exact Hrun|]. cbn [post pr_categories pr_tags]. rewrite Hnewid.
  assert (Hc4 : categories_of (up_id input) (db w4)
                = default (categories_of (up_id input) (db w))
                    (up_categories input)).
  { unfold categories_of. rewrite Hdb4, Hdb3, Hdb2.
    destruct (up_tags input), (up_categories input); cbn;
      try apply replaced_rows; reflexivity. }
  assert (Ht4 : tags_of (up_id input) (db w4)
                = default (tags_of (up_id input) (db w)) (up_tags input)).
  { unfold tags_of. rewrite Hdb4.
    destruct (up_tags input); cbn; [apply replaced_rows|].
    rewrite Hdb3, Hdb2. now destruct (up_categories input). }
  rewrite Hc4 in Hjc. rewrite Ht4 in Hjt.
  split; [reflexivity|]. split; [exact Hjc|]. split; [exact Hjt|].
  rewrite findById_run, Hsel4. now rewrite Hnewid.
Qed.

(** The draft ["p2"] gets a title, the categories ["c2"] and ["c1"], in
    this order, and a tag, and keeps its slug: the returned post lists
    ["c1"] first. *)
Lemma update_then_find_witness :
  schema_holds (db Sample.world) = true /\
  slug_unchanged_or_free Cases.retag Sample.draft (db Sample.world) = true /\
  up_categories Cases.retag = Some ["c2"; "c1"] /\
  (exists r,
     fst (postService.update Cases.retag Sample.world) = Returned (Some r) /\
     map c_id (pr_categories r) = ["c1"; "c2"]) /\
  update_round_trip Cases.retag Sample.world Sample.draft.
Proof.
  split; [reflexivity|]. split; [reflexivity|]. split; [reflexivity|].
  split; [eexists; split; reflexivity|].
  apply (update_then_find Cases.retag Sample.world Sample.draft);
    reflexivity.
Defined.

(** ** [incrementViews] and the three [delete]s *)

Lemma find_filter_out {A} (key : A -> string) id (l : list A) :
  List.find (fun a => key a =? id)
    (List.filter (fun a => negb (key a =? id)) l) = None.
Proof.
  induction l as [|a l IH]; cbn; [reflexivity|].
  destruct (key a =? id) eqn:E; cbn; [exact IH|]. now rewrite E.
Qed.

Lemma find_filter_other {A} (key : A -> string) id other (l : list A) :
  other <> id ->
  List.find (fun a => key a =? other)
    (List.filter (fun a => negb (key a =? id)) l)
  = List.find (fun a => key a =? other) l.
Proof.
  intros Hne. induction l as [|a l IH]; cbn; [reflexivity|].
  destruct (key a =? id) eqn:E; cbn.
  - apply eqb_true in E. destruct (key a =? other) eqn:E'; [|exact IH].
    apply eqb_true in E'. congruence.
  - destruct (key a =? other); [reflexivity|exact IH].
Qed.

Lemma filter_fst_out (id : string) (l : list (string * string)) :
  List.filter (fun pc => fst pc =? id)
    (List.filter (fun pc => negb (fst pc =? id)) l) = [].
Proof.
  induction l as [|a l IH]; cbn; [reflexivity|].
  destruct (fst a =? id) eqn:E; cbn; [exact IH|]. now rewrite E.
Qed.

Lemma filter_fst_other (id other : string) (l : list (string * string)) :
  other <> id ->
  List.filter (fun pc => fst pc =? other)
    (List.filter (fun pc => negb (fst pc =? id)) l)
  = List.filter (fun pc => fst pc =? other) l.
Proof.
  intros Hne. induction l as [|a l IH]; cbn; [reflexivity|].
  destruct (fst a =? id) eqn:E; cbn.
  - apply eqb_true in E. destruct (fst a =? other) eqn:E'; [|exact IH].
    apply eqb_true in E'. congruence.
  - destruct (fst a =? other); [now rewrite IH|exact IH].
Qed.

(** The junction rows of one post, once the rows of one category (or tag)
    are gone. *)
Lemma filter_snd_of (id post_id : string) (l : list (string * string)) :
  map snd (List.filter (fun pc => fst pc =? post_id)
             (List.filter (fun pc => negb (snd pc =? id)) l))
  = List.filter (fun c => negb (c =? id))
      (map snd (List.filter (fun pc => fst pc =? post_id) l)).
Proof.
  induction l as [|a l IH]; cbn; [reflexivity|].
  destruct (snd a =? id) eqn:E, (fst a =? post_id) eqn:E'; cbn;
    rewrite ?E, ?E'; cbn; now rewrite ?IH.
Qed.

Lemma viewed_more n o :
  viewed n (mkPost (p_id o) (p_title o) (p_slug o) (p_content o)
              (p_excerpt o) (p_cover_image o) (p_published o)
              (p_featured o) (p_reading_time o) (p_views o + 1)
              (p_created_at o) (p_updated_at o) (p_published_at o)
              (p_author_id o))
  = viewed (S n) o.
Proof.
  unfold viewed. cbn [p_id p_title p_slug p_content p_excerpt p_cover_image
                        p_published p_featured p_reading_time p_views
                        p_created_at p_updated_at p_published_at p_author_id].
  f_equal. lia.
Qed.

Lemma viewed_0 o : viewed 0 o = o.
Proof.
  destruct o. unfold viewed. cbn. f_equal. lia.
Qed.

(** X6.  [n] calls of [incrementViews] add [n] to the views of the post with
    the identifier and change nothing else: no other column, no other post,
    no other table; with no such post the calls return and change nothing at
    all. *)
Theorem incrementViews_counts n id : forall w, views_counted n id w.
Proof.
  unfold views_counted.
  induction n as [|n IH]; intros w.
  - cbn. repeat split.
    rewrite <- (map_id (posts (db w))) at 1. apply map_ext.
    intros o. rewrite viewed_0. now destruct (p_id o =? id).
  - cbn [times]. rewrite bind_run.
    unfold postService.incrementViews at 1 3 5 7 9 11 13, increment_views,
      modify_db.
    cbn [fst snd].
    destruct (IH (with_db (fun d => set_posts
                (map (fun o =>
                   if p_id o =? id then
                     mkPost (p_id o) (p_title o) (p_slug o) (p_content o)
                       (p_excerpt o) (p_cover_image o) (p_published o)
                       (p_featured o) (p_reading_time o) (p_views o + 1)
                       (p_created_at o) (p_updated_at o) (p_published_at o)
                       (p_author_id o)
                   else o) (posts d)) d) w))
      as (Hr & Hp & Hu & Hc & Ht & Hpc & Hpt).
    repeat split; try assumption.
    rewrite Hp. destruct w as [d ? ? ? ? ?]. cbn. rewrite map_map.
    apply map_ext. intros o. destruct (p_id o =? id) eqn:E; cbn [p_id].
    + rewrite E. apply viewed_more.
    + now rewrite E.
Qed.

(** X7.  [postService.delete] returns, whether or not the post exists;
    afterwards the post is not found and has no category and no tag left
    (the cascade), every other post and its associations are as they were,
    and no user, category or tag is touched. *)
Theorem delete_removes_post_and_associations id w : post_deleted id w.
Proof.
  unfold post_deleted, postService.delete, delete_posts, modify_db.
  cbn [fst snd]. destruct w as [d ? ? ? ? ?].
  split; [reflexivity|]. split.
  { rewrite findById_run. unfold select_post_by_id. cbn.
    now rewrite (find_filter_out p_id). }
  split. { unfold categories_of. cbn. now rewrite filter_fst_out. }
  split. { unfold tags_of. cbn. now rewrite filter_fst_out. }
  split; [|now cbn].
  intros other Hne. unfold select_post_by_id, categories_of, tags_of. cbn.
  now rewrite (find_filter_other p_id), !filter_fst_other.
Qed.

(** X8.  [categoryService.delete] returns, whether or not the category
    exists; afterwards the category is not found, every post has lost
    exactly that category, the other categories are as they were, and no
    post row, user, tag or tag association is touched. *)
Theorem category_delete_cascades id w : category_deleted id w.
Proof.
  unfold category_deleted, categoryService.delete, delete_categories,
    modify_db, categoryService.findById, bind, get_db, ret.
  cbn [fst snd]. destruct w as [d ? ? ? ? ?]. cbn.
  split; [reflexivity|]. split.
  { now rewrite (find_filter_out c_id). }
  repeat (split; [reflexivity|]). split.
  - intros c Hne. rewrite filter_In. split; [tauto|]. intros Hin.
    split; [exact Hin|]. apply negb_true_iff, not_true_is_false.
    intros E. apply eqb_true in E. tauto.
  - intros post_id. unfold categories_of. cbn. apply filter_snd_of.
Qed.

(** X9.  [tagService.delete] returns, whether or not the tag exists;
    afterwards the tag is not found, every post has lost exactly that tag,
    the other tags are as they were, and no post row, user, category or
    category association is touched. *)
Theorem tag_delete_cascades id w : tag_deleted id w.
Proof.
  unfold tag_deleted, tagService.delete, delete_tags,
    modify_db, tagService.findById, bind, get_db, ret.
  cbn [fst snd]. destruct w as [d ? ? ? ? ?]. cbn.
  split; [reflexivity|]. split.
  { now rewrite (find_filter_out t_id). }
  repeat (split; [reflexivity|]). split.
  - intros t Hne. rewrite filter_In. split; [tauto|]. intros Hin.
    split; [exact Hin|]. apply negb_true_iff, not_true_is_false.
    intros E. apply eqb_true in E. tauto.
  - intros post_id. unfold tags_of. cbn. apply filter_snd_of.
Qed.

(** ** [search] on any query, and the pages of [findAll] *)

Lemma mentions_selected query p :
  mentions query p = true -> selected_by ("%" ++ query ++ "%")%string p = true.
Proof.
  destruct (nul_free query) eqn:Hnul.
  - unfold mentions, selected_by. intros H.
    apply andb_true_iff in H as [-> H]. cbn [andb].
    apply orb_true_iff in H as [H|H].
    + apply orb_true_iff in H as [H|H];
        rewrite (like_of_contains _ _ Hnul H); now rewrite ?orb_true_r.
    + destruct (p_excerpt p); [|discriminate].
      rewrite (like_of_contains _ _ Hnul H). now rewrite ?orb_true_r.
  - unfold mentions. rewrite !(contains_nul query) by exact Hnul.
    destruct (p_excerpt p); [rewrite contains_nul by exact Hnul|];
      rewrite andb_false_r; discriminate.
Qed.

(** X10.  For every query of at most 49998 bytes, the [LIKE] wildcards [%]
    and [_] included, [postService.search] returns and changes nothing;
    every published post whose title, content or excerpt, read up to its
    first NUL character, contains the query as written is among the
    results, every result is a stored post with [published = 1], and the
    results are ordered by creation time descending.  For a longer query
    the pattern exceeds what the engine accepts: the call throws as soon as
    a post is published, and returns nothing otherwise. *)
Theorem search_never_misses_a_mention query w : search_outcome query w.
Proof.
  unfold search_outcome.
  destruct (within_pattern_limit query) eqn:Hfits;
    [|now apply search_run_refused].
  unfold search_covers. rewrite found_search by exact Hfits.
  split; [|split; [|split]].
  - eexists. now apply search_run.
  - intros p Hin Hm.
    eapply Permutation_in; [symmetry; apply order_by_permutation|].
    apply filter_In. split; [exact Hin|now apply mentions_selected].
  - intros p Hin.
    eapply Permutation_in in Hin; [|apply order_by_permutation].
    apply filter_In in Hin as [Hin Hm]. split; [exact Hin|].
    unfold selected_by in Hm. apply andb_true_iff in Hm as [Hpub _].
    now apply Z.eqb_eq in Hpub.
  - apply order_by_sorted.
Qed.


















(** ** The handlers of one post *)

Lemma findBySlug_run slug w :
  postService.findBySlug slug w =
  (Returned
     (match List.find (fun p => p_slug p =? slug) (posts (db w)) with
      | Some p => Some (mkPostWithRelations p
                    (select_categories_of_post (p_id p) (db w))
                    (select_tags_of_post (p_id p) (db w))
                    (List.find (fun u => u_id u =? p_author_id p)
                               (users (db w))))
      | None => None
      end), w).
Proof.
  unfold postService.findBySlug. rewrite bind_run. cbn [get_db].
  destruct (List.find _ _); reflexivity.
Qed.

Lemma find_map_other (F : Post -> Post) id other rows :
  other <> id -> (forall o, p_id (F o) = p_id o) ->
  List.find (fun p => p_id p =? other)
    (map (fun o => if p_id o =? id then F o else o) rows)
  = List.find (fun p => p_id p =? other) rows.
Proof.
  intros Hne HF. induction rows as [|r rows IH]; cbn; [reflexivity|].
  destruct (p_id r =? id) eqn:E.
  - rewrite HF. apply eqb_true in E.
    destruct (p_id r =? other) eqn:E'; [|exact IH].
    apply eqb_true in E'. congruence.
  - destruct (p_id r =? other); [reflexivity|exact IH].
Qed.

(** X12.  On tables that satisfy the schema, [GET /api/posts/[slug]] answers
    [404] and changes nothing when no post holds the slug; otherwise it
    answers [200] with the post as [findBySlug] read it, so with the views
    counted before this visit, and afterwards the stored row has one view
    more while every other post is as it was.  It never answers [500]. *)
Theorem GET_counts_the_visit_after_reading slug w :
  schema_holds (db w) = true -> visit_counted slug w.
Proof.
  intros Hschema. apply schema_holds_Schema in Hschema.
  unfold visit_counted, post_route.GET, row_after, try_catch.
  rewrite bind_run, findBySlug_run. cbn [fst].
  destruct (List.find (fun p => p_slug p =? slug) (posts (db w)))
    as [row|] eqn:Hrow; [|reflexivity].
  rewrite bind_run. cbn [post].
  unfold postService.incrementViews, increment_views, modify_db.
  cbn [fst snd ret post]. split; [reflexivity|].
  apply find_some in Hrow as [Hin _].
  assert (Hsel : select_post_by_id (p_id row) (db w) = Some row).
  { apply (find_unique_key p_id); [now destruct Hschema|exact Hin]. }
  destruct w as [d ? ? ? ? ?]. unfold select_post_by_id in *. cbn in *.
  split.
  - rewrite <- viewed_more, viewed_0.
    exact (find_id_map
             (fun o => mkPost (p_id o) (p_title o) (p_slug o) (p_content o)
                         (p_excerpt o) (p_cover_image o) (p_published o)
                         (p_featured o) (p_reading_time o) (p_views o + 1)
                         (p_created_at o) (p_updated_at o) (p_published_at o)
                         (p_author_id o))
             (p_id row) (posts d) row (fun o => eq_refl) Hsel).
  - intros other Hne.
    exact (find_map_other
             (fun o => mkPost (p_id o) (p_title o) (p_slug o) (p_content o)
                         (p_excerpt o) (p_cover_image o) (p_published o)
                         (p_featured o) (p_reading_time o) (p_views o + 1)
                         (p_created_at o) (p_updated_at o) (p_published_at o)
                         (p_author_id o))
             (p_id row) other (posts d) Hne (fun o => eq_refl)).
Qed.

(** A visit of ["hello-world"] on the sample tables. *)
Lemma GET_counts_the_visit_after_reading_witness :
  schema_holds (db Sample.world) = true /\
  visit_counted "hello-world" Sample.world.
Proof.
  split; [reflexivity|].
  apply (GET_counts_the_visit_after_reading "hello-world" Sample.world).
  reflexivity.
Defined.

Lemma filter_fst_snoc (id other c : string) (l : list (string * string)) :
  other <> id ->
  List.filter (fun pc => fst pc =? other) (l ++ [(id, c)])
  = List.filter (fun pc => fst pc =? other) l.
Proof.
  intros Hne. rewrite List.filter_app. cbn.
  destruct (id =? other) eqn:E; [|apply app_nil_r].
  apply eqb_true in E. congruence.
Qed.

(** [postService.update] leaves the posts it is not called for alone,
    whether it returns or throws. *)
Lemma update_keeps_other_posts input other v :
  other <> up_id input ->
  maintains (fun d => stored_under other d = v) (postService.update input).
Proof.
  intros Hne. unfold postService.update.
  apply maintains_bind; [apply maintains_keeps, keeps_read_clock|intros st].
  apply maintains_bind.
  { intros w H. unfold update_posts. rewrite bind_run. cbn [get_db].
    destruct (select_post_by_id (up_id input) (db w)); [|exact H].
    destruct (slug_taken _ _ _); [exact H|].
    rewrite <- H. destruct w as [d ? ? ? ? ?]. unfold stored_under. cbn.
    f_equal. f_equal. unfold select_post_by_id. cbn.
    apply find_map_other; [exact Hne|]. intros o. apply fold_assign_keys. }
  intros _. apply maintains_bind.
  { unfold postService.update_categories.
    destruct (up_categories input) as [cs|]; [|apply maintains_ret].
    apply maintains_bind.
    { intros w H. rewrite <- H. destruct w as [d ? ? ? ? ?].
      unfold stored_under, categories_of. cbn.
      now rewrite filter_fst_other. }
    intros _. destruct cs; [apply maintains_ret|].
    apply maintains_for_of. intros x w H. unfold insert_post_category.
    rewrite bind_run. cbn [get_db].
    destruct (existsb _ _); [exact H|]. destruct (negb _); [exact H|].
    rewrite <- H. destruct w as [d ? ? ? ? ?].
    unfold stored_under, categories_of. cbn.
    now rewrite filter_fst_snoc. }
  intros _. apply maintains_bind.
  { unfold postService.update_tags.
    destruct (up_tags input) as [ts|]; [|apply maintains_ret].
    apply maintains_bind.
    { intros w H. rewrite <- H. destruct w as [d ? ? ? ? ?].
      unfold stored_under, tags_of. cbn.
      now rewrite filter_fst_other. }
    intros _. destruct ts; [apply maintains_ret|].
    apply maintains_for_of. intros x w H. unfold insert_post_tag.
    rewrite bind_run. cbn [get_db].
    destruct (existsb _ _); [exact H|]. destruct (negb _); [exact H|].
    rewrite <- H. destruct w as [d ? ? ? ? ?].
    unfold stored_under, tags_of. cbn.
    now rewrite filter_fst_snoc. }
  intros _. apply maintains_keeps, keeps_findById.
Qed.

(** X13.  In [PUT /api/posts/[slug]] the body is spread after [id: post.id],
    so an [id] in the body replaces the identifier of the post the URL
    names: the update is run on the post of the body, and the row, the
    categories and the tags of the post at the slug are as they were,
    whether the update returns or throws. *)
Theorem PUT_body_id_redirects_update slug request other p w :
  fst (postService.findBySlug slug w) = Returned (Some p) ->
  body_id request = Some other ->
  other <> p_id (post p) ->
  put_redirected slug request other p w.
Proof.
  intros Hfound Hbody Hne. unfold put_redirected.
  assert (Hspread : spread (p_id (post p)) request = spread other request).
  { unfold spread. now rewrite Hbody. }
  assert (Hdb : db (snd (post_route.PUT slug request w))
                = db (snd (postService.update (spread other request) w))).
  { unfold post_route.PUT, try_catch. rewrite bind_run.
    rewrite findBySlug_run in *. cbn [fst] in Hfound.
    injection Hfound as ->. rewrite Hspread, bind_run.
    destruct (postService.update (spread other request) w)
      as [[[r|]|e] w']; reflexivity. }
  split; [exact Hdb|]. split.
  { rewrite Hspread. unfold spread. now rewrite Hbody. }
  rewrite Hdb.
  apply (update_keeps_other_posts (spread other request) (p_id (post p))).
  - unfold spread. rewrite Hbody. cbn. congruence.
  - reflexivity.
Qed.

(** The post at the slug ["hello-world"] is untouched by a [PUT] to its URL
    whose body says [{id: "p2", title: "Taken over"}]. *)
Lemma PUT_body_id_redirects_update_witness :
  body_id Cases.takeover = Some "p2" /\
  exists p,
    fst (postService.findBySlug "hello-world" Sample.world)
      = Returned (Some p) /\
    put_redirected "hello-world" Cases.takeover "p2" p Sample.world.
Proof.
  split; [reflexivity|]. eexists. split; [reflexivity|].
  apply (PUT_body_id_redirects_update "hello-world" Cases.takeover "p2" _
           Sample.world).
  - reflexivity.
  - reflexivity.
  - cbn. discriminate.
Defined.

(** A body that names no post: the update returns [undefined], which
    [NextResponse.json] cannot answer, and the handler answers [500]. *)
Example PUT_stray_body_id :
  fst (postService.update (spread "p1" Cases.stray) Sample.world)
    = Returned None /\
  fst (post_route.PUT "hello-world" Cases.stray Sample.world)
    = Returned (mkReply (Payload_error "Failed to update post") 500).
Proof. split; reflexivity. Qed.

Lemma find_slug_after_delete l (p : Post) :
  List.NoDup (map p_slug l) -> In p l ->
  List.find (fun o => p_slug o =? p_slug p)
    (List.filter (fun o => negb (p_id o =? p_id p)) l) = None.
Proof.
  intros Hl Hp.
  destruct (List.find _ _) as [y|] eqn:E; [|reflexivity].
  apply find_some in E as [Hy Hs]. apply filter_In in Hy as [Hy Hne].
  apply eqb_true in Hs.
  rewrite (same_key_same_row p_slug l y p Hl Hy Hp Hs) in Hne.
  apply negb_true_iff, eqb_false in Hne. congruence.
Qed.

(** X14.  On tables that satisfy the schema, [DELETE /api/posts/[slug]]
    answers [404] and changes nothing when no post holds the slug;
    otherwise it answers [200], the post and its category and tag
    associations are gone, and [GET], [PUT] and [DELETE] on the same slug
    answer [404] afterwards. *)
Theorem DELETE_then_slug_is_gone slug w :
  schema_holds (db w) = true -> delete_then_gone slug w.
Proof.
  intros Hschema. apply schema_holds_Schema in Hschema.
  unfold delete_then_gone.
  rewrite findBySlug_run. cbn [fst].
  destruct (List.find (fun p => p_slug p =? slug) (posts (db w)))
    as [row|] eqn:Hrow.
  - cbn [post].
    assert (Hrun : post_route.DELETE slug w
                   = (Returned (mkReply
                        (Payload_message "Post deleted successfully") 200),
                      snd (postService.delete (p_id row) w))).
    { unfold post_route.DELETE, try_catch.
      rewrite bind_run, findBySlug_run, Hrow. reflexivity. }
    rewrite Hrun. cbn [fst snd].
    apply find_some in Hrow as [Hin Hslug]. apply eqb_true in Hslug.
    assert (Hgone : List.find (fun p => p_slug p =? slug)
                      (posts (db (snd (postService.delete (p_id row) w))))
                    = None).
    { subst slug. destruct w as [d ? ? ? ? ?]. cbn.
      apply find_slug_after_delete; [now destruct Hschema|exact Hin]. }
    split; [reflexivity|]. split.
    { destruct w as [d ? ? ? ? ?]. unfold stored_under, select_post_by_id,
        categories_of, tags_of. cbn.
      now rewrite (find_filter_out p_id), !filter_fst_out. }
    unfold post_route.GET, post_route.PUT, post_route.DELETE, try_catch.
    rewrite !bind_run, !findBySlug_run, Hgone. auto.
  - unfold post_route.DELETE, try_catch.
    rewrite bind_run, findBySlug_run, Hrow. reflexivity.
Qed.

(** Deleting ["hello-world"] on the sample tables. *)
Lemma DELETE_then_slug_is_gone_witness :
  schema_holds (db Sample.world) = true /\
  delete_then_gone "hello-world" Sample.world.
Proof.
  split; [reflexivity|].
  apply (DELETE_then_slug_is_gone "hello-world" Sample.world).
  reflexivity.
Defined.

(** ** Creating users, categories and tags *)

(** A row appended to a table that holds no row with its key is the row a
    lookup by that key finds. *)
Lemma find_snoc_fresh {A} (key : A -> string) (l : list A) x :
  existsb (fun a => key a =? key x) l = false ->
  List.find (fun a => key a =? key x) (l ++ [x]) = Some x.
Proof.
  intros H. induction l as [|a l IH]; cbn in *.
  - now rewrite String.eqb_refl.
  - apply orb_false_iff in H as [-> H]. auto.
Qed.

Lemma existsb_or_false {A} (f g : A -> bool) l :
  existsb (fun a => f a || g a) l = false ->
  existsb f l = false /\ existsb g l = false.
Proof.
  induction l as [|a l IH]; cbn; [auto|]. intros H.
  apply orb_false_iff in H as [H1 H2]. apply orb_false_iff in H1 as [-> ->].
  now apply IH.
Qed.

(** X15.  [POST /api/categories] answers [400] and touches nothing when the
    name is absent or empty.  Otherwise it answers [201] with the new
    category when the fresh identifier, the name and the generated slug are
    unused: the row is appended with the slug generated from the name and
    an empty description or colour stored as [NULL], and it is found by
    identifier and by slug; in every other case it answers [500] and stores
    nothing. *)
Theorem category_POST_outcomes request w : category_post_outcome request w.
Proof.
  unfold category_post_outcome, categories_route.POST, try_catch.
  destruct (or_null (categories_route.name request)) as [name|];
    [|reflexivity].
  unfold category_accepted, new_category, categoryService.create,
    categoryService.findById, categoryService.findBySlug, insert_category,
    bind, uuidv4, CURRENT_TIMESTAMP, get_db, ret, throw, modify_db,
    categories_route.on_error.
  destruct w as [d us dr dn ct tk]. cbn [db uuid_source draws date_now
    current_timestamp ticks fst snd].
  destruct (has_category (us dr) d) eqn:Hid; cbn [negb andb];
    [split; reflexivity|].
  destruct (existsb _ (categories d)) eqn:Hused; cbn [negb];
    [split; reflexivity|].
  cbn [with_db db set_categories categories fst snd c_id c_slug].
  apply existsb_or_false in Hused as [_ Hslug].
  set (c := mkCategory _ _ _ _ _ _ _).
  assert (Hbyid : List.find (fun x => c_id x =? us dr) (categories d ++ [c])
                  = Some c).
  { apply (find_snoc_fresh c_id (categories d) c). exact Hid. }
  assert (Hbyslug : List.find (fun x => c_slug x =? generateSlug name)
                      (categories d ++ [c]) = Some c).
  { apply (find_snoc_fresh c_slug (categories d) c). exact Hslug. }
  rewrite Hbyid, Hbyslug. repeat split.
Qed.

(** X16.  [POST /api/tags] answers [400] and touches nothing when the name
    is absent or empty.  Otherwise it answers [201] with the new tag when
    the fresh identifier, the name and the generated slug are unused: the
    row is appended with the slug generated from the name and is found by
    identifier and by slug; in every other case it answers [500] and stores
    nothing. *)
Theorem tag_POST_outcomes name w : tag_post_outcome name w.
Proof.
  unfold tag_post_outcome, tags_route.POST, try_catch.
  destruct (or_null name) as [name'|]; [|reflexivity].
  unfold tag_accepted, new_tag, tagService.create,
    tagService.findById, tagService.findBySlug, insert_tag,
    bind, uuidv4, CURRENT_TIMESTAMP, get_db, ret, throw, modify_db,
    tags_route.on_error.
  destruct w as [d us dr dn ct tk]. cbn [db uuid_source draws date_now
    current_timestamp ticks fst snd].
  destruct (has_tag (us dr) d) eqn:Hid; cbn [negb andb];
    [split; reflexivity|].
  destruct (existsb _ (tags d)) eqn:Hused; cbn [negb];
    [split; reflexivity|].
  cbn [with_db db set_tags tags fst snd t_id t_slug].
  apply existsb_or_false in Hused as [_ Hslug].
  set (t := mkTag _ _ _ _ _).
  assert (Hbyid : List.find (fun x => t_id x =? us dr) (tags d ++ [t])
                  = Some t).
  { apply (find_snoc_fresh t_id (tags d) t). exact Hid. }
  assert (Hbyslug : List.find (fun x => t_slug x =? generateSlug name')
                      (tags d ++ [t]) = Some t).
  { apply (find_snoc_fresh t_slug (tags d) t). exact Hslug. }
  rewrite Hbyid, Hbyslug. repeat split.
Qed.

(** X17.  [userService.create] stores the user with the role ["admin"] and
    returns it when the fresh identifier and the email are unused, and the
    user is then found by identifier and by email; otherwise it throws and
    stores nothing. *)
Theorem user_create_then_find email name password w :
  user_create_outcome email name password w.
Proof.
  unfold user_create_outcome, user_accepted, new_user, userService.create,
    userService.findById, userService.findByEmail, insert_user,
    bind, uuidv4, CURRENT_TIMESTAMP, get_db, ret, throw, modify_db.
  destruct w as [d us dr dn ct tk]. cbn [db uuid_source draws date_now
    current_timestamp ticks fst snd].
  destruct (has_user (us dr) d) eqn:Hid; cbn [negb andb];
    [split; [eexists|]; reflexivity|].
  destruct (existsb _ (users d)) eqn:Hused; cbn [negb];
    [split; [eexists|]; reflexivity|].
  cbn [with_db db set_users users fst snd u_id u_email].
  set (u := mkUser _ _ _ _ _ _ _).
  assert (Hbyid : List.find (fun x => u_id x =? us dr) (users d ++ [u])
                  = Some u).
  { apply (find_snoc_fresh u_id (users d) u). exact Hid. }
  assert (Hbyemail : List.find (fun x => u_email x =? email) (users d ++ [u])
                     = Some u).
  { apply (find_snoc_fresh u_email (users d) u). exact Hused. }
  rewrite Hbyid, Hbyemail. repeat split.
Qed.

(** ** The listing handler, and the listings of the taxonomies *)


#[global] Instance category_name_asc_total : Total category_name_asc.
Proof.
  intros a b. unfold category_name_asc.
  destruct (String.leb_total (c_name a) (c_name b)); auto.
Qed.

#[global] Instance category_name_asc_trans : Transitive category_name_asc.
Proof.
  intros a b c Hab Hbc. unfold category_name_asc in *.
  now apply string_leb_trans with (b := c_name b).
Qed.

#[global] Instance tag_name_asc_total : Total tag_name_asc.
Proof.
  intros a b. unfold tag_name_asc.
  destruct (String.leb_total (t_name a) (t_name b)); auto.
Qed.

#[global] Instance tag_name_asc_trans : Transitive tag_name_asc.
Proof.
  intros a b c Hab Hbc. unfold tag_name_asc in *.
  now apply string_leb_trans with (b := t_name b).
Qed.

(** X19.  [categoryService.findAll] and [tagService.findAll] return every
    row of their table, each as often as it is stored, in ascending
    bytewise order of the names, and change nothing. *)
Theorem taxonomies_listed_by_name w : taxonomies_listed w.
Proof.
  split; eexists; (split; [reflexivity|]); cbn [db]; split.
  - apply merge_sort_Permutation.
  - apply StronglySorted_merge_sort; apply _.
  - apply merge_sort_Permutation.
  - apply StronglySorted_merge_sort; apply _.
Qed.
